(** * Cascade information reconciliation: keys and sessions

    A shallow embedding of [bb84/cascade/key.py] and
    [bb84/cascade/session.py].  Python integers are [Z], dictionaries are
    stdpp finite maps, exceptions are an explicit error type, and mutation
    of an object is modelled by returning its state after the call. *)

From stdpp Require Import gmap strings list fin_maps numbers sorting pretty.

Local Open Scope Z_scope.

(** ** Exceptions and the error monad *)

Inductive exn : Type :=
| AssertionError
| KeyError (k : Z)
| IndexError
| ValueError
| AttributeError (cls attr : string).

Inductive result (A : Type) : Type :=
| Ok (a : A)
| Raise (e : exn).
Arguments Ok {A} a.
Arguments Raise {A} e.

#[global] Instance result_ret : MRet result := @Ok.
#[global] Instance result_bind : MBind result :=
  λ A B f m, match m with Ok a => f a | Raise e => Raise e end.
#[global] Instance result_fmap : FMap result :=
  λ A B f m, match m with Ok a => Ok (f a) | Raise e => Raise e end.

(** [assert c] *)
Definition assert (c : bool) : result unit :=
  if c then Ok tt else Raise AssertionError.

(** [d[k]] on a dictionary: a missing key raises [KeyError]. *)
Definition getitem (d : gmap Z Z) (k : Z) : result Z :=
  match d !! k with
  | Some v => Ok v
  | None => Raise (KeyError k)
  end.

(** ** The random module

    [random.Random] is the standard library's generator class.  Every draw
    the two source files make goes through one primitive, [randbelow n],
    which returns an integer in [0, n) and the next generator state. *)

Class RandomGen (G : Type) : Type := {
  (** [random.Random(seed)] for an explicit integer seed *)
  Random_seed : Z → G;
  (** [self._randbelow(n)] *)
  randbelow : nat → G → nat * G
}.

Class RandomGenLaws (G : Type) `{RandomGen G} : Prop := {
  randbelow_lt : ∀ n g, (0 < n)%nat → (fst (randbelow n g) < n)%nat
}.

(** The state a Python process hides behind the [random] module: the
    module-level generator used by [random.sample], and the operating
    system entropy that seeds [random.Random(None)]. *)
Record RandomWorld (G : Type) : Type := mkRandomWorld {
  global_inst : G;
  os_entropy : nat → Z;
  entropy_used : nat
}.
Arguments mkRandomWorld {G} _ _ _.
Arguments global_inst {G} _.
Arguments os_entropy {G} _.
Arguments entropy_used {G} _.

Section Random.
Context {G : Type} `{RandomGen G}.

(** [random.Random(seed)]: [None] seeds from the operating system. *)
Definition Random (seed : option Z) (w : RandomWorld G) : G * RandomWorld G :=
  match seed with
  | Some s => (Random_seed s, w)
  | None =>
      (Random_seed (os_entropy w (entropy_used w)),
       mkRandomWorld (global_inst w) (os_entropy w) (S (entropy_used w)))
  end.

(** [g.randint(a, b)] is [a + g._randbelow(b - a + 1)]. *)
Definition randint (a b : Z) (g : G) : result (Z * G) :=
  if decide (b < a) then Raise ValueError
  else let '(r, g') := randbelow (Z.to_nat (b - a + 1)) g in
       Ok (a + Z.of_nat r, g').

(** Drawing [k] elements without replacement from [pool]. *)
Fixpoint sample_from (pool : list Z) (k : nat) (g : G) : result (list Z * G) :=
  match k with
  | O => Ok ([], g)
  | S k' =>
      let '(j, g') := randbelow (length pool) g in
      match pool !! j with
      | None => Raise IndexError
      | Some x =>
          '(rest, g'') ← sample_from (delete j pool) k' g';
          Ok (x :: rest, g'')
      end
  end.

(** [g.sample(population, k)] *)
Definition sample_with (population : list Z) (k : Z) (g : G) : result (list Z * G) :=
  if decide (0 ≤ k ≤ Z.of_nat (length population))
  then sample_from population (Z.to_nat k) g
  else Raise ValueError.

(** [random.sample(population, k)], on the module-level generator. *)
Definition sample (population : list Z) (k : Z) (w : RandomWorld G)
  : result (list Z * RandomWorld G) :=
  '(l, g') ← sample_with population k (global_inst w);
  Ok (l, mkRandomWorld g' (os_entropy w) (entropy_used w)).
End Random.

(** ** key.py *)

Module Key.

(** [self._size], [self._bits] *)
Record Key : Type := mkKey {
  _size : Z;
  _bits : gmap Z Z
}.

(** [Key()] *)
Definition __init__ : Key := {| _size := 0; _bits := ∅ |}.

(** [key.size] *)
Definition size (self : Key) : Z := _size self.

Section WithRandom.
Context {G : Type} `{RandomGen G}.

(** The loop [for i in range(size): key._bits[i] = local_random.randint(0, 1)] *)
Fixpoint fill_random (indexes : list Z) (bits : gmap Z Z) (g : G)
  : result (gmap Z Z * G) :=
  match indexes with
  | [] => Ok (bits, g)
  | i :: rest =>
      '(b, g') ← randint 0 1 g;
      fill_random rest (<[i := b]> bits) g'
  end.

(** [Key.create_random_key(size, seed)] *)
Definition create_random_key (size : Z) (seed : option Z) (w : RandomWorld G)
  : result (Key * RandomWorld G) :=
  _ ← assert (bool_decide (size >= 0));
  let key := __init__ in
  let '(local_random, w') := Random seed w in
  '(bits, _) ← fill_random (seqZ 0 size) (_bits key) local_random;
  Ok ({| _size := size; _bits := bits |}, w').
End WithRandom.

(** [key.get_bit(index)] *)
Definition get_bit (self : Key) (index : Z) : result Z :=
  _ ← assert (bool_decide (0 ≤ index < _size self));
  getitem (_bits self) index.

(** [key.set_bit(index, value)]: the key after the call. *)
Definition set_bit (self : Key) (index value : Z) : result Key :=
  _ ← assert (bool_decide (0 ≤ index < _size self));
  _ ← assert (bool_decide (value ∈ [0; 1]));
  Ok {| _size := _size self; _bits := <[index := value]> (_bits self) |}.

(** [self._bits[index] = 1 - self._bits[index]] *)
Definition flip_in (bits : gmap Z Z) (index : Z) : result (gmap Z Z) :=
  v ← getitem bits index;
  Ok (<[index := 1 - v]> bits).

(** [key.flip_bit(index)]: the key after the call. *)
Definition flip_bit (self : Key) (index : Z) : result Key :=
  _ ← assert (bool_decide (0 ≤ index < _size self));
  bits ← flip_in (_bits self) index;
  Ok {| _size := _size self; _bits := bits |}.

(** The loop [for index in bits_to_flip: self._bits[index] = 1 - self._bits[index]] *)
Fixpoint apply_noise (bits_to_flip : list Z) (bits : gmap Z Z) : result (gmap Z Z) :=
  match bits_to_flip with
  | [] => Ok bits
  | index :: rest =>
      bits' ← flip_in bits index;
      apply_noise rest bits'
  end.

(** The value of [self._bits.keys()] as a sequence. *)
Definition keys (bits : gmap Z Z) : list Z := (map_to_list bits).*1.

(** The outcome of [self.copy(error_count)]: the key it returns and the
    state of [self] when it returns. *)
Record copied : Type := mkCopied {
  returned : Key;
  receiver : Key
}.

Section WithRandom.
Context {G : Type} `{RandomGen G}.

(** [self.copy(error_count)] *)
Definition copy (self : Key) (error_count : Z) (w : RandomWorld G)
  : result (copied * RandomWorld G) :=
  _ ← assert (bool_decide (0 ≤ error_count ≤ _size self));
  (* key = Key(); key._size = self._size; key._bits = copy.deepcopy(self._bits) *)
  let key := {| _size := _size self; _bits := _bits self |} in
  (* bits_to_flip = random.sample(self._bits.keys(), error_count) *)
  '(bits_to_flip, w') ← sample (keys (_bits self)) error_count w;
  (* the loop assigns into self._bits *)
  self_bits ← apply_noise bits_to_flip (_bits self);
  Ok ({| returned := key;
         receiver := {| _size := _size self; _bits := self_bits |} |}, w').
End WithRandom.

(** The loop of [difference]. *)
Fixpoint count_differences (indexes : list Z) (a b : gmap Z Z) (difference : Z)
  : result Z :=
  match indexes with
  | [] => Ok difference
  | i :: rest =>
      x ← getitem a i;
      y ← getitem b i;
      count_differences rest a b
        (if bool_decide (x ≠ y) then difference + 1 else difference)
  end.

(** [self.difference(other_key)] *)
Definition difference (self other_key : Key) : result Z :=
  _ ← assert (bool_decide (_size self = _size other_key));
  count_differences (seqZ 0 (_size self)) (_bits self) (_bits other_key) 0.

(** The names class [Key] binds in its body. *)
Definition class_attributes : list string :=
  ["__init__"; "create_random_key"; "__repr__"; "__str__"; "size"; "get_bit";
   "set_bit"; "flip_bit"; "copy"; "difference"]%string.

(** Every position in [0, size) has a value and no other position has. *)
Definition well_formed (k : Key) : Prop :=
  ∀ i, is_Some (_bits k !! i) ↔ 0 ≤ i < _size k.

(** Every bit stored is 0 or 1. *)
Definition binary (k : Key) : Prop :=
  ∀ i v, _bits k !! i = Some v → v = 0 ∨ v = 1.

(** [str(v)] for an integer: its decimal digits. *)
Definition str (v : Z) : string := pretty v.

(** The loop [for i in range(self._size): string += str(self._bits[i])] *)
Fixpoint str_loop (indexes : list Z) (bits : gmap Z Z) (string : String.string)
  : result String.string :=
  match indexes with
  | [] => Ok string
  | i :: rest =>
      v ← getitem bits i;
      str_loop rest bits (string +:+ str v)
  end.

(** [key.__str__()] *)
Definition __str__ (self : Key) : result string :=
  str_loop (seqZ 0 (_size self)) (_bits self) "".

(** [key.__repr__()] *)
Definition __repr__ (self : Key) : result string :=
  string ← __str__ self;
  Ok ("Key: " +:+ string).

End Key.

(** The names class [object] binds; every class inherits them. *)
Definition object_attributes : list string :=
  ["__class__"; "__delattr__"; "__dir__"; "__doc__"; "__eq__"; "__format__";
   "__ge__"; "__getattribute__"; "__gt__"; "__hash__"; "__init__";
   "__init_subclass__"; "__le__"; "__lt__"; "__ne__"; "__new__"; "__reduce__";
   "__reduce_ex__"; "__repr__"; "__setattr__"; "__sizeof__"; "__str__";
   "__subclasshook__"]%string.

(** Attribute lookup [cls.attr] on a class with the given body. *)
Definition class_getattr (cls : string) (body : list string) (attr : string)
  : result unit :=
  if bool_decide (attr ∈ body ++ object_attributes) then Ok tt
  else Raise (AttributeError cls attr).

(** ** The interface of the modules session.py imports

    [block.py], [shuffle.py], [parameters.py] and the classical channels
    are collaborators of the session: the session only calls them.  Their
    state (the key being corrected, the channel, the block hierarchy, the
    shuffle generator) lives in a [world] the session threads through. *)

Module Block.
(** [Block.ERRORS_EVEN], [Block.ERRORS_ODD] *)
Inductive error_parity : Type := ERRORS_EVEN | ERRORS_ODD.
#[global] Instance error_parity_eq_dec : EqDecision error_parity.
Proof. solve_decision. Defined.
End Block.

Module Shuffle.
(** [Shuffle.SHUFFLE_KEEP_SAME], [Shuffle.SHUFFLE_RANDOM] *)
Inductive algorithm : Type := SHUFFLE_KEEP_SAME | SHUFFLE_RANDOM.
#[global] Instance algorithm_eq_dec : EqDecision algorithm.
Proof. solve_decision. Defined.
End Shuffle.

(** [Parameters]: the fields the session reads. *)
Record Parameters (rate : Type) : Type := mkParameters {
  nr_iterations : Z;
  block_size_function : rate → Z → Z;
  sub_block_reuse : bool
}.
Arguments mkParameters {rate} _ _ _.
Arguments nr_iterations {rate} _.
Arguments block_size_function {rate} _ _ _.
Arguments sub_block_reuse {rate} _.

(** [Session]: the attributes [__init__] sets ([stats] is a passive sink
    and is left out). *)
Record Session (rate channel block : Type) : Type := mkSession {
  _classical_channel : channel;
  _parameters : Parameters rate;
  _key_index_to_blocks : gmap Z (list block);
  _error_blocks : list (Z * block)
}.
Arguments mkSession {rate channel block} _ _ _ _.
Arguments _classical_channel {rate channel block} _.
Arguments _parameters {rate channel block} _.
Arguments _key_index_to_blocks {rate channel block} _.
Arguments _error_blocks {rate channel block} _.

(** The calls a block makes back into its session. *)
Inductive callback (block : Type) : Type :=
| Call_register_block (b : block)
| Call_register_error_block (b : block).
Arguments Call_register_block {block} b.
Arguments Call_register_error_block {block} b.

Class Collaborators : Type := {
  rate : Type;
  channel : Type;
  block : Type;
  shuffle : Type;
  key : Type;
  world : Type;
  block_eq_dec :: EqDecision block;
  (** [block.size], [block.is_top_block], [block.key_indexes] *)
  Block_size : block → Z;
  Block_is_top_block : block → bool;
  Block_key_indexes : block → list Z;
  (** [block1 < block2], used when two queue entries have equal size *)
  Block_lt : block → block → bool;
  (** [block.error_parity] *)
  Block_error_parity :
    block → Session rate channel block → world → result (Block.error_parity * world);
  (** [block.correct_one_bit()]: its result and the calls it made on the session *)
  Block_correct_one_bit :
    block → Session rate channel block → world →
    result (option Z * list (callback block) * world);
  (** [Block.create_covering_blocks(session, key, shuffle, block_size)] *)
  Block_create_covering_blocks :
    Session rate channel block → key → shuffle → Z → world →
    result (list block * list (callback block) * world);
  (** [Shuffle(size, algorithm)] *)
  Shuffle_new : Z → Shuffle.algorithm → world → result (shuffle * world);
  (** [Shuffle.set_random_seed(seed)] *)
  Shuffle_set_random_seed : Z → world → result world;
  (** [key.size] of the key object behind a reference *)
  Key_size : key → world → Z;
  (** [MockClassicalChannel(alice_key)] *)
  MockClassicalChannel : Key.Key → world → result (channel * world);
  (** [channel.start_reconciliation()], [channel.end_reconciliation()] *)
  start_reconciliation : channel → world → result world;
  end_reconciliation : channel → world → result world
}.

(** ** heapq, by its contract

    The queue holds tuples [(block.size, block)]; [heappop] removes a least
    entry under tuple comparison. *)
Section Heapq.
Context `{Collaborators}.

(** [entry1 < entry2] on tuples [(size, block)] *)
Definition entry_lt (x y : Z * block) : bool :=
  if decide (x.1 = y.1)
  then (if decide (x.2 = y.2) then false else Block_lt x.2 y.2)
  else bool_decide (x.1 < y.1).

Definition heappush (heap : list (Z * block)) (item : Z * block) : list (Z * block) :=
  heap ++ [item].

Fixpoint smallest (candidate : Z * block) (heap : list (Z * block)) : Z * block :=
  match heap with
  | [] => candidate
  | item :: rest => smallest (if entry_lt item candidate then item else candidate) rest
  end.

Fixpoint remove_first (item : Z * block) (heap : list (Z * block)) : list (Z * block) :=
  match heap with
  | [] => []
  | x :: rest => if decide (x = item) then rest else x :: remove_first item rest
  end.

Definition heappop (heap : list (Z * block)) : option ((Z * block) * list (Z * block)) :=
  match heap with
  | [] => None
  | x :: rest => let item := smallest x rest in Some (item, remove_first item heap)
  end.
End Heapq.

(** ** session.py *)

Section Session.
Context `{Collaborators}.

Notation "'Session'" := (Session rate channel block) (only parsing).

(** [Session(parameters, classical_channel)] *)
Definition Session__init__ (parameters : Parameters rate) (classical_channel : channel)
  : Session :=
  {| _classical_channel := classical_channel;
     _parameters := parameters;
     _key_index_to_blocks := ∅;
     _error_blocks := [] |}.

Definition set_key_index_to_blocks (self : Session) (m : gmap Z (list block)) : Session :=
  {| _classical_channel := _classical_channel self;
     _parameters := _parameters self;
     _key_index_to_blocks := m;
     _error_blocks := _error_blocks self |}.

Definition set_error_blocks (self : Session) (heap : list (Z * block)) : Session :=
  {| _classical_channel := _classical_channel self;
     _parameters := _parameters self;
     _key_index_to_blocks := _key_index_to_blocks self;
     _error_blocks := heap |}.

(** The loop of [register_block] over [block.key_indexes]. *)
Fixpoint register_block_loop (b : block) (key_indexes : list Z)
    (key_index_to_blocks : gmap Z (list block)) : result (gmap Z (list block)) :=
  match key_indexes with
  | [] => Ok key_index_to_blocks
  | key_index :: rest =>
      match key_index_to_blocks !! key_index with
      | Some blocks =>
          _ ← assert (bool_decide (b ∉ blocks));
          register_block_loop b rest (<[key_index := blocks ++ [b]]> key_index_to_blocks)
      | None =>
          register_block_loop b rest (<[key_index := [b]]> key_index_to_blocks)
      end
  end.

(** [session.register_block(block)]: the session after the call. *)
Definition register_block (self : Session) (b : block) : result Session :=
  m ← register_block_loop b (Block_key_indexes b) (_key_index_to_blocks self);
  Ok (set_key_index_to_blocks self m).

(** [session.get_blocks_containing_key_index(key_index)] *)
Definition get_blocks_containing_key_index (self : Session) (key_index : Z)
  : result (list block) :=
  _ ← assert (bool_decide (key_index >= 0));
  Ok (default [] (_key_index_to_blocks self !! key_index)).

(** [session.register_error_block(block)]: the session after the call. *)
Definition register_error_block (self : Session) (b : block) : Session :=
  if negb (sub_block_reuse (_parameters self)) && negb (Block_is_top_block b)
  then self
  else set_error_blocks self (heappush (_error_blocks self) (Block_size b, b)).

(** [session.get_registered_error_blocks()] *)
Definition get_registered_error_blocks (self : Session) : list block :=
  (_error_blocks self).*2.

(** The calls a block made on the session, in the order it made them. *)
Definition run_callback (self : Session) (c : callback block) : result Session :=
  match c with
  | Call_register_block b => register_block self b
  | Call_register_error_block b => Ok (register_error_block self b)
  end.

Fixpoint run_callbacks (self : Session) (calls : list (callback block)) : result Session :=
  match calls with
  | [] => Ok self
  | c :: rest => self' ← run_callback self c; run_callbacks self' rest
  end.

(** *** Executions

    A method of the session runs on the session and the collaborators'
    world, and leaves a log of the calls it made on the collaborators. *)

Inductive event : Type :=
| Ev_start_reconciliation
| Ev_end_reconciliation
| Ev_Shuffle (size : Z) (algorithm : Shuffle.algorithm)
| Ev_create_covering_blocks (block_size : Z) (blocks : list block)
| Ev_heappop (heap : list (Z * block)) (item : Z * block)
| Ev_error_parity (b : block) (parity : Block.error_parity)
| Ev_correct_one_bit (b : block).

Record config : Type := mkConfig {
  sess : Session;
  ext : world
}.

Inductive outcome (A : Type) : Type :=
| Return (log : list event) (a : A) (c : config)
| Throw (log : list event) (e : exn)
| OutOfFuel (log : list event).
Arguments Return {A} log a c.
Arguments Throw {A} log e.
Arguments OutOfFuel {A} log.

Definition events {A} (o : outcome A) : list event :=
  match o with
  | Return log _ _ => log
  | Throw log _ => log
  | OutOfFuel log => log
  end.

Definition M (A : Type) : Type := config → outcome A.

Definition M_ret {A} (a : A) : M A := λ c, Return [] a c.

Definition M_bind {A B} (m : M A) (f : A → M B) : M B := λ c,
  match m c with
  | Return log a c' =>
      match f a c' with
      | Return log' b c'' => Return (log ++ log') b c''
      | Throw log' e => Throw (log ++ log') e
      | OutOfFuel log' => OutOfFuel (log ++ log')
      end
  | Throw log e => Throw log e
  | OutOfFuel log => OutOfFuel log
  end.

Notation "x <- m ;; k" := (M_bind m (λ x, k))
  (at level 100, m at next level, right associativity).
Notation "m ;;; k" := (M_bind m (λ _, k))
  (at level 100, right associativity).

(** A call on a collaborator that only touches the world. *)
Definition on_world {A} (f : world → result (A * world)) (log : A → list event) : M A :=
  λ c, match f (ext c) with
       | Ok (a, w) => Return (log a) a {| sess := sess c; ext := w |}
       | Raise e => Throw [] e
       end.

(** A call on a block: the block runs, calling back into the session. *)
Definition on_block {A} (f : Session → world → result (A * list (callback block) * world))
    (called : list event) (returned : A → list event) : M A :=
  λ c, match f (sess c) (ext c) with
       | Ok (a, calls, w) =>
           match run_callbacks (sess c) calls with
           | Ok s => Return (called ++ returned a) a {| sess := s; ext := w |}
           | Raise e => Throw called e
           end
       | Raise e => Throw called e
       end.

Definition M_assert (b : bool) : M unit :=
  λ c, if b then Return [] tt c else Throw [] AssertionError.

(** [block.error_parity] *)
Definition error_parity (b : block) : M Block.error_parity :=
  λ c, on_world (Block_error_parity b (sess c)) (λ p, [Ev_error_parity b p]) c.

(** [block.correct_one_bit()] *)
Definition correct_one_bit (b : block) : M (option Z) :=
  on_block (Block_correct_one_bit b) [Ev_correct_one_bit b] (λ _, []).

(** The body of the [while] loop of [correct_registered_error_blocks],
    for the entry [item] just popped and the heap [rest] left. *)
Definition correct_popped (heap : list (Z * block)) (item : Z * block)
    (rest : list (Z * block)) : M unit :=
  (λ c, Return [Ev_heappop heap item] tt
          {| sess := set_error_blocks (sess c) rest; ext := ext c |}) ;;;
  parity <- error_parity item.2 ;;
  if decide (parity = Block.ERRORS_ODD)
  then (r <- correct_one_bit item.2 ;; M_assert (bool_decide (r ≠ None)))
  else M_ret tt.

(** [session.correct_registered_error_blocks()], with [fuel] bounding
    the number of iterations of its [while] loop. *)
Fixpoint correct_registered_error_blocks (fuel : nat) : M unit := λ c,
  match heappop (_error_blocks (sess c)) with
  | None => Return [] tt c
  | Some (item, rest) =>
      match fuel with
      | O => OutOfFuel []
      | S fuel' =>
          (correct_popped (_error_blocks (sess c)) item rest ;;;
           correct_registered_error_blocks fuel') c
      end
  end.

(** The loop [for block in blocks] of [correct_key]. *)
Fixpoint visit_blocks (fuel : nat) (blocks : list block) : M unit :=
  match blocks with
  | [] => M_ret tt
  | b :: rest =>
      (_corrected_shuffle_index <- correct_one_bit b ;;
       correct_registered_error_blocks fuel ;;;
       visit_blocks fuel rest)
  end.

(** One iteration of the loop over [range(1, nr_iterations + 1)]. *)
Definition cascade_iteration (fuel : nat) (k : key)
    (estimated_quantum_bit_error_rate : rate) (iteration : Z) : M unit := λ c,
  let self := sess c in
  let block_size :=
    block_size_function (_parameters self) estimated_quantum_bit_error_rate iteration in
  let algorithm :=
    if decide (iteration = 1) then Shuffle.SHUFFLE_KEEP_SAME else Shuffle.SHUFFLE_RANDOM in
  (shuffle <- on_world (Shuffle_new (Key_size k (ext c)) algorithm)
                (λ _, [Ev_Shuffle (Key_size k (ext c)) algorithm]) ;;
   blocks <- (λ c', on_block (λ s w, Block_create_covering_blocks s k shuffle block_size w)
                [] (λ blocks, [Ev_create_covering_blocks block_size blocks]) c') ;;
   visit_blocks fuel blocks) c.

Fixpoint cascade_iterations (fuel : nat) (k : key)
    (estimated_quantum_bit_error_rate : rate) (iterations : list Z) : M unit :=
  match iterations with
  | [] => M_ret tt
  | iteration :: rest =>
      (cascade_iteration fuel k estimated_quantum_bit_error_rate iteration ;;;
       cascade_iterations fuel k estimated_quantum_bit_error_rate rest)
  end.

(** [session.correct_key(key, estimated_quantum_bit_error_rate)] *)
Definition correct_key (fuel : nat) (k : key) (estimated_quantum_bit_error_rate : rate)
  : M key := λ c,
  let self := sess c in
  ((λ c', on_world (λ w, (λ w', (tt, w')) <$> start_reconciliation (_classical_channel self) w)
            (λ _, [Ev_start_reconciliation]) c') ;;;
   cascade_iterations fuel k estimated_quantum_bit_error_rate
     (seqZ 1 (nr_iterations (_parameters self))) ;;;
   (λ c', on_world (λ w, (λ w', (tt, w')) <$> end_reconciliation (_classical_channel self) w)
            (λ _, [Ev_end_reconciliation]) c') ;;;
   M_ret k) c.

(** [Key.set_random_seed(key_seed)]: the attribute is looked up on class
    [Key] first.  No definition of such a method exists to run after a
    lookup that succeeds. *)
Definition Key_set_random_seed (key_seed : Z) : result unit :=
  class_getattr "Key" Key.class_attributes "set_random_seed".

(** [Session.create_mock_session_and_key(key_size, key_seed, shuffle_seed,
    parameters)] *)
Definition create_mock_session_and_key {G : Type} `{RandomGen G}
    (key_size : Z) (key_seed shuffle_seed : option Z) (parameters : Parameters rate)
    (rw : RandomWorld G) (w : world)
  : result (Session * Key.Key * RandomWorld G * world) :=
  _ ← assert (bool_decide (key_size >= 1));
  _ ← match key_seed with
      | Some s => Key_set_random_seed s
      | None => Ok tt
      end;
  w1 ← match shuffle_seed with
       | Some s => Shuffle_set_random_seed s w
       | None => Ok w
       end;
  '(alice_key, rw') ← Key.create_random_key key_size None rw;
  '(mock_classical_channel, w2) ← MockClassicalChannel alice_key w1;
  let mock_session := Session__init__ parameters mock_classical_channel in
  Ok (mock_session, alice_key, rw', w2).

End Session.

Arguments Return {_ A} log a c.
Arguments Throw {_ A} log e.
Arguments OutOfFuel {_ A} log.

(** ** What a log shows *)

Section Logs.
Context `{Collaborators}.

(** The blocks on which [correct_one_bit] was called without the event
    just before the call being a check that found the same block
    [ERRORS_ODD].  [checked] is the block of such a check when it is the
    latest event. *)
Fixpoint unchecked_calls (checked : option block) (log : list event) : list block :=
  match log with
  | [] => []
  | Ev_error_parity b Block.ERRORS_ODD :: rest => unchecked_calls (Some b) rest
  | Ev_correct_one_bit b :: rest =>
      if decide (checked = Some b) then unchecked_calls None rest
      else b :: unchecked_calls None rest
  | _ :: rest => unchecked_calls None rest
  end.

(** The value of [checked] at the end of [log]. *)
Fixpoint pending (checked : option block) (log : list event) : option block :=
  match log with
  | [] => checked
  | Ev_error_parity b Block.ERRORS_ODD :: rest => pending (Some b) rest
  | _ :: rest => pending None rest
  end.

(** All calls to [correct_one_bit], in order. *)
Fixpoint correct_one_bit_calls (log : list event) : list block :=
  match log with
  | [] => []
  | Ev_correct_one_bit b :: rest => b :: correct_one_bit_calls rest
  | _ :: rest => correct_one_bit_calls rest
  end.

(** The top-level blocks [create_covering_blocks] returned, pass after pass. *)
Fixpoint top_level_blocks (log : list event) : list block :=
  match log with
  | [] => []
  | Ev_create_covering_blocks _ blocks :: rest => blocks ++ top_level_blocks rest
  | _ :: rest => top_level_blocks rest
  end.

(** The shuffles built, pass after pass. *)
Fixpoint shuffles (log : list event) : list Shuffle.algorithm :=
  match log with
  | [] => []
  | Ev_Shuffle _ algorithm :: rest => algorithm :: shuffles rest
  | _ :: rest => shuffles rest
  end.

(** The number of passes: one partition into top-level blocks each. *)
Fixpoint passes (log : list event) : nat :=
  match log with
  | [] => 0
  | Ev_create_covering_blocks _ _ :: rest => S (passes rest)
  | _ :: rest => passes rest
  end.

Definition returns {A} (o : outcome A) : bool :=
  match o with
  | Return _ _ _ => true
  | _ => false
  end.

Definition finished {A} (o : outcome A) : Prop :=
  match o with
  | OutOfFuel _ => False
  | _ => True
  end.

(** [item] is an entry of [heap] of smallest size and [rest] is what is
    left of [heap] without it. *)
Definition pops_smallest (heap : list (Z * block)) (item : Z * block)
    (rest : list (Z * block)) : Prop :=
  item ∈ heap ∧ (∀ x, x ∈ heap → item.1 ≤ x.1) ∧ heap ≡ₚ item :: rest.

(** Draining the queue of pending error blocks, in the words of the
    specification: while the queue is not empty, pop a block of smallest
    size, recompute its error state, and call [correct_one_bit] on it
    only when that state is [ERRORS_ODD]. *)
Inductive drains : config → list event → config → Prop :=
| drains_empty c :
    _error_blocks (sess c) = [] →
    drains c [] c
| drains_skip c item rest w log c' :
    pops_smallest (_error_blocks (sess c)) item rest →
    Block_error_parity item.2 (set_error_blocks (sess c) rest) (ext c)
      = Ok (Block.ERRORS_EVEN, w) →
    drains {| sess := set_error_blocks (sess c) rest; ext := w |} log c' →
    drains c (Ev_heappop (_error_blocks (sess c)) item
              :: Ev_error_parity item.2 Block.ERRORS_EVEN :: log) c'
| drains_correct c item rest w i calls w' s log c' :
    pops_smallest (_error_blocks (sess c)) item rest →
    Block_error_parity item.2 (set_error_blocks (sess c) rest) (ext c)
      = Ok (Block.ERRORS_ODD, w) →
    Block_correct_one_bit item.2 (set_error_blocks (sess c) rest) w
      = Ok (Some i, calls, w') →
    run_callbacks (set_error_blocks (sess c) rest) calls = Ok s →
    drains {| sess := s; ext := w' |} log c' →
    drains c (Ev_heappop (_error_blocks (sess c)) item
              :: Ev_error_parity item.2 Block.ERRORS_ODD
              :: Ev_correct_one_bit item.2 :: log) c'.

(** What a finished part of a run adds to the observations of a log. *)
Record adds (log : list event) (unchecked tops : list block)
    (algorithms : list Shuffle.algorithm) : Prop := mkAdds {
  adds_unchecked : ∀ checked, pending checked log = None ∧
                              unchecked_calls None log = unchecked;
  adds_tops : top_level_blocks log = tops;
  adds_passes : passes log = length algorithms;
  adds_shuffles : shuffles log = algorithms
}.

(** The shuffle algorithm [correct_key] asks for in a given iteration. *)
Definition algorithm_of (iteration : Z) : Shuffle.algorithm :=
  if decide (iteration = 1) then Shuffle.SHUFFLE_KEEP_SAME else Shuffle.SHUFFLE_RANDOM.

(** The blocks registered under [key_index]. *)
Definition bucket (self : Session rate channel block) (key_index : Z) : list block :=
  default [] (_key_index_to_blocks self !! key_index).
End Logs.

(** ** The cascade, step by step

    What [correct_registered_error_blocks] and [correct_key] do, written
    as relations between the session and the world before, the calls
    made on the collaborators, and the way the run ends.  The steps are
    those of the specification; a run fails exactly where a call on a
    collaborator fails, or where the loop of
    [correct_registered_error_blocks] asserts that a correction
    happened. *)

Section Cascade.
Context `{Collaborators}.

(** How a part of a run ends: with the session and the world it leaves
    behind, or with an exception. *)
Inductive ending : Type :=
| Ended (c : config)
| Failed (e : exn).

(** A call of a method of a block: the method runs on the session and
    the world, and the calls it made on the session take effect. *)
Definition block_call {A : Type}
    (f : Session rate channel block → world → result (A * list (callback block) * world))
    (c : config) : result (A * config) :=
  match f (sess c) (ext c) with
  | Ok (a, calls, w) =>
      match run_callbacks (sess c) calls with
      | Ok s => Ok (a, {| sess := s; ext := w |})
      | Raise e => Raise e
      end
  | Raise e => Raise e
  end.

(** One turn of the loop of [correct_registered_error_blocks]: a block
    of smallest size is popped from the queue, its error state is
    recomputed, and [correct_one_bit] is called on it only when that
    state is [ERRORS_ODD].  The turn fails when reading the error state
    fails, when [correct_one_bit] fails, or when [correct_one_bit]
    returns [None] for a block just found [ERRORS_ODD]. *)
Inductive turn (c : config) : list event → ending → Prop :=
| turn_skip item rest w :
    pops_smallest (_error_blocks (sess c)) item rest →
    Block_error_parity item.2 (set_error_blocks (sess c) rest) (ext c)
      = Ok (Block.ERRORS_EVEN, w) →
    turn c [Ev_heappop (_error_blocks (sess c)) item;
            Ev_error_parity item.2 Block.ERRORS_EVEN]
         (Ended {| sess := set_error_blocks (sess c) rest; ext := w |})
| turn_correct item rest w i c' :
    pops_smallest (_error_blocks (sess c)) item rest →
    Block_error_parity item.2 (set_error_blocks (sess c) rest) (ext c)
      = Ok (Block.ERRORS_ODD, w) →
    block_call (Block_correct_one_bit item.2)
      {| sess := set_error_blocks (sess c) rest; ext := w |} = Ok (Some i, c') →
    turn c [Ev_heappop (_error_blocks (sess c)) item;
            Ev_error_parity item.2 Block.ERRORS_ODD;
            Ev_correct_one_bit item.2]
         (Ended c')
| turn_error_parity_fails item rest e :
    pops_smallest (_error_blocks (sess c)) item rest →
    Block_error_parity item.2 (set_error_blocks (sess c) rest) (ext c) = Raise e →
    turn c [Ev_heappop (_error_blocks (sess c)) item] (Failed e)
| turn_correct_one_bit_fails item rest w e :
    pops_smallest (_error_blocks (sess c)) item rest →
    Block_error_parity item.2 (set_error_blocks (sess c) rest) (ext c)
      = Ok (Block.ERRORS_ODD, w) →
    block_call (Block_correct_one_bit item.2)
      {| sess := set_error_blocks (sess c) rest; ext := w |} = Raise e →
    turn c [Ev_heappop (_error_blocks (sess c)) item;
            Ev_error_parity item.2 Block.ERRORS_ODD;
            Ev_correct_one_bit item.2]
         (Failed e)
| turn_nothing_corrected item rest w c' :
    pops_smallest (_error_blocks (sess c)) item rest →
    Block_error_parity item.2 (set_error_blocks (sess c) rest) (ext c)
      = Ok (Block.ERRORS_ODD, w) →
    block_call (Block_correct_one_bit item.2)
      {| sess := set_error_blocks (sess c) rest; ext := w |} = Ok (None, c') →
    turn c [Ev_heappop (_error_blocks (sess c)) item;
            Ev_error_parity item.2 Block.ERRORS_ODD;
            Ev_correct_one_bit item.2]
         (Failed AssertionError).

(** A drain that fails: turns that end well, then one that fails. *)
Inductive drain_fails : config → list event → exn → Prop :=
| drain_fails_now c log e :
    turn c log (Failed e) →
    drain_fails c log e
| drain_fails_later c log c' log' e :
    turn c log (Ended c') →
    drain_fails c' log' e →
    drain_fails c (log ++ log') e.

(** The loop over the top-level blocks of a pass: [correct_one_bit] is
    called on every block, in order and whatever its error state, and
    the queue of pending error blocks is drained after each call. *)
Inductive visits : list block → config → list event → ending → Prop :=
| visits_done c :
    visits [] c [] (Ended c)
| visits_block b rest c r c1 log1 c2 log2 o :
    block_call (Block_correct_one_bit b) c = Ok (r, c1) →
    drains c1 log1 c2 →
    visits rest c2 log2 o →
    visits (b :: rest) c (Ev_correct_one_bit b :: log1 ++ log2) o
| visits_correct_one_bit_fails b rest c e :
    block_call (Block_correct_one_bit b) c = Raise e →
    visits (b :: rest) c [Ev_correct_one_bit b] (Failed e)
| visits_drain_fails b rest c r c1 log1 e :
    block_call (Block_correct_one_bit b) c = Ok (r, c1) →
    drain_fails c1 log1 e →
    visits (b :: rest) c (Ev_correct_one_bit b :: log1) (Failed e).

(** One pass: the shuffle of the pass is built, [SHUFFLE_KEEP_SAME] in
    iteration 1 and [SHUFFLE_RANDOM] in every other, the key is split
    into top-level blocks of the size the parameters give for the
    iteration, and the blocks are visited. *)
Inductive pass (k : key) (estimated_quantum_bit_error_rate : rate) (iteration : Z)
    (c : config) : list event → ending → Prop :=
| pass_visits shuffle w blocks c1 log o :
    Shuffle_new (Key_size k (ext c)) (algorithm_of iteration) (ext c) = Ok (shuffle, w) →
    block_call
      (λ s w', Block_create_covering_blocks s k shuffle
                 (block_size_function (_parameters (sess c))
                    estimated_quantum_bit_error_rate iteration) w')
      {| sess := sess c; ext := w |} = Ok (blocks, c1) →
    visits blocks c1 log o →
    pass k estimated_quantum_bit_error_rate iteration c
      (Ev_Shuffle (Key_size k (ext c)) (algorithm_of iteration)
       :: Ev_create_covering_blocks
            (block_size_function (_parameters (sess c))
               estimated_quantum_bit_error_rate iteration) blocks
       :: log) o
| pass_Shuffle_fails e :
    Shuffle_new (Key_size k (ext c)) (algorithm_of iteration) (ext c) = Raise e →
    pass k estimated_quantum_bit_error_rate iteration c [] (Failed e)
| pass_create_covering_blocks_fails shuffle w e :
    Shuffle_new (Key_size k (ext c)) (algorithm_of iteration) (ext c) = Ok (shuffle, w) →
    block_call
      (λ s w', Block_create_covering_blocks s k shuffle
                 (block_size_function (_parameters (sess c))
                    estimated_quantum_bit_error_rate iteration) w')
      {| sess := sess c; ext := w |} = Raise e →
    pass k estimated_quantum_bit_error_rate iteration c
      [Ev_Shuffle (Key_size k (ext c)) (algorithm_of iteration)] (Failed e).

(** The passes of the given iterations, one after the other. *)
Inductive cascades (k : key) (estimated_quantum_bit_error_rate : rate)
  : list Z → config → list event → ending → Prop :=
| cascades_done c :
    cascades k estimated_quantum_bit_error_rate [] c [] (Ended c)
| cascades_pass iteration rest c log1 c1 log2 o :
    pass k estimated_quantum_bit_error_rate iteration c log1 (Ended c1) →
    cascades k estimated_quantum_bit_error_rate rest c1 log2 o →
    cascades k estimated_quantum_bit_error_rate (iteration :: rest) c (log1 ++ log2) o
| cascades_pass_fails iteration rest c log1 e :
    pass k estimated_quantum_bit_error_rate iteration c log1 (Failed e) →
    cascades k estimated_quantum_bit_error_rate (iteration :: rest) c log1 (Failed e).

(** A reconciliation: the channel is told of the start, the passes
    [1 .. nr_iterations] are made, the channel is told of the end, and
    the key reference that was passed in is handed back. *)
Inductive reconciles (k : key) (estimated_quantum_bit_error_rate : rate) (c : config)
  : outcome key → Prop :=
| reconciles_returns w1 log c2 w3 :
    start_reconciliation (_classical_channel (sess c)) (ext c) = Ok w1 →
    cascades k estimated_quantum_bit_error_rate
      (seqZ 1 (nr_iterations (_parameters (sess c))))
      {| sess := sess c; ext := w1 |} log (Ended c2) →
    end_reconciliation (_classical_channel (sess c)) (ext c2) = Ok w3 →
    reconciles k estimated_quantum_bit_error_rate c
      (Return (Ev_start_reconciliation :: log ++ [Ev_end_reconciliation]) k
         {| sess := sess c2; ext := w3 |})
| reconciles_start_fails e :
    start_reconciliation (_classical_channel (sess c)) (ext c) = Raise e →
    reconciles k estimated_quantum_bit_error_rate c (Throw [] e)
| reconciles_pass_fails w1 log e :
    start_reconciliation (_classical_channel (sess c)) (ext c) = Ok w1 →
    cascades k estimated_quantum_bit_error_rate
      (seqZ 1 (nr_iterations (_parameters (sess c))))
      {| sess := sess c; ext := w1 |} log (Failed e) →
    reconciles k estimated_quantum_bit_error_rate c
      (Throw (Ev_start_reconciliation :: log) e)
| reconciles_end_fails w1 log c2 e :
    start_reconciliation (_classical_channel (sess c)) (ext c) = Ok w1 →
    cascades k estimated_quantum_bit_error_rate
      (seqZ 1 (nr_iterations (_parameters (sess c))))
      {| sess := sess c; ext := w1 |} log (Ended c2) →
    end_reconciliation (_classical_channel (sess c)) (ext c2) = Raise e →
    reconciles k estimated_quantum_bit_error_rate c
      (Throw (Ev_start_reconciliation :: log) e).

(** The way a run has ended, for a run that has. *)
Definition ends {A : Type} (o : outcome A) (R : list event → ending → Prop) : Prop :=
  match o with
  | Return log _ c' => R log (Ended c')
  | Throw log e => R log (Failed e)
  | OutOfFuel _ => True
  end.

(** No call on a collaborator adds errors to the key: [errors] counts
    the errors left in the key of a world. *)
Record harmless (errors : world → nat) : Prop := mkHarmless {
  harmless_start_reconciliation :
    ∀ ch w w', start_reconciliation ch w = Ok w' → (errors w' ≤ errors w)%nat;
  harmless_end_reconciliation :
    ∀ ch w w', end_reconciliation ch w = Ok w' → (errors w' ≤ errors w)%nat;
  harmless_Shuffle :
    ∀ size algorithm w sh w',
      Shuffle_new size algorithm w = Ok (sh, w') → (errors w' ≤ errors w)%nat;
  harmless_create_covering_blocks :
    ∀ s k sh block_size w blocks calls w',
      Block_create_covering_blocks s k sh block_size w = Ok (blocks, calls, w') →
      (errors w' ≤ errors w)%nat;
  harmless_correct_one_bit :
    ∀ b s w r calls w',
      Block_correct_one_bit b s w = Ok (r, calls, w') → (errors w' ≤ errors w)%nat
}.
End Cascade.

(** ** Concrete inputs

    A small linear congruential generator stands in for [random.Random]
    when the model is run, and keys are written as lists of bits. *)

#[global] Instance Lcg : RandomGen Z := {|
  Random_seed := λ seed, seed mod 2147483648;
  randbelow := λ n g,
    let g' := (1103515245 * g + 12345) mod 2147483648 in
    (Z.to_nat (g' mod Z.of_nat n), g')
|}.

Definition idle_world (seed : Z) : RandomWorld Z :=
  mkRandomWorld (Random_seed seed) (λ n, Z.of_nat n) 0.

(** The key whose bit at position [i] is [bits[i]]. *)
Definition key_of_bits (bits : list Z) : Key.Key :=
  {| Key._size := Z.of_nat (length bits); Key._bits := map_seqZ 0 bits |}.

(** ** A mock world

    The collaborators are not part of the two source files; to run the
    session on concrete inputs they are modelled here after the
    specification, with Alice's key held by a mock classical channel. *)

Module Mock.

(** Modelled from the spec: [IndexShuffle] (shuffle.py is not among the
    sources): a bijection from shuffled position to original key index,
    the identity or a permutation drawn from a generator.  [shuffle_id]
    tells the shuffle objects of different passes apart. *)
Record shuffle : Type := mkShuffle {
  shuffle_id : nat;
  to_original : list Z
}.
#[global] Instance shuffle_eq_dec : EqDecision shuffle.
Proof. solve_decision. Defined.

(** Modelled from the spec: [Block] (block.py is not among the sources):
    a range [[start, end)] of shuffled positions, top-level when it
    comes from the partition of a pass. *)
Record block : Type := mkBlock {
  block_shuffle : shuffle;
  start_index : Z;
  end_index : Z;
  is_top_block : bool
}.
#[global] Instance block_eq_dec : EqDecision block.
Proof. solve_decision. Defined.

(** The one key under reconciliation. *)
Inductive key : Type := Bob_key.

(** Bob's key, Alice's key behind the mock channel, the generator of
    the shuffles, the number of shuffles built and the blocks that have
    been split into sub-blocks. *)
Record world : Type := mkWorld {
  bob : Key.Key;
  alice : Key.Key;
  shuffle_random : Z;
  shuffles_built : nat;
  split_blocks : list block
}.

Definition session : Type := Session Z unit block.

Definition size (b : block) : Z := end_index b - start_index b.

(** Modelled from the spec: [covered_original_indices], the shuffle
    applied to every shuffled position of the range. *)
Definition key_indexes (b : block) : list Z :=
  omap (λ position, to_original (block_shuffle b) !! Z.to_nat position)
       (seqZ (start_index b) (size b)).

(** Modelled from the spec: the parity of a key over a set of indexes. *)
Fixpoint key_parity (k : Key.Key) (indexes : list Z) : result bool :=
  match indexes with
  | [] => Ok false
  | i :: rest =>
      bit ← Key.get_bit k i;
      parity ← key_parity k rest;
      Ok (xorb (Z.odd bit) parity)
  end.

(** Modelled from the spec: [error_state], Bob's parity over the block
    XOR the reference parity of the channel.  The reference parity is a
    function of Alice's key, which does not change, so asking again
    gives the cached answer. *)
Definition odd_errors (b : block) (w : world) : result bool :=
  current ← key_parity (bob w) (key_indexes b);
  correct ← key_parity (alice w) (key_indexes b);
  Ok (xorb current correct).

Definition error_parity (b : block) (s : session) (w : world)
  : result (Block.error_parity * world) :=
  odd ← odd_errors b w;
  Ok (if odd : bool then Block.ERRORS_ODD else Block.ERRORS_EVEN, w).

Definition set_bob (w : world) (k : Key.Key) : world :=
  {| bob := k; alice := alice w; shuffle_random := shuffle_random w;
     shuffles_built := shuffles_built w; split_blocks := split_blocks w |}.

(** Modelled from the spec: [notify_bit_flip], every other block that
    covers the flipped index and is now [ODD] is registered as an error
    block. *)
Fixpoint notify_bit_flip (flipped : block) (blocks : list block) (w : world)
  : result (list (callback block)) :=
  match blocks with
  | [] => Ok []
  | b :: rest =>
      calls ← notify_bit_flip flipped rest w;
      if decide (b = flipped) then Ok calls
      else odd ← odd_errors b w;
           Ok (if odd : bool then Call_register_error_block b :: calls else calls)
  end.

(** Modelled from the spec: step 2 of [correct_one_bit], the split of a
    block into a first half of [ceil(size/2)] positions and the rest. *)
Definition left_child (b : block) : block :=
  {| block_shuffle := block_shuffle b; start_index := start_index b;
     end_index := start_index b + (size b + 1) / 2; is_top_block := false |}.
Definition right_child (b : block) : block :=
  {| block_shuffle := block_shuffle b; start_index := start_index b + (size b + 1) / 2;
     end_index := end_index b; is_top_block := false |}.

(** The sub-blocks are created, and registered with the session, the
    first time a block is split. *)
Definition split (b : block) (w : world) : list (callback block) * world :=
  if decide (b ∈ split_blocks w) then ([], w)
  else ([Call_register_block (left_child b); Call_register_block (right_child b)],
        {| bob := bob w; alice := alice w; shuffle_random := shuffle_random w;
           shuffles_built := shuffles_built w; split_blocks := b :: split_blocks w |}).

(** Modelled from the spec: steps 1 and 2 of [correct_one_bit] on a block
    known to be [ODD].  The error parity of the right half is derived
    from the parity of the left half.  [fuel] bounds the depth of the
    bisection. *)
Fixpoint bisect (fuel : nat) (b : block) (s : session) (w : world)
    (calls : list (callback block)) : result (option Z * list (callback block) * world) :=
  match fuel with
  | O => Raise AssertionError
  | S fuel' =>
      if decide (size b = 1) then
        match key_indexes b with
        | [key_index] =>
            flipped ← Key.flip_bit (bob w) key_index;
            let w' := set_bob w flipped in
            notified ← notify_bit_flip b (default [] (_key_index_to_blocks s !! key_index)) w';
            Ok (Some (start_index b), calls ++ notified, w')
        | _ => Raise IndexError
        end
      else
        let '(registered, w') := split b w in
        odd_left ← odd_errors (left_child b) w';
        bisect fuel' (if odd_left : bool then left_child b else right_child b)
               s w' (calls ++ registered)
  end.

(** Modelled from the spec: [correct_one_bit].  On a block with an even
    number of errors it does nothing and returns [None], as the comment
    in [correct_key] expects. *)
Definition correct_one_bit (b : block) (s : session) (w : world)
  : result (option Z * list (callback block) * world) :=
  odd ← odd_errors b w;
  if odd : bool then bisect (Z.to_nat (size b)) b s w []
  else Ok (None, [], w).

(** Modelled from the spec: [create_covering_blocks], consecutive ranges
    of [block_size] positions, the last one possibly shorter, each a
    top-level block registered with the session. *)
Definition create_covering_blocks (s : session) (k : key) (sh : shuffle)
    (block_size : Z) (w : world) : result (list block * list (callback block) * world) :=
  _ ← assert (bool_decide (block_size >= 1));
  let shuffle_size := Z.of_nat (length (to_original sh)) in
  let nr_blocks := (shuffle_size + block_size - 1) / block_size in
  let blocks :=
    (λ j, {| block_shuffle := sh; start_index := j * block_size;
             end_index := Z.min ((j + 1) * block_size) shuffle_size;
             is_top_block := true |}) <$> seqZ 0 nr_blocks in
  Ok (blocks, Call_register_block <$> blocks, w).

(** Modelled from the spec: [IndexShuffle.identity] and
    [IndexShuffle.random]. *)
Definition Shuffle_new (shuffle_size : Z) (algorithm : Shuffle.algorithm) (w : world)
  : result (shuffle * world) :=
  '(permutation, g) ←
    match algorithm with
    | Shuffle.SHUFFLE_KEEP_SAME => Ok (seqZ 0 shuffle_size, shuffle_random w)
    | Shuffle.SHUFFLE_RANDOM =>
        sample_from (seqZ 0 shuffle_size) (Z.to_nat shuffle_size) (shuffle_random w)
    end;
  Ok ({| shuffle_id := shuffles_built w; to_original := permutation |},
      {| bob := bob w; alice := alice w; shuffle_random := g;
         shuffles_built := S (shuffles_built w); split_blocks := split_blocks w |}).

Definition Shuffle_set_random_seed (seed : Z) (w : world) : result world :=
  Ok {| bob := bob w; alice := alice w; shuffle_random := Random_seed seed;
        shuffles_built := shuffles_built w; split_blocks := split_blocks w |}.

(** Modelled from the spec: the mock channel answers from Alice's key. *)
Definition MockClassicalChannel (alice_key : Key.Key) (w : world) : result (unit * world) :=
  Ok (tt, {| bob := bob w; alice := alice_key; shuffle_random := shuffle_random w;
             shuffles_built := shuffles_built w; split_blocks := split_blocks w |}).

#[global] Instance collaborators : Collaborators :=
  Build_Collaborators
    Z unit block shuffle key world block_eq_dec
    size is_top_block key_indexes
    (λ b1 b2, bool_decide (start_index b1 < start_index b2))
    error_parity correct_one_bit create_covering_blocks
    Shuffle_new Shuffle_set_random_seed
    (λ _ w, Key.size (bob w))
    MockClassicalChannel
    (λ _ w, Ok w) (λ _ w, Ok w).

(** The number of positions where Bob's bit and Alice's bit differ. *)
Definition bit_parity (k : Key.Key) (i : Z) : option bool := Z.odd <$> Key._bits k !! i.

Definition errors (w : world) : nat :=
  length (filter (λ i, bit_parity (bob w) i ≠ bit_parity (alice w) i)
                 (seqZ 0 (Key._size (bob w)))).

(** A session on the original parameters of the protocol reduced to
    their shape: [nr_iterations] passes with blocks of [block_size]
    doubling every pass. *)
Definition parameters (nr_iterations block_size : Z) (sub_block_reuse : bool)
  : Parameters Z :=
  {| nr_iterations := nr_iterations;
     block_size_function := λ _ iteration, block_size * 2 ^ (iteration - 1);
     sub_block_reuse := sub_block_reuse |}.

Definition start (bob_bits alice_bits : list Z) (p : Parameters Z) : config :=
  {| sess := Session__init__ p tt;
     ext := {| bob := key_of_bits bob_bits; alice := key_of_bits alice_bits;
               shuffle_random := 1; shuffles_built := 0; split_blocks := [] |} |}.

End Mock.

(** Concrete sessions of the mock world. *)
Module Inputs.
Import Mock.

(** One pass over one-bit keys that agree. *)
Definition agreeing : config := start [0] [0] (parameters 1 1 false).

Definition agreeing_block : block :=
  {| block_shuffle := {| shuffle_id := 0; to_original := [0] |};
     start_index := 0; end_index := 1; is_top_block := true |}.

(** Two passes over eight-bit keys that differ at indexes 0 and 1: the
    two errors hide each other in the first pass. *)
Definition cascading : config :=
  start [1; 1; 0; 0; 1; 0; 1; 0] [0; 0; 0; 0; 1; 0; 1; 0] (parameters 2 2 false).

(** A block over two positions, queued as an error block of a session
    whose key has one error in it. *)
Definition pair_block : block :=
  {| block_shuffle := {| shuffle_id := 0; to_original := [0; 1] |};
     start_index := 0; end_index := 2; is_top_block := true |}.

Definition empty_session : Session Z unit block :=
  Session__init__ (parameters 1 2 false) tt.

Definition queued : config :=
  {| sess := register_error_block empty_session pair_block;
     ext := ext (start [1; 0] [0; 0] (parameters 1 2 false)) |}.
End Inputs.

(** ** More observations *)

Section Observations.
Context `{Collaborators}.

(** The block sizes handed to [create_covering_blocks], pass after pass. *)
Fixpoint block_sizes (log : list event) : list Z :=
  match log with
  | [] => []
  | Ev_create_covering_blocks block_size _ :: rest => block_size :: block_sizes rest
  | _ :: rest => block_sizes rest
  end.

(** The top-level blocks of the latest pass in a log ([latest] when the
    log starts no pass). *)
Fixpoint last_pass_blocks (latest : list block) (log : list event) : list block :=
  match log with
  | [] => latest
  | Ev_create_covering_blocks _ blocks :: rest => last_pass_blocks blocks rest
  | _ :: rest => last_pass_blocks latest rest
  end.

(** The events of the work on blocks: queue pops, parity reads and
    corrections. *)
Definition block_event (e : event) : Prop :=
  match e with
  | Ev_heappop _ _ | Ev_error_parity _ _ | Ev_correct_one_bit _ => True
  | _ => False
  end.

(** The two calls that bracket a reconciliation on the channel. *)
Definition channel_event (e : event) : Prop :=
  match e with
  | Ev_start_reconciliation | Ev_end_reconciliation => True
  | _ => False
  end.

(** No bucket lists a block twice, and a bucket only lists blocks that
    cover its key index. *)
Definition registry_ok (self : Session rate channel block) : Prop :=
  ∀ k, NoDup (bucket self k) ∧ ∀ b, b ∈ bucket self k → k ∈ Block_key_indexes b.
End Observations.

(** A collaborator that breaks its contract: every block reads
    [ERRORS_ODD] and [correct_one_bit] finds nothing to correct.  A block
    is just its size.  It reaches the assertion in the loop of
    [correct_registered_error_blocks]. *)
Module Faulty.
Definition collaborators : Collaborators :=
  Build_Collaborators
    unit unit Z unit unit unit Z.eq_dec
    (λ b, b) (λ _, true) (λ _, []) Z.ltb
    (λ _ _ w, Ok (Block.ERRORS_ODD, w))
    (λ _ _ w, Ok (None, [], w))
    (λ _ _ _ _ w, Ok ([], [], w))
    (λ _ _ w, Ok (tt, w)) (λ _ w, Ok w)
    (λ _ _, 0)
    (λ _ w, Ok (tt, w))
    (λ _ w, Ok w) (λ _ w, Ok w).

Definition session : Session unit unit Z :=
  @mkSession unit unit Z tt (@mkParameters unit 1 (λ _ _, 1) true) ∅ [(3, 3)].

Definition queued : @config collaborators := @mkConfig collaborators session tt.
End Faulty.

(** More concrete sessions of the mock world. *)
Module MoreInputs.
Import Mock.

(** A block over a shuffle that is no bijection: it covers index 0 twice. *)
Definition twisted_block : block :=
  {| block_shuffle := {| shuffle_id := 0; to_original := [0; 0] |};
     start_index := 0; end_index := 2; is_top_block := true |}.

(** A session configured for no pass at all. *)
Definition idle : config := start [1; 0] [0; 0] (parameters 0 1 false).
End MoreInputs.

(** * Properties of key.py *)

Lemma bind_Ok {A B} (m : result A) (f : A → result B) (b : B) :
  m ≫= f = Ok b ↔ ∃ a, m = Ok a ∧ f a = Ok b.
Proof.
  destruct m as [a|e]; simpl; split.
  - eauto.
  - by intros (a' & [= <-] & ?).
  - done.
  - by intros (a' & ? & ?).
Qed.

Lemma assert_true (c : bool) : c = true → assert c = Ok tt.
Proof. by intros ->. Qed.

Section SampleFacts.
Context {G : Type} `{RandomGenLaws G}.

Lemma delete_not_elem_of (pool : list Z) (j : nat) (x : Z) :
  NoDup pool → pool !! j = Some x → x ∉ delete j pool.
Proof.
  intros Hnd Hj.
  rewrite <- (take_drop_middle pool j x Hj) in Hnd.
  rewrite delete_take_drop.
  apply NoDup_app in Hnd as (_ & Hdisj & Hnd).
  apply NoDup_cons in Hnd as [Hx _].
  rewrite elem_of_app. intros [Hin | Hin]; [|done].
  by apply (Hdisj x Hin), list_elem_of_here.
Qed.

Lemma sample_from_spec (k : nat) :
  ∀ (pool : list Z) (g : G),
    NoDup pool → (k ≤ length pool)%nat →
    ∃ l g', sample_from pool k g = Ok (l, g') ∧
            NoDup l ∧ length l = k ∧ l ⊆ pool.
Proof.
  induction k as [|k IH]; intros pool g Hnd Hlen; simpl.
  - exists [], g. repeat split; [constructor | set_solver].
  - pose proof (randbelow_lt (length pool) g ltac:(lia)) as Hlt.
    destruct (randbelow (length pool) g) as [j g1]; simpl in Hlt.
    destruct (lookup_lt_is_Some_2 pool j Hlt) as [x Hx]. rewrite Hx.
    destruct (IH (delete j pool) g1) as (l & g2 & -> & Hl & Hk & Hsub).
    { eapply sublist_NoDup; [exact Hnd | apply sublist_delete]. }
    { rewrite length_delete by eauto. lia. }
    exists (x :: l), g2; simpl. split; [done|].
    assert (delete j pool ⊆ pool) as Hdel.
    { intros y Hy. eapply elem_of_sublist; [exact Hy | apply sublist_delete]. }
    repeat split.
    + apply NoDup_cons. split; [|done].
      intros Hin. by apply (delete_not_elem_of pool j x Hnd Hx), Hsub.
    + by rewrite Hk.
    + intros y [->|Hy]%elem_of_cons.
      * by eapply list_elem_of_lookup_2.
      * by apply Hdel, Hsub.
Qed.

Lemma sample_spec (population : list Z) (k : Z) (w : RandomWorld G) :
  NoDup population → 0 ≤ k ≤ Z.of_nat (length population) →
  ∃ l w', sample population k w = Ok (l, w') ∧
          NoDup l ∧ Z.of_nat (length l) = k ∧ l ⊆ population.
Proof.
  intros Hnd Hk. unfold sample, sample_with.
  rewrite decide_True by done.
  destruct (sample_from_spec (Z.to_nat k) population (global_inst w) Hnd ltac:(lia))
    as (l & g' & -> & ? & ? & ?); simpl.
  eexists _, _. split; [done|]. repeat split; [done | lia | done].
Qed.
End SampleFacts.

Module KeyFacts.
Import Key.

Lemma keys_NoDup (bits : gmap Z Z) : NoDup (keys bits).
Proof. apply NoDup_fst_map_to_list. Qed.

Lemma elem_of_keys (bits : gmap Z Z) (i : Z) : i ∈ keys bits ↔ is_Some (bits !! i).
Proof.
  unfold keys. rewrite list_elem_of_fmap. split.
  - intros ([i' v] & -> & Hin). apply elem_of_map_to_list in Hin. eauto.
  - intros [v Hv]. exists (i, v). split; [done|]. by apply elem_of_map_to_list.
Qed.

Lemma length_keys (k : Key) :
  well_formed k → 0 ≤ _size k → Z.of_nat (length (keys (_bits k))) = _size k.
Proof.
  intros Hwf Hsz.
  assert (keys (_bits k) ≡ₚ seqZ 0 (_size k)) as ->.
  { apply NoDup_Permutation; [apply keys_NoDup | apply NoDup_seqZ |].
    intros i. rewrite elem_of_keys, elem_of_seqZ, (Hwf i). lia. }
  rewrite length_seqZ. lia.
Qed.

(** The positions where two dictionaries differ, among [indexes]. *)
Definition differing (a b : gmap Z Z) (indexes : list Z) : list Z :=
  filter (λ i, a !! i ≠ b !! i) indexes.

Lemma count_differences_defined (indexes : list Z) (a b : gmap Z Z) :
  ∀ d, (∀ i, i ∈ indexes → is_Some (a !! i) ∧ is_Some (b !! i)) →
       count_differences indexes a b d
       = Ok (d + Z.of_nat (length (differing a b indexes))).
Proof.
  induction indexes as [|i rest IH]; intros d Hdef; simpl.
  - f_equal. lia.
  - destruct (Hdef i) as [[x Hx] [y Hy]]; [apply list_elem_of_here|].
    unfold getitem. rewrite Hx, Hy; simpl.
    rewrite IH by (intros; apply Hdef; by apply list_elem_of_further).
    unfold differing. rewrite filter_cons, Hx, Hy.
    case_bool_decide as Hxy; case_decide as Hd; simpl;
      solve [f_equal; lia | congruence | destruct Hd; congruence].
Qed.

Lemma difference_defined (a b : Key) :
  well_formed a → well_formed b → _size a = _size b →
  difference a b
  = Ok (Z.of_nat (length (differing (_bits a) (_bits b) (seqZ 0 (_size a))))).
Proof.
  intros Ha Hb Hsz. unfold difference.
  rewrite assert_true by (by apply bool_decide_eq_true); simpl.
  rewrite count_differences_defined; [done|].
  intros i Hi%elem_of_seqZ. split; [apply Ha | apply Hb]; lia.
Qed.

Lemma differing_sym (a b : gmap Z Z) (indexes : list Z) :
  differing a b indexes = differing b a indexes.
Proof.
  unfold differing. apply list_filter_iff. intros i. split; congruence.
Qed.

Lemma differing_nil (a b : gmap Z Z) (indexes : list Z) :
  differing a b indexes = [] ↔ ∀ i, i ∈ indexes → a !! i = b !! i.
Proof.
  unfold differing. induction indexes as [|j rest IH].
  - split; [intros _ i Hi; by apply elem_of_nil in Hi | done].
  - rewrite filter_cons. destruct (decide (a !! j ≠ b !! j)) as [Hne|Heq].
    + split; [done|]. intros Hall. destruct Hne. apply Hall, list_elem_of_here.
    + rewrite IH. apply dec_stable in Heq. split.
      * intros Hall i [->|Hi]%elem_of_cons; auto.
      * intros Hall i Hi. by apply Hall, list_elem_of_further.
Qed.

End KeyFacts.

Module CopyFacts.
Import Key KeyFacts.

Lemma apply_noise_lookup (bits_to_flip : list Z) :
  ∀ bits : gmap Z Z,
    NoDup bits_to_flip →
    (∀ i, i ∈ bits_to_flip → is_Some (bits !! i)) →
    ∃ bits', apply_noise bits_to_flip bits = Ok bits' ∧
             ∀ i, bits' !! i = if decide (i ∈ bits_to_flip)
                               then (λ v, 1 - v) <$> bits !! i
                               else bits !! i.
Proof.
  induction bits_to_flip as [|j rest IH]; intros bits Hnd Hdef; cbn [apply_noise].
  - exists bits. split; [done|]. intros i. by rewrite decide_False by set_solver.
  - apply NoDup_cons in Hnd as [Hj Hnd].
    destruct (Hdef j) as [v Hv]; [set_solver|].
    unfold flip_in, getitem. rewrite Hv; cbn [mbind result_bind].
    destruct (IH (<[j := 1 - v]> bits) Hnd) as (bits' & -> & Hlook).
    { intros i Hi. rewrite lookup_insert_ne by set_solver. apply Hdef. set_solver. }
    exists bits'. split; [done|]. intros i. rewrite Hlook.
    destruct (decide (i = j)) as [->|Hne].
    + rewrite (decide_False (P := j ∈ rest)) by done.
      rewrite (decide_True (P := j ∈ j :: rest)) by set_solver.
      by rewrite lookup_insert_eq, Hv.
    + rewrite lookup_insert_ne by done.
      destruct (decide (i ∈ rest)).
      * by rewrite decide_True by (by apply list_elem_of_further).
      * rewrite decide_False; [done|]. by intros [?|?]%elem_of_cons.
Qed.

Lemma differing_after_noise (bits bits' : gmap Z Z) (flipped indexes : list Z) :
  NoDup flipped → NoDup indexes → flipped ⊆ indexes →
  (∀ i, i ∈ flipped → is_Some (bits !! i)) →
  (∀ i, bits' !! i = if decide (i ∈ flipped)
                     then (λ v, 1 - v) <$> bits !! i else bits !! i) →
  length (differing bits bits' indexes) = length flipped.
Proof.
  intros Hnd Hnd' Hsub Hdef Hlook.
  apply Permutation_length, NoDup_Permutation; [by apply NoDup_filter | done |].
  intros i. unfold differing. rewrite list_elem_of_filter, Hlook. split.
  - intros [Hne _]. by destruct (decide (i ∈ flipped)).
  - intros Hi. rewrite decide_True by done. split; [|by apply Hsub].
    destruct (Hdef i Hi) as [v ->]; simpl. intros [= ?]. lia.
Qed.

Section WithRandom.
Context {G : Type} `{RandomGenLaws G}.

Lemma copy_spec (self : Key) (error_count : Z) (w : RandomWorld G) :
  well_formed self → 0 ≤ error_count ≤ _size self →
  ∃ bits' w',
    copy self error_count w
    = Ok ({| returned := self;
             receiver := {| _size := _size self; _bits := bits' |} |}, w') ∧
    well_formed {| _size := _size self; _bits := bits' |} ∧
    Z.of_nat (length (differing (_bits self) bits' (seqZ 0 (_size self))))
    = error_count.
Proof.
  intros Hwf Hn. unfold copy.
  rewrite assert_true by (by apply bool_decide_eq_true); simpl.
  destruct (sample_spec (keys (_bits self)) error_count w)
    as (l & w' & -> & Hnd & Hlen & Hsub); simpl.
  { apply keys_NoDup. }
  { rewrite length_keys by (done || lia). done. }
  assert (∀ i, i ∈ l → is_Some (_bits self !! i)) as Hdef.
  { intros i Hi. by apply elem_of_keys, Hsub. }
  destruct (apply_noise_lookup l (_bits self) Hnd Hdef) as (bits' & -> & Hlook); simpl.
  exists bits', w'. split; [by destruct self|]. split.
  - intros i; simpl. rewrite Hlook, <- (Hwf i).
    destruct (decide (i ∈ l)); [|done]. by rewrite fmap_is_Some.
  - rewrite <- Hlen. f_equal.
    apply differing_after_noise; [done | apply NoDup_seqZ | | done | done].
    intros i Hi. apply elem_of_seqZ. apply Hdef, Hwf in Hi. lia.
Qed.
End WithRandom.
End CopyFacts.

#[global] Instance Lcg_laws : RandomGenLaws Z.
Proof.
  constructor. intros n g Hn; simpl.
  pose proof (Z.mod_pos_bound ((1103515245 * g + 12345) mod 2147483648) (Z.of_nat n)).
  lia.
Qed.

Lemma key_of_bits_well_formed (bits : list Z) : Key.well_formed (key_of_bits bits).
Proof.
  intros i; simpl. rewrite lookup_map_seqZ_is_Some. lia.
Qed.

Module KeyClaims.
Import Key KeyFacts CopyFacts.

Section WithRandom.
Context {G : Type} `{RandomGenLaws G}.

(** C1.  [Key.copy] does not put the noise into the key it returns: for
    a well-formed key and a valid [error_count], the returned key is
    bit-for-bit the key as it was at the call (Hamming distance 0), and
    the [error_count] flips are found in the receiver instead, so that
    the distance between the two keys after the call is [error_count]. *)
Theorem copy_returns_unflipped_key (self : Key) (error_count : Z) (w : RandomWorld G) :
  well_formed self → 0 ≤ error_count ≤ _size self →
  ∃ c w', copy self error_count w = Ok (c, w') ∧
          returned c = self ∧
          difference (returned c) self = Ok 0 ∧
          difference (returned c) (receiver c) = Ok error_count.
Proof.
  intros Hwf Hn.
  destruct (copy_spec self error_count w Hwf Hn) as (bits' & w' & -> & Hwf' & Hd).
  eexists _, _. split; [done|]; simpl. split; [done|]. split.
  - rewrite difference_defined by done.
    by rewrite (proj2 (differing_nil _ _ _)).
  - rewrite difference_defined by done. simpl. by rewrite Hd.
Qed.

(** C2.  [Key.copy] changes the key it is called on: for a well-formed
    key and a valid [error_count], the receiver keeps its size but
    differs from its state before the call in exactly [error_count]
    positions, so it is changed whenever [error_count] is positive. *)
Theorem copy_flips_receiver (self : Key) (error_count : Z) (w : RandomWorld G) :
  well_formed self → 0 ≤ error_count ≤ _size self →
  ∃ c w', copy self error_count w = Ok (c, w') ∧
          _size (receiver c) = _size self ∧
          difference self (receiver c) = Ok error_count ∧
          (0 < error_count → receiver c ≠ self).
Proof.
  intros Hwf Hn.
  destruct (copy_spec self error_count w Hwf Hn) as (bits' & w' & -> & Hwf' & Hd).
  eexists _, _. split; [done|]; simpl. split; [done|].
  assert (difference self {| _size := _size self; _bits := bits' |} = Ok error_count)
    as Hdiff by (rewrite difference_defined by done; simpl; by rewrite Hd).
  split; [done|]. intros Hpos Heq. rewrite Heq in Hdiff.
  rewrite difference_defined in Hdiff by done.
  rewrite (proj2 (differing_nil _ _ _)) in Hdiff by done.
  simpl in Hdiff. injection Hdiff. lia.
Qed.
End WithRandom.

Section CreateRandom.
Context {G : Type} `{RandomGen G}.

Lemma fill_random_total (indexes : list Z) :
  ∀ (bits : gmap Z Z) (g : G), ∃ bits' g', fill_random indexes bits g = Ok (bits', g').
Proof.
  induction indexes as [|i rest IH]; intros bits g; simpl; [eauto|].
  unfold randint. rewrite decide_False by lia.
  destruct (randbelow _ g) as [r g']; simpl. apply IH.
Qed.

(** C8.  [Key.create_random_key] with an explicit seed is a function of
    its arguments: whatever the hidden state of the [random] module,
    two calls with the same non-negative size and the same seed return
    the same key, and neither call touches the hidden state. *)
Theorem create_random_key_reproducible (size seed : Z) (w1 w2 : RandomWorld G) :
  0 ≤ size →
  ∃ k, create_random_key size (Some seed) w1 = Ok (k, w1) ∧
       create_random_key size (Some seed) w2 = Ok (k, w2) ∧
       _size k = size.
Proof.
  intros Hsz. unfold create_random_key.
  rewrite assert_true by (apply bool_decide_eq_true; lia); simpl.
  destruct (fill_random_total (seqZ 0 size) ∅ (Random_seed seed)) as (bits & g & ->).
  simpl. eauto.
Qed.
End CreateRandom.

(** C9.  [Key.difference] on well-formed keys: with equal sizes it returns
    the same count in both directions, and the count is zero exactly when
    the keys hold the same bit at every position; with different sizes it
    fails its assertion. *)
Theorem difference_symmetric (a b : Key) :
  well_formed a → well_formed b →
  (_size a = _size b →
   ∃ d, difference a b = Ok d ∧ difference b a = Ok d ∧
        (d = 0 ↔ ∀ i, 0 ≤ i < _size a → _bits a !! i = _bits b !! i)) ∧
  (_size a ≠ _size b → difference a b = Raise AssertionError).
Proof.
  intros Ha Hb. split.
  - intros Hsz. eexists. split; [by apply difference_defined|]. split.
    + rewrite difference_defined by done. by rewrite <- Hsz, differing_sym.
    + assert (∀ n : nat, Z.of_nat n = 0 ↔ n = 0%nat) as -> by lia.
      rewrite length_zero_iff_nil, differing_nil.
      setoid_rewrite elem_of_seqZ. split; intros Hall i Hi; apply Hall; lia.
  - intros Hsz. unfold difference. by rewrite bool_decide_eq_false_2.
Qed.

End KeyClaims.

Module KeyWitnesses.
Import Key KeyClaims.

(** [Key.copy(1)] on the one-bit key [0]: the key returned is [0], and
    the key the method was called on has become [1]. *)
Example copy_one_bit :
  fst <$> copy (key_of_bits [0]) 1 (idle_world 7)
  = Ok {| returned := key_of_bits [0]; receiver := key_of_bits [1] |}.
Proof. vm_compute. reflexivity. Qed.

Lemma copy_returns_unflipped_key_witness :
  well_formed (key_of_bits [0]) ∧ 0 ≤ 1 ≤ _size (key_of_bits [0]) ∧
  ∃ c w', copy (key_of_bits [0]) 1 (idle_world 7) = Ok (c, w') ∧
          returned c = key_of_bits [0] ∧
          difference (returned c) (key_of_bits [0]) = Ok 0 ∧
          difference (returned c) (receiver c) = Ok 1.
Proof.
  split; [apply key_of_bits_well_formed|]. split; [simpl; lia|].
  apply (copy_returns_unflipped_key (key_of_bits [0]) 1 (idle_world 7)).
  - apply key_of_bits_well_formed.
  - simpl; lia.
Defined.

Lemma copy_flips_receiver_witness :
  well_formed (key_of_bits [0; 1; 1]) ∧ 0 ≤ 2 ≤ _size (key_of_bits [0; 1; 1]) ∧
  ∃ c w', copy (key_of_bits [0; 1; 1]) 2 (idle_world 7) = Ok (c, w') ∧
          _size (receiver c) = _size (key_of_bits [0; 1; 1]) ∧
          difference (key_of_bits [0; 1; 1]) (receiver c) = Ok 2 ∧
          (0 < 2 → receiver c ≠ key_of_bits [0; 1; 1]).
Proof.
  split; [apply key_of_bits_well_formed|]. split; [simpl; lia|].
  apply (copy_flips_receiver (key_of_bits [0; 1; 1]) 2 (idle_world 7)).
  - apply key_of_bits_well_formed.
  - simpl; lia.
Defined.

Lemma create_random_key_reproducible_witness :
  0 ≤ 8 ∧
  ∃ k, create_random_key 8 (Some 42) (idle_world 1) = Ok (k, idle_world 1) ∧
       create_random_key 8 (Some 42) (idle_world 2) = Ok (k, idle_world 2) ∧
       _size k = 8.
Proof.
  split; [lia|].
  apply (create_random_key_reproducible 8 42 (idle_world 1) (idle_world 2)). lia.
Defined.

Lemma difference_symmetric_witness :
  well_formed (key_of_bits [1; 0; 1]) ∧ well_formed (key_of_bits [1; 1; 0]) ∧
  (_size (key_of_bits [1; 0; 1]) = _size (key_of_bits [1; 1; 0]) →
   ∃ d, difference (key_of_bits [1; 0; 1]) (key_of_bits [1; 1; 0]) = Ok d ∧
        difference (key_of_bits [1; 1; 0]) (key_of_bits [1; 0; 1]) = Ok d ∧
        (d = 0 ↔ ∀ i, 0 ≤ i < _size (key_of_bits [1; 0; 1]) →
                      _bits (key_of_bits [1; 0; 1]) !! i = _bits (key_of_bits [1; 1; 0]) !! i)) ∧
  (_size (key_of_bits [1; 0; 1]) ≠ _size (key_of_bits [1; 1; 0]) →
   difference (key_of_bits [1; 0; 1]) (key_of_bits [1; 1; 0]) = Raise AssertionError).
Proof.
  split; [apply key_of_bits_well_formed|]. split; [apply key_of_bits_well_formed|].
  apply (difference_symmetric (key_of_bits [1; 0; 1]) (key_of_bits [1; 1; 0]));
    apply key_of_bits_well_formed.
Defined.

Example difference_two_bits :
  difference (key_of_bits [1; 0; 1]) (key_of_bits [1; 1; 0]) = Ok 2.
Proof. vm_compute. reflexivity. Qed.

Example difference_unequal_sizes :
  difference (key_of_bits [1; 0; 1]) (key_of_bits [1; 0]) = Raise AssertionError.
Proof. vm_compute. reflexivity. Qed.

End KeyWitnesses.

(** * Properties of session.py *)

Section RegistryFacts.
Context `{Collaborators}.

Lemma filter_absent (b : block) (blocks : list block) :
  b ∉ blocks → filter (λ x, x = b) blocks = [].
Proof.
  induction blocks as [|x rest IH]; intros Hb; [done|].
  apply not_elem_of_cons in Hb as [Hne Hb].
  rewrite filter_cons_False by congruence. by apply IH.
Qed.

Lemma register_block_loop_Ok (b : block) (key_indexes : list Z) :
  ∀ m : gmap Z (list block),
    NoDup key_indexes →
    (∀ k, k ∈ key_indexes → b ∉ default [] (m !! k)) →
    ∃ m', register_block_loop b key_indexes m = Ok m' ∧
          ∀ k, m' !! k = if decide (k ∈ key_indexes)
                         then Some (default [] (m !! k) ++ [b])
                         else m !! k.
Proof.
  induction key_indexes as [|j rest IH]; intros m Hnd Hfresh; cbn [register_block_loop].
  - exists m. split; [done|]. intros k. rewrite decide_False; [done|apply not_elem_of_nil].
  - apply NoDup_cons in Hnd as [Hj Hnd].
    pose proof (Hfresh j (list_elem_of_here _ _)) as Hbj.
    set (m1 := <[j := default [] (m !! j) ++ [b]]> m).
    assert (∃ m', register_block_loop b rest m1 = Ok m' ∧
                  ∀ k, m' !! k = if decide (k ∈ rest)
                                 then Some (default [] (m1 !! k) ++ [b])
                                 else m1 !! k) as (m' & Hrun & Hlook).
    { apply IH; [done|]. intros k Hk. unfold m1.
      rewrite lookup_insert_ne by (by intros ->).
      by apply Hfresh, list_elem_of_further. }
    exists m'. split.
    + destruct (m !! j) as [blocks|] eqn:Hmj; simpl in *.
      * by rewrite assert_true by (by apply bool_decide_eq_true).
      * done.
    + intros k. rewrite Hlook. unfold m1.
      destruct (decide (k = j)) as [->|Hne].
      * rewrite (decide_False (P := j ∈ rest)) by done.
        rewrite (decide_True (P := j ∈ j :: rest)) by apply list_elem_of_here.
        by rewrite lookup_insert_eq.
      * rewrite lookup_insert_ne by done.
        destruct (decide (k ∈ rest)).
        -- by rewrite decide_True by (by apply list_elem_of_further).
        -- rewrite decide_False; [done|]. by intros [?|?]%elem_of_cons.
Qed.

Lemma register_block_loop_present (b : block) (key_indexes : list Z) :
  ∀ (m : gmap Z (list block)) (k : Z),
    k ∈ key_indexes → b ∈ default [] (m !! k) →
    register_block_loop b key_indexes m = Raise AssertionError.
Proof.
  induction key_indexes as [|j rest IH]; intros m k Hk Hb; cbn [register_block_loop].
  - by apply elem_of_nil in Hk.
  - destruct (decide (k = j)) as [->|Hne].
    + destruct (m !! j) as [blocks|]; simpl in Hb.
      * by rewrite bool_decide_eq_false_2 by (by intros ?).
      * by apply elem_of_nil in Hb.
    + apply elem_of_cons in Hk as [?|Hk]; [done|].
      destruct (m !! j) as [blocks|].
      * destruct (decide (b ∈ blocks)).
        -- by rewrite bool_decide_eq_false_2 by (by intros ?).
        -- rewrite assert_true by (by apply bool_decide_eq_true). simpl.
           apply (IH _ k); [done|]. by rewrite lookup_insert_ne.
      * apply (IH _ k); [done|]. by rewrite lookup_insert_ne.
Qed.

Lemma register_block_loop_repeated (b : block) (key_indexes : list Z) :
  ∀ m : gmap Z (list block),
    ¬ NoDup key_indexes → register_block_loop b key_indexes m = Raise AssertionError.
Proof.
  induction key_indexes as [|j rest IH]; intros m Hdup; cbn [register_block_loop].
  - destruct Hdup. constructor.
  - destruct (decide (j ∈ rest)) as [Hj|Hj].
    + assert (∀ m1 : gmap Z (list block), b ∈ default [] (m1 !! j) →
                register_block_loop b rest m1 = Raise AssertionError) as Hfail.
      { intros m1 ?. by apply (register_block_loop_present b rest m1 j). }
      destruct (m !! j) as [blocks|].
      * unfold assert. case_bool_decide; [|done]. simpl. apply Hfail.
        rewrite lookup_insert_eq. simpl. set_solver.
      * apply Hfail. rewrite lookup_insert_eq. simpl. set_solver.
    + assert (¬ NoDup rest) as Hrest.
      { intros Hnd. apply Hdup. by apply NoDup_cons. }
      destruct (m !! j) as [blocks|]; [|by apply IH].
      unfold assert. case_bool_decide; [|done]. by apply IH.
Qed.

(** C5.  [register_block(b)], for a block whose key indexes are pairwise
    distinct: when [b] is in none of the buckets of the indexes it
    covers, the call succeeds, appends [b] at the end of each of those
    buckets, where it then occurs exactly once, and leaves every other
    bucket and the rest of the session as they were; when [b] is already
    in the bucket of one of the indexes it covers, the call fails with an
    assertion error. *)
Theorem register_block_once (self : Session rate channel block) (b : block) :
  NoDup (Block_key_indexes b) →
  ((∀ k, k ∈ Block_key_indexes b → b ∉ bucket self k) →
   ∃ self', register_block self b = Ok self' ∧
     (∀ k, k ∈ Block_key_indexes b →
           bucket self' k = bucket self k ++ [b] ∧
           length (filter (λ x, x = b) (bucket self' k)) = 1%nat) ∧
     (∀ k, k ∉ Block_key_indexes b →
           _key_index_to_blocks self' !! k = _key_index_to_blocks self !! k) ∧
     _error_blocks self' = _error_blocks self ∧
     _parameters self' = _parameters self ∧
     _classical_channel self' = _classical_channel self) ∧
  (∀ k, k ∈ Block_key_indexes b → b ∈ bucket self k →
        register_block self b = Raise AssertionError).
Proof.
  intros Hnd. split.
  - intros Hfresh. unfold register_block.
    destruct (register_block_loop_Ok b (Block_key_indexes b)
                (_key_index_to_blocks self) Hnd Hfresh) as (m' & -> & Hlook).
    eexists. split; [done|]. simpl. split; [|split; [|done]].
    + intros k Hk. unfold bucket; simpl. rewrite Hlook, decide_True by done. simpl.
      split; [done|]. rewrite filter_app, length_app.
      rewrite filter_absent by (by apply Hfresh).
      by rewrite filter_cons_True by done.
    + intros k Hk. by rewrite Hlook, decide_False.
  - intros k Hk Hb. unfold register_block.
    by rewrite (register_block_loop_present b _ _ k Hk Hb).
Qed.

(** C7.  [register_error_block(b)]: with sub-block reuse disabled and [b]
    not a top-level block the session is left as it was; otherwise the
    entry [(b.size, b)] is pushed on the queue of pending error blocks
    and nothing else changes.  The call never fails, so a block can be
    registered again: the queue then holds its entry twice. *)
Theorem register_error_block_eligible (self : Session rate channel block) (b : block) :
  (sub_block_reuse (_parameters self) = false → Block_is_top_block b = false →
   register_error_block self b = self) ∧
  (sub_block_reuse (_parameters self) = true ∨ Block_is_top_block b = true →
   register_error_block self b
     = set_error_blocks self (heappush (_error_blocks self) (Block_size b, b)) ∧
   _error_blocks (register_error_block (register_error_block self b) b)
     = _error_blocks self ++ [(Block_size b, b); (Block_size b, b)]).
Proof.
  unfold register_error_block, heappush. split.
  - by intros -> ->.
  - intros Hel.
    assert (negb (sub_block_reuse (_parameters self)) && negb (Block_is_top_block b)
            = false) as Hguard by (destruct Hel as [-> | ->]; by rewrite ?andb_false_r).
    rewrite Hguard. simpl. rewrite Hguard. simpl. by rewrite <- app_assoc.
Qed.
End RegistryFacts.

Section HeapFacts.
Context `{Collaborators}.

Lemma entry_lt_le (x y : Z * block) :
  (entry_lt x y = true → x.1 ≤ y.1) ∧ (entry_lt x y = false → y.1 ≤ x.1).
Proof.
  unfold entry_lt. destruct (decide (x.1 = y.1)) as [->|Hne].
  - split; lia.
  - case_bool_decide; split; intros; (done || lia).
Qed.

Lemma smallest_spec (heap : list (Z * block)) :
  ∀ candidate,
    smallest candidate heap ∈ candidate :: heap ∧
    ∀ x, x ∈ candidate :: heap → (smallest candidate heap).1 ≤ x.1.
Proof.
  induction heap as [|item rest IH]; intros candidate; simpl.
  - split; [apply list_elem_of_here|]. intros x ->%list_elem_of_singleton. lia.
  - destruct (IH (if entry_lt item candidate then item else candidate)) as [Hin Hmin].
    pose proof (entry_lt_le item candidate) as [Hlt Hge].
    split.
    + apply elem_of_cons in Hin as [->|Hin].
      * destruct (entry_lt item candidate);
          [apply list_elem_of_further, list_elem_of_here | apply list_elem_of_here].
      * by do 2 apply list_elem_of_further.
    + intros x Hx.
      assert ((smallest (if entry_lt item candidate then item else candidate) rest).1
              ≤ (if entry_lt item candidate then item else candidate).1) as Hc
        by apply Hmin, list_elem_of_here.
      apply elem_of_cons in Hx as [->|[->|Hx]%elem_of_cons].
      * destruct (entry_lt item candidate); [specialize (Hlt eq_refl)|]; lia.
      * destruct (entry_lt item candidate); [|specialize (Hge eq_refl)]; lia.
      * by apply Hmin, list_elem_of_further.
Qed.

Lemma remove_first_Permutation (item : Z * block) (heap : list (Z * block)) :
  item ∈ heap → heap ≡ₚ item :: remove_first item heap.
Proof.
  induction heap as [|x rest IH]; intros Hin; simpl.
  - by apply elem_of_nil in Hin.
  - destruct (decide (x = item)) as [->|Hne]; [done|].
    apply elem_of_cons in Hin as [?|Hin]; [congruence|].
    rewrite (IH Hin) at 1. apply Permutation_swap.
Qed.

Lemma heappop_pops_smallest (heap : list (Z * block)) item rest :
  heappop heap = Some (item, rest) → pops_smallest heap item rest.
Proof.
  destruct heap as [|x heap]; [done|]. intros [= <- <-].
  destruct (smallest_spec heap x) as [Hin Hmin].
  split; [done|]. split; [done|]. by apply remove_first_Permutation.
Qed.

Lemma heappop_None (heap : list (Z * block)) : heappop heap = None ↔ heap = [].
Proof. by destruct heap. Qed.

Lemma heappop_length (heap : list (Z * block)) item rest :
  heappop heap = Some (item, rest) → length heap = S (length rest).
Proof.
  intros (_ & _ & Hperm)%heappop_pops_smallest. by rewrite Hperm.
Qed.
End HeapFacts.

Section DrainFacts.
Context `{Collaborators}.

(** What one iteration of the loop does, case by case. *)
Lemma correct_popped_unfold heap item rest (c : config) :
  let s := set_error_blocks (sess c) rest in
  correct_popped heap item rest c =
  match Block_error_parity item.2 s (ext c) with
  | Raise e => Throw [Ev_heappop heap item] e
  | Ok (Block.ERRORS_EVEN, w) =>
      Return [Ev_heappop heap item; Ev_error_parity item.2 Block.ERRORS_EVEN] tt
        {| sess := s; ext := w |}
  | Ok (Block.ERRORS_ODD, w) =>
      let log := [Ev_heappop heap item; Ev_error_parity item.2 Block.ERRORS_ODD;
                  Ev_correct_one_bit item.2] in
      match Block_correct_one_bit item.2 s w with
      | Raise e => Throw log e
      | Ok (r, calls, w') =>
          match run_callbacks s calls with
          | Raise e => Throw log e
          | Ok s' =>
              match r with
              | Some _ => Return log tt {| sess := s'; ext := w' |}
              | None => Throw log AssertionError
              end
          end
      end
  end.
Proof.
  unfold correct_popped, M_bind, error_parity, correct_one_bit, on_world, on_block,
    M_assert, M_ret; simpl.
  destruct (Block_error_parity _ _ _) as [[[] w]|e]; simpl; [done| |done].
  destruct (Block_correct_one_bit _ _ _) as [[[r calls] w']|e]; simpl; [|done].
  destruct (run_callbacks _ _) as [s'|e]; simpl; [|done].
  by destruct r.
Qed.

Lemma correct_registered_error_blocks_unfold fuel (c : config) :
  correct_registered_error_blocks fuel c =
  match heappop (_error_blocks (sess c)) with
  | None => Return [] tt c
  | Some (item, rest) =>
      match fuel with
      | O => OutOfFuel []
      | S fuel' =>
          M_bind (correct_popped (_error_blocks (sess c)) item rest)
            (λ _, correct_registered_error_blocks fuel') c
      end
  end.
Proof. by destruct fuel. Qed.

(** The loop, as far as it runs, follows the specification's words. *)
Lemma correct_registered_error_blocks_drains fuel :
  ∀ (c : config) log c',
    correct_registered_error_blocks fuel c = Return log tt c' → drains c log c'.
Proof.
  induction fuel as [|fuel IH]; intros c log c';
    rewrite correct_registered_error_blocks_unfold;
    destruct (heappop _) as [[item rest]|] eqn:Hpop.
  - done.
  - intros [= <- <-]. by apply drains_empty, heappop_None.
  - apply heappop_pops_smallest in Hpop. unfold M_bind.
    rewrite correct_popped_unfold. cbv zeta.
    destruct (Block_error_parity _ _ _) as [[[] w]|e] eqn:Hpar; [| |done].
    + destruct (correct_registered_error_blocks fuel _) as [log1 [] c1| |] eqn:Hrun;
        [|done|done].
      intros [= <- <-]. simpl. eapply drains_skip; eauto.
    + destruct (Block_correct_one_bit _ _ _) as [[[r calls] w']|e] eqn:Hcor; [|done].
      destruct (run_callbacks _ _) as [s'|e] eqn:Hcb; [|done].
      destruct r as [i|]; [|done].
      destruct (correct_registered_error_blocks fuel _) as [log1 [] c1| |] eqn:Hrun;
        [|done|done].
      intros [= <- <-]. simpl. eapply drains_correct; eauto.
  - intros [= <- <-]. by apply drains_empty, heappop_None.
Qed.

Lemma drains_queue_empty (c : config) log c' :
  drains c log c' → _error_blocks (sess c') = [].
Proof. induction 1; auto. Qed.

(** Every call the loop makes is checked, however the run ends. *)
Lemma correct_registered_error_blocks_checked fuel :
  ∀ (c : config) checked,
    unchecked_calls checked (events (correct_registered_error_blocks fuel c)) = [].
Proof.
  induction fuel as [|fuel IH]; intros c checked;
    rewrite correct_registered_error_blocks_unfold;
    destruct (heappop _) as [[item rest]|] eqn:Hpop; try done.
  unfold M_bind. rewrite correct_popped_unfold. cbv zeta.
  destruct (Block_error_parity _ _ _) as [[[] w]|e] eqn:Hpar; [| |done].
  - specialize (IH {| sess := set_error_blocks (sess c) rest; ext := w |} None).
    destruct (correct_registered_error_blocks fuel _); simpl in *; done.
  - destruct (Block_correct_one_bit _ _ _) as [[[r calls] w']|e] eqn:Hcor;
      [|simpl; by rewrite decide_True].
    destruct (run_callbacks _ _) as [s'|e] eqn:Hcb; [|simpl; by rewrite decide_True].
    destruct r as [i|]; [|simpl; by rewrite decide_True].
    specialize (IH {| sess := s'; ext := w' |} None).
    destruct (correct_registered_error_blocks fuel _); simpl in *;
      by rewrite decide_True.
Qed.
End DrainFacts.

(** ** Fuel *)

Section FuelFacts.
Context `{Collaborators}.

(** Once a run finishes with some fuel, more fuel does not change it. *)
Definition stable {A} (m : nat → M A) : Prop :=
  ∀ fuel c, finished (m fuel c) →
            ∀ fuel', (fuel ≤ fuel')%nat → m fuel' c = m fuel c.

Definition terminating {A} (m : nat → M A) : Prop :=
  ∀ c, ∃ fuel, finished (m fuel c).

Lemma finished_bind {A B} (m : M A) (f : A → M B) (c : config) :
  finished (M_bind m f c) ↔
  match m c with
  | Return _ a c' => finished (f a c')
  | Throw _ _ => True
  | OutOfFuel _ => False
  end.
Proof.
  unfold M_bind. destruct (m c) as [log a c'| |]; [|done|done].
  by destruct (f a c').
Qed.

Lemma stable_const {A} (m : M A) : stable (λ _, m).
Proof. by intros fuel c _ fuel' _. Qed.

Lemma stable_bind {A B} (m : nat → M A) (f : nat → A → M B) :
  stable m → (∀ a, stable (λ fuel, f fuel a)) →
  stable (λ fuel, M_bind (m fuel) (f fuel)).
Proof.
  intros Hm Hf fuel c Hfin fuel' Hle.
  apply finished_bind in Hfin. unfold M_bind.
  destruct (m fuel c) as [log a c'| |] eqn:Hrun; [| |done].
  - rewrite (Hm fuel c) by (by rewrite ?Hrun). rewrite Hrun.
    by rewrite (Hf a fuel c' Hfin fuel' Hle).
  - rewrite (Hm fuel c) by (by rewrite ?Hrun). by rewrite Hrun.
Qed.

Lemma terminating_const {A} (m : M A) :
  (∀ c, finished (m c)) → terminating (λ _, m).
Proof. intros Hm c. by exists 0%nat. Qed.

Lemma terminating_bind {A B} (m : nat → M A) (f : nat → A → M B) :
  stable m → (∀ a, stable (λ fuel, f fuel a)) →
  terminating m → (∀ a, terminating (λ fuel, f fuel a)) →
  terminating (λ fuel, M_bind (m fuel) (f fuel)).
Proof.
  intros Sm Sf Tm Tf c. destruct (Tm c) as [f1 Hf1].
  destruct (m f1 c) as [log a c'| |] eqn:Hrun; [| |done].
  - destruct (Tf a c') as [f2 Hf2]. exists (f1 `max` f2)%nat.
    apply finished_bind.
    rewrite (Sm f1 c) by (rewrite ?Hrun; done || lia). rewrite Hrun.
    rewrite (Sf a f2 c') by (done || lia). done.
  - exists f1. apply finished_bind. by rewrite Hrun.
Qed.

Lemma finished_on_world {A} (f : world → result (A * world)) log (c : config) :
  finished (on_world f log c).
Proof. unfold on_world. by destruct (f _) as [[]|]. Qed.

Lemma finished_on_block {A}
    (f : Session rate channel block → world → result (A * list (callback block) * world))
    called returned (c : config) :
  finished (on_block f called returned c).
Proof.
  unfold on_block. destruct (f _ _) as [[[] ?]|]; [|done].
  by destruct (run_callbacks _ _).
Qed.

Lemma stable_correct_registered_error_blocks :
  stable correct_registered_error_blocks.
Proof.
  intros fuel. induction fuel as [|fuel IH]; intros c Hfin fuel' Hle;
    rewrite !(correct_registered_error_blocks_unfold _ c) in *;
    destruct (heappop _) as [[item rest]|]; try done.
  destruct fuel' as [|fuel']; [lia|].
  apply finished_bind in Hfin. unfold M_bind.
  destruct (correct_popped _ _ _ c) as [log [] c'| |]; [|done|done].
  by rewrite (IH c' Hfin fuel') by lia.
Qed.

Lemma stable_visit_blocks (blocks : list block) :
  stable (λ fuel, visit_blocks fuel blocks).
Proof.
  induction blocks as [|b rest IH]; [exact (stable_const (M_ret tt))|].
  cbn [visit_blocks].
  apply (stable_bind (λ _, correct_one_bit b)
           (λ fuel _, M_bind (correct_registered_error_blocks fuel)
                        (λ _, visit_blocks fuel rest))); [apply stable_const|].
  intros _.
  apply (stable_bind correct_registered_error_blocks (λ fuel _, visit_blocks fuel rest));
    [apply stable_correct_registered_error_blocks | by intros _].
Qed.

Lemma stable_cascade_iteration k rate iteration :
  stable (λ fuel, cascade_iteration fuel k rate iteration).
Proof.
  intros fuel c Hfin fuel' Hle. unfold cascade_iteration in *. cbv zeta in *.
  match goal with
  | |- M_bind ?m (λ shuffle, M_bind (@?n shuffle) _) c = _ =>
      apply (stable_bind (λ _, m)
               (λ fuel shuffle, M_bind (n shuffle) (λ blocks, visit_blocks fuel blocks))
               (stable_const _)) with (fuel := fuel); [|done|done]
  end.
  intros shuffle.
  match goal with
  | |- stable (λ fuel, M_bind ?n _) =>
      apply (stable_bind (λ _, n) (λ fuel blocks, visit_blocks fuel blocks)
               (stable_const _))
  end.
  apply stable_visit_blocks.
Qed.

Lemma stable_cascade_iterations k rate (iterations : list Z) :
  stable (λ fuel, cascade_iterations fuel k rate iterations).
Proof.
  induction iterations as [|iteration rest IH]; [exact (stable_const (M_ret tt))|].
  cbn [cascade_iterations].
  apply (stable_bind (λ fuel, cascade_iteration fuel k rate iteration)
           (λ fuel _, cascade_iterations fuel k rate rest));
    [apply stable_cascade_iteration | by intros _].
Qed.
End FuelFacts.

(** ** Termination of the cascade

    The loop of [correct_registered_error_blocks] ends when the
    collaborators make progress: reading a block's error parity never adds
    errors, and a call of [correct_one_bit] that returns a position removes
    at least one. *)

Section Progress.
Context `{Collaborators}.
Variable errors : world → nat.
Hypothesis error_parity_keeps :
  ∀ b s w parity w',
    Block_error_parity b s w = Ok (parity, w') → (errors w' ≤ errors w)%nat.
Hypothesis correct_one_bit_corrects :
  ∀ b s w i calls w',
    Block_correct_one_bit b s w = Ok (Some i, calls, w') → (errors w' < errors w)%nat.

Lemma drain_terminates_bounded (n : nat) :
  ∀ (len : nat) (c : config),
    (errors (ext c) ≤ n)%nat → (length (_error_blocks (sess c)) ≤ len)%nat →
    ∃ fuel, finished (correct_registered_error_blocks fuel c).
Proof.
  induction n as [n IHn] using lt_wf_ind.
  induction len as [len IHlen] using lt_wf_ind. intros c Herr Hlen.
  destruct (heappop (_error_blocks (sess c))) as [[item rest]|] eqn:Hpop.
  2:{ exists 0%nat. rewrite correct_registered_error_blocks_unfold. by rewrite Hpop. }
  pose proof (heappop_length _ _ _ Hpop) as Hlen'.
  assert (∀ log e, correct_popped (_error_blocks (sess c)) item rest c = Throw log e →
                   ∃ fuel, finished (correct_registered_error_blocks fuel c)) as Hthrow.
  { intros log e Hrun. exists 1%nat.
    rewrite correct_registered_error_blocks_unfold, Hpop.
    apply finished_bind. by rewrite Hrun. }
  assert (∀ log c', correct_popped (_error_blocks (sess c)) item rest c = Return log tt c' →
                    (∃ fuel, finished (correct_registered_error_blocks fuel c')) →
                    ∃ fuel, finished (correct_registered_error_blocks fuel c)) as Hstep.
  { intros log c' Hrun [fuel Hfin]. exists (S fuel).
    rewrite correct_registered_error_blocks_unfold, Hpop.
    apply finished_bind. by rewrite Hrun. }
  pose proof (correct_popped_unfold (_error_blocks (sess c)) item rest c) as Hunf.
  cbv zeta in Hunf.
  destruct (Block_error_parity _ _ _) as [[[] w]|e] eqn:Hpar; [| |by eapply Hthrow].
  - eapply Hstep; [exact Hunf|].
    apply error_parity_keeps in Hpar.
    apply (IHlen (length rest)); simpl; lia.
  - apply error_parity_keeps in Hpar.
    destruct (Block_correct_one_bit _ _ _) as [[[r calls] w']|e] eqn:Hcor;
      [|by eapply Hthrow].
    destruct (run_callbacks _ _) as [s'|e]; [|by eapply Hthrow].
    destruct r as [i|]; [|by eapply Hthrow].
    apply correct_one_bit_corrects in Hcor.
    eapply Hstep; [exact Hunf|].
    apply (IHn (errors w') ltac:(lia) (length (_error_blocks s'))); simpl; lia.
Qed.

Lemma terminating_correct_registered_error_blocks :
  terminating correct_registered_error_blocks.
Proof. intros c. by eapply drain_terminates_bounded. Qed.

Lemma terminating_visit_blocks (blocks : list block) :
  terminating (λ fuel, visit_blocks fuel blocks).
Proof.
  induction blocks as [|b rest IH]; [by apply (terminating_const (M_ret tt))|].
  cbn [visit_blocks].
  apply (terminating_bind (λ _, correct_one_bit b)
           (λ fuel _, M_bind (correct_registered_error_blocks fuel)
                        (λ _, visit_blocks fuel rest))).
  - apply stable_const.
  - intros _.
    apply (stable_bind correct_registered_error_blocks (λ fuel _, visit_blocks fuel rest));
      [apply stable_correct_registered_error_blocks | intros _; apply stable_visit_blocks].
  - apply terminating_const, finished_on_block.
  - intros _.
    apply (terminating_bind correct_registered_error_blocks
             (λ fuel _, visit_blocks fuel rest)).
    + apply stable_correct_registered_error_blocks.
    + intros _. apply stable_visit_blocks.
    + apply terminating_correct_registered_error_blocks.
    + by intros _.
Qed.

Lemma terminating_cascade_iteration k rate iteration :
  terminating (λ fuel, cascade_iteration fuel k rate iteration).
Proof.
  intros c. unfold cascade_iteration. cbv zeta.
  match goal with
  | |- ∃ fuel, finished (M_bind ?m (λ shuffle, M_bind (@?n shuffle) _) c) =>
      apply (terminating_bind (λ _, m)
               (λ fuel shuffle, M_bind (n shuffle) (λ blocks, visit_blocks fuel blocks)))
  end.
  - apply stable_const.
  - intros shuffle.
    match goal with
    | |- stable (λ fuel, M_bind ?n _) =>
        apply (stable_bind (λ _, n) (λ fuel blocks, visit_blocks fuel blocks)
                 (stable_const _))
    end.
    apply stable_visit_blocks.
  - apply terminating_const. intros c'. apply finished_on_world.
  - intros shuffle.
    match goal with
    | |- terminating (λ fuel, M_bind ?n _) =>
        apply (terminating_bind (λ _, n) (λ fuel blocks, visit_blocks fuel blocks)
                 (stable_const _))
    end.
    + apply stable_visit_blocks.
    + apply terminating_const. intros c'. apply finished_on_block.
    + apply terminating_visit_blocks.
Qed.

Lemma terminating_cascade_iterations k rate (iterations : list Z) :
  terminating (λ fuel, cascade_iterations fuel k rate iterations).
Proof.
  induction iterations as [|iteration rest IH];
    [by apply (terminating_const (M_ret tt))|].
  cbn [cascade_iterations].
  apply (terminating_bind (λ fuel, cascade_iteration fuel k rate iteration)
           (λ fuel _, cascade_iterations fuel k rate rest)).
  - apply stable_cascade_iteration.
  - intros _. apply stable_cascade_iterations.
  - apply terminating_cascade_iteration.
  - by intros _.
Qed.

Lemma terminating_correct_key k rate :
  terminating (λ fuel, correct_key fuel k rate).
Proof.
  intros c. unfold correct_key. cbv zeta.
  match goal with
  | |- ∃ fuel, finished (M_bind ?m (λ _, M_bind _ (λ _, M_bind ?n ?r)) c) =>
      apply (terminating_bind (λ _, m)
               (λ fuel _, M_bind (cascade_iterations fuel k rate
                                    (seqZ 1 (nr_iterations (_parameters (sess c)))))
                            (λ _, M_bind n r)));
      [apply stable_const | intros _ | | intros _];
      [ | | apply (terminating_bind
                     (λ fuel, cascade_iterations fuel k rate
                                (seqZ 1 (nr_iterations (_parameters (sess c)))))
                     (λ _ _, M_bind n r)) ]
  end.
  - apply (stable_bind (λ fuel, cascade_iterations fuel k rate _) (λ _ _, M_bind _ _));
      [apply stable_cascade_iterations | intros _; apply stable_const].
  - apply terminating_const. intros c'. apply finished_on_world.
  - apply stable_cascade_iterations.
  - intros _. apply stable_const.
  - apply terminating_cascade_iterations.
  - intros _. apply terminating_const. intros c'. apply finished_bind.
    unfold on_world. by destruct (_ <$> _) as [[]|].
Qed.
End Progress.

(** ** The shape of the logs *)

Section LogFacts.
Context `{Collaborators}.

Lemma bind_Return {A B} (m : M A) (f : A → M B) (c : config) log b c'' :
  M_bind m f c = Return log b c'' →
  ∃ log1 a c' log2,
    m c = Return log1 a c' ∧ f a c' = Return log2 b c'' ∧ log = log1 ++ log2.
Proof.
  unfold M_bind. destruct (m c) as [log1 a c'| |]; [|done|done].
  destruct (f a c') as [log2 b' c2| |] eqn:Hf; [|done|done].
  intros [= <- <- <-]. eauto 10.
Qed.

Lemma on_world_Return {A} (f : world → result (A * world)) log (c : config) l a c' :
  on_world f log c = Return l a c' → l = log a.
Proof. unfold on_world. destruct (f _) as [[]|]; [|done]. by intros [= <- <- <-]. Qed.

Lemma on_block_Return {A}
    (f : Session rate channel block → world → result (A * list (callback block) * world))
    called returned (c : config) l a c' :
  on_block f called returned c = Return l a c' → l = called ++ returned a.
Proof.
  unfold on_block. destruct (f _ _) as [[[] ?]|]; [|done].
  destruct (run_callbacks _ _); [|done]. by intros [= <- <- <-].
Qed.

Lemma unchecked_calls_app (l1 l2 : list event) :
  ∀ checked,
    unchecked_calls checked (l1 ++ l2)
    = unchecked_calls checked l1 ++ unchecked_calls (pending checked l1) l2.
Proof.
  induction l1 as [|e l1 IH]; intros checked; [done|].
  destruct e as [| | | | |b []|b]; simpl; try apply IH.
  destruct (decide (checked = Some b)); simpl; by rewrite IH.
Qed.

Lemma pending_app (l1 l2 : list event) :
  ∀ checked, pending checked (l1 ++ l2) = pending (pending checked l1) l2.
Proof.
  induction l1 as [|e l1 IH]; intros checked; [done|].
  destruct e as [| | | | |b []|b]; simpl; apply IH.
Qed.

Lemma top_level_blocks_app (l1 l2 : list event) :
  top_level_blocks (l1 ++ l2) = top_level_blocks l1 ++ top_level_blocks l2.
Proof.
  induction l1 as [|e l1 IH]; [done|].
  destruct e; simpl; rewrite ?IH; try done. by rewrite app_assoc.
Qed.

Lemma passes_app (l1 l2 : list event) :
  passes (l1 ++ l2) = (passes l1 + passes l2)%nat.
Proof. induction l1 as [|e l1 IH]; [done|]. destruct e; simpl; by rewrite ?IH. Qed.

Lemma shuffles_app (l1 l2 : list event) :
  shuffles (l1 ++ l2) = shuffles l1 ++ shuffles l2.
Proof. induction l1 as [|e l1 IH]; [done|]. destruct e; simpl; by rewrite ?IH. Qed.

Lemma drains_adds (c : config) log c' :
  drains c log c' → log = [] ∨ adds log [] [] [].
Proof.
  induction 1 as [| c item rest w log c' _ _ _ IH
                  | c item rest w i calls w' s log c' _ _ _ _ _ IH]; [by left|..];
    right.
  - destruct IH as [->|[Hu ? ? ?]]; split; simpl; try done;
      intros _; apply (Hu None).
  - destruct IH as [->|[Hu ? ? ?]]; split; simpl; try done;
      intros _; rewrite decide_True by done; try done; apply (Hu None).
Qed.

Lemma visit_blocks_adds fuel (blocks : list block) :
  ∀ (c : config) log c',
    visit_blocks fuel blocks c = Return log tt c' →
    match blocks with [] => log = [] | _ => adds log blocks [] [] end.
Proof.
  induction blocks as [|b rest IH]; intros c log c' Hrun; cbn [visit_blocks] in Hrun.
  - by injection Hrun as <- <-.
  - apply bind_Return in Hrun as (l1 & r & c1 & l23 & Hcall & Hrun & ->).
    apply on_block_Return in Hcall as ->.
    apply bind_Return in Hrun as (l2 & [] & c2 & l3 & Hdrain & Hrest & ->).
    apply correct_registered_error_blocks_drains, drains_adds in Hdrain.
    apply IH in Hrest.
    assert (adds l3 rest [] [] ∨ (l3 = [] ∧ rest = [])) as Hl3
      by (destruct rest; [right | left]; done).
    clear IH Hrest. simpl.
    assert (∀ l, l = [] ∨ adds l [] [] [] →
                 pending None l = None ∧ unchecked_calls None l = [] ∧
                 top_level_blocks l = [] ∧ passes l = 0%nat ∧ shuffles l = []) as Hquiet.
    { intros l [->|[Hu ? ? ?]]; [done|]. destruct (Hu None). done. }
    destruct (Hquiet l2 Hdrain) as (Hp2 & Hu2 & Ht2 & Hn2 & Hs2).
    assert (pending None l3 = None ∧ unchecked_calls None l3 = rest ∧
            top_level_blocks l3 = [] ∧ passes l3 = 0%nat ∧ shuffles l3 = [])
      as (Hp3 & Hu3 & Ht3 & Hn3 & Hs3).
    { destruct Hl3 as [[Hu ? ? ?]|[-> ->]]; [|done]. destruct (Hu None). done. }
    split; simpl.
    + intros _. rewrite pending_app, unchecked_calls_app, Hp2, Hp3, Hu2, Hu3. done.
    + by rewrite top_level_blocks_app, Ht2, Ht3.
    + by rewrite passes_app, Hn2, Hn3.
    + by rewrite shuffles_app, Hs2, Hs3.
Qed.

Lemma cascade_iteration_adds fuel k rate iteration (c : config) log c' :
  cascade_iteration fuel k rate iteration c = Return log tt c' →
  ∃ blocks, adds log blocks blocks [algorithm_of iteration].
Proof.
  unfold cascade_iteration. cbv zeta. intros Hrun.
  apply bind_Return in Hrun as (l1 & shuffle & c1 & l23 & Hshuffle & Hrun & ->).
  apply on_world_Return in Hshuffle as ->.
  apply bind_Return in Hrun as (l2 & blocks & c2 & l3 & Hcover & Hvisit & ->).
  apply on_block_Return in Hcover as ->.
  apply visit_blocks_adds in Hvisit.
  exists blocks. destruct blocks as [|b rest].
  - subst l3. split; simpl; done.
  - destruct Hvisit as [Hu Ht Hn Hs]. destruct (Hu None) as [Hp Hun].
    split; simpl; rewrite ?Ht, ?Hn, ?Hs, ?app_nil_r; try done.
Qed.

Lemma cascade_iterations_adds fuel k rate (iterations : list Z) :
  ∀ (c : config) log c',
    cascade_iterations fuel k rate iterations c = Return log tt c' →
    pending None log = None ∧
    unchecked_calls None log = top_level_blocks log ∧
    passes log = length iterations ∧
    shuffles log = algorithm_of <$> iterations.
Proof.
  induction iterations as [|iteration rest IH]; intros c log c' Hrun;
    cbn [cascade_iterations] in Hrun.
  - by injection Hrun as <- <-.
  - apply bind_Return in Hrun as (l1 & [] & c1 & l2 & Hfirst & Hrest & ->).
    apply cascade_iteration_adds in Hfirst as (blocks & [Hu Ht Hn Hs]).
    destruct (Hu None) as [Hp Hun].
    apply IH in Hrest as (Hp' & Hu' & Hn' & Hs').
    rewrite pending_app, unchecked_calls_app, top_level_blocks_app, passes_app,
      shuffles_app, Hp, Hp', Hun, Hu', Ht, Hn, Hn', Hs, Hs'. done.
Qed.

Lemma correct_key_adds fuel k rate (c : config) log k' c' :
  correct_key fuel k rate c = Return log k' c' →
  k' = k ∧
  unchecked_calls None log = top_level_blocks log ∧
  passes log = Z.to_nat (nr_iterations (_parameters (sess c))) ∧
  shuffles log = algorithm_of <$> seqZ 1 (nr_iterations (_parameters (sess c))).
Proof.
  unfold correct_key. cbv zeta. intros Hrun.
  apply bind_Return in Hrun as (l1 & [] & c1 & l234 & Hstart & Hrun & ->).
  apply on_world_Return in Hstart as ->.
  apply bind_Return in Hrun as (l2 & [] & c2 & l34 & Hpasses & Hrun & ->).
  apply bind_Return in Hrun as (l3 & [] & c3 & l4 & Hend & Hret & ->).
  apply on_world_Return in Hend as ->.
  injection Hret as <- <- <-.
  apply cascade_iterations_adds in Hpasses as (Hp & Hu & Hn & Hs).
  rewrite length_seqZ in Hn.
  split; [done|]. simpl.
  rewrite !unchecked_calls_app, !top_level_blocks_app, !passes_app, !shuffles_app.
  rewrite Hp, Hu, Hn, Hs. simpl. rewrite !app_nil_r. split; [done|]. split; [lia|done].
Qed.

Lemma algorithms_of_range (n : Z) :
  algorithm_of <$> seqZ 1 n
  = match Z.to_nat n with
    | O => []
    | S m => Shuffle.SHUFFLE_KEEP_SAME :: replicate m Shuffle.SHUFFLE_RANDOM
    end.
Proof.
  destruct (Z.to_nat n) as [|m] eqn:Hn.
  - by rewrite seqZ_nil by lia.
  - rewrite seqZ_cons by lia. simpl. f_equal.
    assert (Z.pred n = Z.of_nat m) as -> by lia. clear Hn.
    assert (∀ start, 1 < start → algorithm_of <$> seqZ start (Z.of_nat m)
                                 = replicate m Shuffle.SHUFFLE_RANDOM) as Hrest.
    { induction m as [|m IH]; intros start Hstart; [done|].
      rewrite seqZ_cons by lia. simpl. unfold algorithm_of at 1.
      rewrite decide_False by lia. f_equal.
      replace (Z.pred (Z.of_nat (S m))) with (Z.of_nat m) by lia.
      apply IH. lia. }
    apply Hrest. lia.
Qed.
End LogFacts.

(** ** The engine follows the steps of the cascade *)

Section StepFacts.
Context `{Collaborators}.

Lemma block_call_Ok {A}
    (f : Session rate channel block → world → result (A * list (callback block) * world))
    (c : config) (a : A) (c' : config) :
  block_call f c = Ok (a, c') ↔
  ∃ calls w s, f (sess c) (ext c) = Ok (a, calls, w) ∧
               run_callbacks (sess c) calls = Ok s ∧
               c' = {| sess := s; ext := w |}.
Proof.
  unfold block_call. split.
  - destruct (f _ _) as [[[a' calls] w]|e]; [|done].
    destruct (run_callbacks _ _) as [s|e] eqn:Hcalls; [|done].
    intros [= <- <-]. by exists calls, w, s.
  - intros (calls & w & s & -> & -> & ->). done.
Qed.

Lemma on_block_call {A}
    (f : Session rate channel block → world → result (A * list (callback block) * world))
    called returned (c : config) :
  on_block f called returned c
  = match block_call f c with
    | Ok (a, c') => Return (called ++ returned a) a c'
    | Raise e => Throw called e
    end.
Proof.
  unfold on_block, block_call.
  destruct (f _ _) as [[[a calls] w]|e]; [|done].
  by destruct (run_callbacks _ _).
Qed.

Lemma correct_one_bit_call (b : block) (c : config) :
  correct_one_bit b c
  = match block_call (Block_correct_one_bit b) c with
    | Ok (r, c') => Return [Ev_correct_one_bit b] r c'
    | Raise e => Throw [Ev_correct_one_bit b] e
    end.
Proof.
  unfold correct_one_bit. rewrite on_block_call.
  by destruct (block_call _ _) as [[r c']|e].
Qed.

(** The body of the loop makes one turn. *)
Lemma correct_popped_turn (c : config) item rest :
  pops_smallest (_error_blocks (sess c)) item rest →
  match correct_popped (_error_blocks (sess c)) item rest c with
  | Return log _ c' => turn c log (Ended c')
  | Throw log e => turn c log (Failed e)
  | OutOfFuel _ => False
  end.
Proof.
  intros Hpop. rewrite correct_popped_unfold. cbv zeta.
  destruct (Block_error_parity _ _ _) as [[[] w]|e] eqn:Hpar.
  - by eapply turn_skip.
  - destruct (Block_correct_one_bit _ _ _) as [[[r calls] w']|e] eqn:Hcor.
    + destruct (run_callbacks _ _) as [s'|e] eqn:Hcb.
      * destruct r as [i|].
        -- eapply turn_correct; [done|done|].
           unfold block_call. simpl. by rewrite Hcor, Hcb.
        -- eapply turn_nothing_corrected; [done|done|].
           unfold block_call. simpl. by rewrite Hcor, Hcb.
      * eapply turn_correct_one_bit_fails; [done|done|].
        unfold block_call. simpl. by rewrite Hcor, Hcb.
    + eapply turn_correct_one_bit_fails; [done|done|].
      unfold block_call. simpl. by rewrite Hcor.
  - by eapply turn_error_parity_fails.
Qed.

(** A turn that ends well is a step of [drains]. *)
Lemma drains_turn (c : config) log c1 log' c' :
  turn c log (Ended c1) → drains c1 log' c' → drains c (log ++ log') c'.
Proof.
  inversion 1 as [item rest w Hpop Hpar|item rest w i c2 Hpop Hpar Hcall| | |]; subst;
    intros Hrest; simpl.
  - by eapply drains_skip.
  - apply block_call_Ok in Hcall as (calls & w' & s & Hcor & Hcb & ->). simpl in *.
    by eapply drains_correct.
Qed.

(** A failing run of the loop is a failing drain. *)
Lemma correct_registered_error_blocks_fails fuel :
  ∀ (c : config) log e,
    correct_registered_error_blocks fuel c = Throw log e → drain_fails c log e.
Proof.
  induction fuel as [|fuel IH]; intros c log e;
    rewrite correct_registered_error_blocks_unfold;
    destruct (heappop _) as [[item rest]|] eqn:Hpop; try done.
  apply heappop_pops_smallest in Hpop.
  pose proof (correct_popped_turn c item rest Hpop) as Hturn.
  unfold M_bind.
  destruct (correct_popped _ _ _ c) as [log1 [] c1|log1 e1|]; [| |done].
  - destruct (correct_registered_error_blocks fuel c1) as [|log2 e2|] eqn:Hrun;
      [done| |done].
    intros [= <- <-]. eapply drain_fails_later; [exact Hturn|]. by apply IH.
  - intros [= <- <-]. by apply drain_fails_now.
Qed.

(** The log of a failing drain starts with the pop of a smallest entry. *)
Lemma drain_fails_pops (c : config) log e :
  drain_fails c log e →
  ∃ item rest log',
    pops_smallest (_error_blocks (sess c)) item rest ∧
    log = Ev_heappop (_error_blocks (sess c)) item :: log'.
Proof.
  assert (∀ l o, turn c l o →
                 ∃ item rest l', pops_smallest (_error_blocks (sess c)) item rest ∧
                                 l = Ev_heappop (_error_blocks (sess c)) item :: l')
    as Hturn by (inversion 1; subst; eauto 10).
  destruct 1 as [c log e Ht|c log c' log' e Ht _].
  - by eapply Hturn.
  - apply Hturn in Ht as (item & rest & l' & Hpop & ->). eauto 10.
Qed.

Lemma visit_blocks_visits fuel (blocks : list block) :
  ∀ c : config, ends (visit_blocks fuel blocks c) (visits blocks c).
Proof.
  induction blocks as [|b rest IH]; intros c; cbn [visit_blocks].
  - apply visits_done.
  - unfold M_bind at 1. rewrite correct_one_bit_call.
    destruct (block_call _ c) as [[r c1]|e] eqn:Hcall;
      [|by apply visits_correct_one_bit_fails].
    unfold M_bind.
    destruct (correct_registered_error_blocks fuel c1) as [log1 [] c2|log1 e|] eqn:Hdrain;
      [| |done].
    + apply correct_registered_error_blocks_drains in Hdrain.
      specialize (IH c2).
      destruct (visit_blocks fuel rest c2) as [log2 [] c3|log2 e|]; simpl in *; [| |done].
      * by eapply visits_block.
      * by eapply visits_block.
    + apply correct_registered_error_blocks_fails in Hdrain. simpl.
      by eapply visits_drain_fails.
Qed.

Lemma cascade_iteration_pass fuel k rate iteration (c : config) :
  ends (cascade_iteration fuel k rate iteration c) (pass k rate iteration c).
Proof.
  unfold cascade_iteration. cbv zeta. fold (algorithm_of iteration).
  unfold M_bind at 1. unfold on_world at 1.
  destruct (Shuffle_new _ _ _) as [[shuffle w]|e] eqn:Hshuffle;
    [|by apply pass_Shuffle_fails].
  unfold M_bind at 1. rewrite on_block_call. simpl sess. simpl ext.
  destruct (block_call _ _) as [[blocks c1]|e] eqn:Hcover.
  - pose proof (visit_blocks_visits fuel blocks c1) as Hvisit.
    destruct (visit_blocks fuel blocks c1) as [log [] c2|log e|]; simpl in *; [| |done].
    + by eapply pass_visits.
    + by eapply pass_visits.
  - simpl. by eapply pass_create_covering_blocks_fails.
Qed.

Lemma cascade_iterations_cascades fuel k rate (iterations : list Z) :
  ∀ c : config,
    ends (cascade_iterations fuel k rate iterations c) (cascades k rate iterations c).
Proof.
  induction iterations as [|iteration rest IH]; intros c; cbn [cascade_iterations].
  - apply cascades_done.
  - unfold M_bind.
    pose proof (cascade_iteration_pass fuel k rate iteration c) as Hpass.
    destruct (cascade_iteration fuel k rate iteration c) as [log1 [] c1|log1 e|];
      simpl in *; [| |done].
    + specialize (IH c1).
      destruct (cascade_iterations fuel k rate rest c1) as [log2 [] c2|log2 e|];
        simpl in *; [| |done].
      * by eapply cascades_pass.
      * by eapply cascades_pass.
    + by apply cascades_pass_fails.
Qed.

Lemma correct_key_reconciles fuel k rate (c : config) :
  finished (correct_key fuel k rate c) →
  reconciles k rate c (correct_key fuel k rate c).
Proof.
  assert (match correct_key fuel k rate c with
          | OutOfFuel _ => True
          | o => reconciles k rate c o
          end) as Hrun; [|by destruct (correct_key fuel k rate c)].
  unfold correct_key. cbv zeta.
  unfold M_bind at 1. cbv beta. unfold on_world at 1. cbv beta.
  destruct (start_reconciliation _ _) as [w1|e] eqn:Hstart; simpl fmap; cbv iota beta;
    [|by apply reconciles_start_fails].
  unfold M_bind at 1.
  pose proof (cascade_iterations_cascades fuel k rate
                (seqZ 1 (nr_iterations (_parameters (sess c))))
                {| sess := sess c; ext := w1 |}) as Hpasses.
  destruct (cascade_iterations _ _ _ _ _) as [log [] c2|log e|]; simpl in Hpasses;
    [| |done].
  - unfold M_bind, on_world, M_ret.
    destruct (end_reconciliation _ _) as [w3|e] eqn:Hend; simpl fmap; cbv iota beta.
    + rewrite app_nil_r. by eapply reconciles_returns.
    + rewrite app_nil_r. by eapply reconciles_end_fails.
  - by eapply reconciles_pass_fails.
Qed.

Lemma correct_one_bit_calls_app (l1 l2 : list event) :
  correct_one_bit_calls (l1 ++ l2) = correct_one_bit_calls l1 ++ correct_one_bit_calls l2.
Proof. induction l1 as [|e l1 IH]; [done|]. destruct e; simpl; by rewrite ?IH. Qed.

Lemma drains_top_level_blocks (c : config) log c' :
  drains c log c' → top_level_blocks log = [].
Proof. induction 1; done. Qed.

(** A run of the loop on a queue that is not empty starts with the pop
    of a smallest entry, however it ends. *)
Lemma correct_registered_error_blocks_pops fuel (c : config) :
  _error_blocks (sess c) ≠ [] →
  finished (correct_registered_error_blocks fuel c) →
  ∃ item rest log',
    pops_smallest (_error_blocks (sess c)) item rest ∧
    events (correct_registered_error_blocks fuel c)
    = Ev_heappop (_error_blocks (sess c)) item :: log'.
Proof.
  intros Hne Hfin.
  destruct (correct_registered_error_blocks fuel c) as [log [] c'|log e|] eqn:Hrun;
    [| |done]; simpl.
  - apply correct_registered_error_blocks_drains in Hrun.
    destruct Hrun as [c Hempty| |]; [done|eauto 10|eauto 10].
  - by apply correct_registered_error_blocks_fails, drain_fails_pops in Hrun.
Qed.

Lemma stable_correct_key k rate : stable (λ fuel, correct_key fuel k rate).
Proof.
  intros fuel c Hfin fuel' Hle. unfold correct_key in *. cbv zeta in *.
  match goal with
  | |- M_bind ?m (λ _, M_bind _ (λ _, M_bind ?n ?r)) c = _ =>
      apply (stable_bind (λ _, m)
               (λ fuel _, M_bind (cascade_iterations fuel k rate
                                    (seqZ 1 (nr_iterations (_parameters (sess c)))))
                            (λ _, M_bind n r))
               (stable_const _)) with (fuel := fuel); [|done|done]
  end.
  intros _.
  apply (stable_bind (λ fuel, cascade_iterations fuel k rate _) (λ _ _, M_bind _ _));
    [apply stable_cascade_iterations | intros _; apply stable_const].
Qed.
End StepFacts.

(** ** The claims on the cascade *)

Section CascadeClaims.
Context `{Collaborators}.

(** C3.  In [correct_registered_error_blocks] every call of
    [correct_one_bit] comes right after a check that found the block
    [ERRORS_ODD], however the run ends.  [correct_key] itself makes no
    such check: in a run that returns, the calls of [correct_one_bit]
    that do not follow a check are the calls on the top-level blocks of
    the passes, one for each block and in the order of the blocks. *)
Theorem correct_one_bit_checked_in_queue_only (fuel : nat) (c : config) :
  (∀ checked,
     unchecked_calls checked (events (correct_registered_error_blocks fuel c)) = []) ∧
  (∀ k rate log k' c',
     correct_key fuel k rate c = Return log k' c' →
     unchecked_calls None log = top_level_blocks log).
Proof.
  split.
  - intros checked. apply correct_registered_error_blocks_checked.
  - intros k rate log k' c' Hrun. by apply correct_key_adds in Hrun as (_ & ? & _).
Qed.

Section Progress.
Variable errors : world → nat.
Hypothesis error_parity_keeps :
  ∀ b s w parity w',
    Block_error_parity b s w = Ok (parity, w') → (errors w' ≤ errors w)%nat.
Hypothesis correct_one_bit_corrects :
  ∀ b s w i calls w',
    Block_correct_one_bit b s w = Ok (Some i, calls, w') →
    (errors w' < errors w)%nat.

Lemma drains_pays (c : config) log c' :
  drains c log c' →
  (errors (ext c') + length (correct_one_bit_calls log) ≤ errors (ext c))%nat.
Proof.
  induction 1 as [| c item rest w log c' _ Hpar _ IH
                  | c item rest w i calls w' s log c' _ Hpar Hcor _ _ IH]; simpl in *.
  - lia.
  - apply error_parity_keeps in Hpar. lia.
  - apply error_parity_keeps in Hpar. apply correct_one_bit_corrects in Hcor. lia.
Qed.

Lemma visits_pays (blocks : list block) (c : config) log o :
  harmless errors →
  visits blocks c log o →
  ∀ c', o = Ended c' →
        top_level_blocks log = [] ∧
        (errors (ext c') + length (correct_one_bit_calls log)
         ≤ errors (ext c) + length blocks)%nat.
Proof.
  intros Hh.
  induction 1 as [c|b rest c r c1 log1 c2 log2 o Hcall Hdrain _ IH| |]; intros c' Ho;
    [|specialize (IH c' Ho) as [Htop IH]|done|done].
  - injection Ho as <-. simpl. split; [done|lia].
  - apply block_call_Ok in Hcall as (calls & w & s & Hcor & _ & ->).
    apply (harmless_correct_one_bit _ Hh) in Hcor.
    pose proof (drains_pays _ _ _ Hdrain) as Hpaid.
    apply drains_top_level_blocks in Hdrain.
    simpl in *.
    rewrite top_level_blocks_app, correct_one_bit_calls_app, length_app, Hdrain, Htop.
    split; [done|lia].
Qed.

Lemma pass_pays k rate iteration (c : config) log c' :
  harmless errors →
  pass k rate iteration c log (Ended c') →
  (errors (ext c') + length (correct_one_bit_calls log)
   ≤ errors (ext c) + length (top_level_blocks log))%nat.
Proof.
  intros Hh.
  inversion 1 as [shuffle w blocks c1 log1 o Hshuffle Hcover Hvisit| |]; subst.
  apply (harmless_Shuffle _ Hh) in Hshuffle.
  apply block_call_Ok in Hcover as (calls & w' & s & Hcover & _ & ->).
  apply (harmless_create_covering_blocks _ Hh) in Hcover.
  destruct (visits_pays _ _ _ _ Hh Hvisit c' eq_refl) as [Htop Hpaid].
  simpl in *. rewrite Htop, app_nil_r. lia.
Qed.

Lemma cascades_pays k rate (iterations : list Z) (c : config) log o :
  harmless errors →
  cascades k rate iterations c log o →
  ∀ c', o = Ended c' →
        (errors (ext c') + length (correct_one_bit_calls log)
         ≤ errors (ext c) + length (top_level_blocks log))%nat.
Proof.
  intros Hh.
  induction 1 as [c|iteration rest c log1 c1 log2 o Hpass _ IH|]; intros c' Ho;
    [|specialize (IH c' Ho)|done].
  - injection Ho as <-. simpl. lia.
  - apply (pass_pays _ _ _ _ _ _ Hh) in Hpass.
    rewrite top_level_blocks_app, correct_one_bit_calls_app, !length_app. lia.
Qed.

Lemma reconciles_pays k rate (c : config) log k' c' :
  harmless errors →
  reconciles k rate c (Return log k' c') →
  (errors (ext c') + length (correct_one_bit_calls log)
   ≤ errors (ext c) + length (top_level_blocks log))%nat.
Proof.
  intros Hh.
  inversion 1 as [w1 log1 c2 w3 Hstart Hpasses Hend| | |]; subst.
  apply (harmless_start_reconciliation _ Hh) in Hstart.
  apply (harmless_end_reconciliation _ Hh) in Hend.
  pose proof (cascades_pays _ _ _ _ _ _ Hh Hpasses c2 eq_refl) as Hpaid.
  simpl in *.
  rewrite top_level_blocks_app, correct_one_bit_calls_app, !length_app. simpl. lia.
Qed.

(** C4.  [correct_registered_error_blocks] drains the queue of pending
    error blocks as the specification says.  With collaborators that
    make progress the loop finishes, and its result does not depend on
    the fuel.  A run on a queue that is not empty starts with the pop of
    an entry of smallest size.  A run that returns has made the turns
    of [drains]: each turn pops an entry of smallest size, reads the
    error parity of its block at that moment, and calls
    [correct_one_bit] on it exactly when the parity is [ERRORS_ODD];
    the queue is empty at the end, and every call of [correct_one_bit]
    has removed an error.  A run that fails has made such turns up to
    one in which a call on the popped block failed, or in which
    [correct_one_bit] returned [None] for a block found [ERRORS_ODD]:
    the loop itself never gives up on a queue that is not empty. *)
Theorem correct_registered_error_blocks_drains_queue (c : config) :
  (∃ fuel, finished (correct_registered_error_blocks fuel c)) ∧
  (∀ fuel fuel',
     finished (correct_registered_error_blocks fuel c) → (fuel ≤ fuel')%nat →
     correct_registered_error_blocks fuel' c = correct_registered_error_blocks fuel c) ∧
  (∀ fuel,
     _error_blocks (sess c) ≠ [] →
     finished (correct_registered_error_blocks fuel c) →
     ∃ item rest log',
       pops_smallest (_error_blocks (sess c)) item rest ∧
       events (correct_registered_error_blocks fuel c)
       = Ev_heappop (_error_blocks (sess c)) item :: log') ∧
  (∀ fuel log c',
     correct_registered_error_blocks fuel c = Return log tt c' →
     drains c log c' ∧ _error_blocks (sess c') = [] ∧
     (errors (ext c') + length (correct_one_bit_calls log) ≤ errors (ext c))%nat) ∧
  (∀ fuel log e,
     correct_registered_error_blocks fuel c = Throw log e → drain_fails c log e).
Proof.
  split; [by apply (terminating_correct_registered_error_blocks errors)|].
  split; [intros fuel fuel' Hfin Hle; by apply stable_correct_registered_error_blocks|].
  split; [intros fuel; apply correct_registered_error_blocks_pops|].
  split.
  - intros fuel log c' Hrun%correct_registered_error_blocks_drains.
    split; [done|]. split; [by eapply drains_queue_empty | by apply drains_pays].
  - intros fuel log e. apply correct_registered_error_blocks_fails.
Qed.

(** C6.  [correct_key] makes the passes of a reconciliation.  With
    collaborators that make progress the call finishes, and its result
    does not depend on the fuel.  A run that has finished is a
    reconciliation as [reconciles] has it: between the start and the end
    told to the channel it makes the passes [1 .. nr_iterations], each
    one building its shuffle, splitting the key into top-level blocks,
    calling [correct_one_bit] on every top-level block in order and
    draining the queue of pending error blocks after each call; it fails
    only where a collaborator fails or the drain asserts.  A run that
    returns hands back the key reference it was given, has made exactly
    [nr_iterations] passes, with a [SHUFFLE_KEEP_SAME] shuffle for the
    first pass and a [SHUFFLE_RANDOM] shuffle for each pass after it, and
    has called [correct_one_bit] once on every top-level block.  The key
    is corrected in place: it lives in the world the collaborators
    change, and when no collaborator adds errors the key has at most the
    errors it had, less one for every correction made from the queue. *)
Theorem correct_key_passes (k : key) (estimated_quantum_bit_error_rate : rate)
    (c : config) :
  (∃ fuel, finished (correct_key fuel k estimated_quantum_bit_error_rate c)) ∧
  (∀ fuel fuel',
     finished (correct_key fuel k estimated_quantum_bit_error_rate c) →
     (fuel ≤ fuel')%nat →
     correct_key fuel' k estimated_quantum_bit_error_rate c
     = correct_key fuel k estimated_quantum_bit_error_rate c) ∧
  (∀ fuel,
     finished (correct_key fuel k estimated_quantum_bit_error_rate c) →
     reconciles k estimated_quantum_bit_error_rate c
       (correct_key fuel k estimated_quantum_bit_error_rate c)) ∧
  (∀ fuel log k' c',
     correct_key fuel k estimated_quantum_bit_error_rate c = Return log k' c' →
     k' = k ∧
     passes log = Z.to_nat (nr_iterations (_parameters (sess c))) ∧
     shuffles log
     = match Z.to_nat (nr_iterations (_parameters (sess c))) with
       | O => []
       | S m => Shuffle.SHUFFLE_KEEP_SAME :: replicate m Shuffle.SHUFFLE_RANDOM
       end ∧
     unchecked_calls None log = top_level_blocks log ∧
     (harmless errors →
      (errors (ext c') + length (correct_one_bit_calls log)
       ≤ errors (ext c) + length (top_level_blocks log))%nat)).
Proof.
  split; [by apply (terminating_correct_key errors)|].
  split; [intros fuel fuel' Hfin Hle;
          by apply (stable_correct_key k estimated_quantum_bit_error_rate)|].
  split; [intros fuel; apply correct_key_reconciles|].
  intros fuel log k' c' Hrun.
  pose proof (correct_key_reconciles fuel k estimated_quantum_bit_error_rate c) as Hrec.
  rewrite Hrun in Hrec. specialize (Hrec I).
  apply correct_key_adds in Hrun as (? & ? & ? & Hs).
  rewrite algorithms_of_range in Hs. repeat (split; [done|]).
  intros Hh. by eapply reconciles_pays.
Qed.
End Progress.
End CascadeClaims.

(** * The mock world makes progress *)

Module MockFacts.
Import Mock.

Lemma key_parity_app (k : Key.Key) (l1 l2 : list Z) :
  key_parity k (l1 ++ l2)
  = p1 ← key_parity k l1; p2 ← key_parity k l2; Ok (xorb p1 p2).
Proof.
  induction l1 as [|i l1 IH]; simpl.
  - destruct (key_parity k l2) as [p|e]; [|done]. simpl. by destruct p.
  - destruct (Key.get_bit k i) as [bit|e]; [|done]. simpl. rewrite IH.
    destruct (key_parity k l1) as [p1|e]; [|done]. simpl.
    destruct (key_parity k l2) as [p2|e]; [|done]. simpl.
    by rewrite xorb_assoc.
Qed.

(** Parity additivity: the indexes of a block are those of its halves. *)
Lemma key_indexes_halves (b : block) :
  0 ≤ size b →
  key_indexes b = key_indexes (left_child b) ++ key_indexes (right_child b).
Proof.
  intros Hsz. unfold key_indexes. rewrite <- omap_app. f_equal.
  assert (0 ≤ (size b + 1) / 2 ≤ size b) as Hhalf.
  { pose proof (Z.div_mod (size b + 1) 2 ltac:(lia)).
    pose proof (Z.mod_pos_bound (size b + 1) 2 ltac:(lia)). lia. }
  unfold size in *. simpl. unfold size.
  generalize dependent ((end_index b - start_index b + 1) / 2). intros half Hhalf.
  replace (end_index b - start_index b)
    with ((start_index b + half - start_index b) + (end_index b - (start_index b + half)))
    at 1 by lia.
  rewrite seqZ_app by lia. do 2 f_equal. lia.
Qed.

Lemma odd_errors_halves (b : block) (w : world) (odd_left : bool) :
  0 ≤ size b →
  odd_errors b w = Ok true →
  odd_errors (left_child b) w = Ok odd_left →
  odd_errors (right_child b) w = Ok (negb odd_left).
Proof.
  intros Hsz. unfold odd_errors. rewrite (key_indexes_halves b Hsz), !key_parity_app.
  destruct (key_parity (bob w) (key_indexes (left_child b))) as [bl|]; [|done].
  destruct (key_parity (bob w) (key_indexes (right_child b))) as [br|]; [|done].
  destruct (key_parity (alice w) (key_indexes (left_child b))) as [al|]; [|done].
  destruct (key_parity (alice w) (key_indexes (right_child b))) as [ar|]; [|done].
  simpl. intros [= Hb] [= <-]. f_equal.
  by destruct bl, br, al, ar.
Qed.

Lemma odd_errors_empty (b : block) (w : world) :
  size b ≤ 0 → odd_errors b w = Ok false.
Proof.
  intros Hsz. unfold odd_errors, key_indexes. by rewrite seqZ_nil.
Qed.

Lemma split_keeps (b : block) (w : world) :
  bob (split b w).2 = bob w ∧ alice (split b w).2 = alice w.
Proof. unfold split. by destruct (decide _). Qed.

Lemma odd_errors_keys (b : block) (w1 w2 : world) :
  bob w1 = bob w2 → alice w1 = alice w2 → odd_errors b w1 = odd_errors b w2.
Proof. unfold odd_errors. by intros -> ->. Qed.

Lemma errors_keys (w1 w2 : world) :
  bob w1 = bob w2 → alice w1 = alice w2 → errors w1 = errors w2.
Proof. unfold errors. by intros -> ->. Qed.

(** Flipping a bit on which the keys disagree removes one error. *)
Lemma flip_corrects (w : world) (key_index vb va : Z) (flipped : Key.Key) :
  Key.get_bit (bob w) key_index = Ok vb →
  Key.get_bit (alice w) key_index = Ok va →
  Z.odd vb ≠ Z.odd va →
  Key.flip_bit (bob w) key_index = Ok flipped →
  (errors (set_bob w flipped) < errors w)%nat.
Proof.
  unfold Key.flip_bit, Key.flip_in, Key.get_bit, getitem, assert.
  case_bool_decide as Hrange; [|done]. simpl.
  destruct (Key._bits (bob w) !! key_index) as [vb'|] eqn:Hvb; [|done]. simpl.
  intros [= ->]. case_bool_decide as Hrange'; [|done]. simpl.
  destruct (Key._bits (alice w) !! key_index) as [va'|] eqn:Hva; [|done]. simpl.
  intros [= ->] Hodd [= <-]. unfold errors, bit_parity. simpl.
  set (P := λ i : Z, Z.odd <$> Key._bits (bob w) !! i ≠ Z.odd <$> Key._bits (alice w) !! i).
  rewrite (list_filter_iff _ (λ i, i ≠ key_index ∧ P i)).
  - rewrite <- list_filter_filter. apply length_filter_lt with key_index; [|by intros ?].
    apply list_elem_of_filter. split; [|apply elem_of_seqZ; lia].
    unfold P. rewrite Hvb, Hva. simpl. by intros [= Heq].
  - intros i. unfold P. destruct (decide (i = key_index)) as [->|Hne].
    + rewrite lookup_insert_eq, Hva. simpl. rewrite Z.odd_sub. simpl.
      split; [|by intros [? _]]. intros Hne. destruct Hne. f_equal.
      by destruct (Z.odd vb), (Z.odd va).
    + rewrite lookup_insert_ne by done. split; [done | by intros [_ ?]].
Qed.

Lemma bisect_corrects (s : session) (fuel : nat) :
  ∀ (b : block) (w : world) calls i calls' w',
    odd_errors b w = Ok true →
    bisect fuel b s w calls = Ok (Some i, calls', w') →
    (errors w' < errors w)%nat.
Proof.
  induction fuel as [|fuel IH]; intros b w calls i calls' w' Hodd; [done|].
  cbn [bisect]. destruct (decide (size b = 1)) as [Hsz|Hsz].
  - destruct (key_indexes b) as [|key_index [|]] eqn:Hidx; [done| |done].
    unfold odd_errors in Hodd. rewrite Hidx in Hodd. simpl in Hodd.
    destruct (Key.get_bit (bob w) key_index) as [vb|] eqn:Hvb; [|done].
    destruct (Key.get_bit (alice w) key_index) as [va|] eqn:Hva; [|done].
    simpl in Hodd. injection Hodd as Hodd.
    destruct (Key.flip_bit (bob w) key_index) as [flipped|] eqn:Hflip; [|done]. simpl.
    destruct (notify_bit_flip _ _ _); [|done]. simpl. intros [= _ _ <-].
    apply (flip_corrects w key_index vb va); try done.
    intros Heq. rewrite Heq in Hodd. by destruct (Z.odd va).
  - destruct (decide (size b ≤ 0)) as [Hle|Hgt].
    { by rewrite odd_errors_empty in Hodd. }
    destruct (split b w) as [registered w1] eqn:Hsplit.
    pose proof (split_keeps b w) as [Hbob Halice]. rewrite Hsplit in Hbob, Halice.
    simpl in Hbob, Halice.
    rewrite (odd_errors_keys _ w1 w) by done.
    destruct (odd_errors (left_child b) w) as [odd_left|] eqn:Hleft; [|done]. simpl.
    intros Hrun. rewrite <- (errors_keys w1 w) by done.
    apply (IH _ _ _ _ _ _ ) with (2 := Hrun).
    rewrite (odd_errors_keys _ w1 w) by done.
    destruct odd_left; [done|].
    by apply (odd_errors_halves b w false); [lia| |].
Qed.

Lemma error_parity_keeps b (s : session) w parity w' :
  error_parity b s w = Ok (parity, w') → (errors w' ≤ errors w)%nat.
Proof.
  unfold error_parity. destruct (odd_errors b w); [|done]. by intros [= _ <-].
Qed.

Lemma correct_one_bit_corrects b (s : session) w i calls w' :
  correct_one_bit b s w = Ok (Some i, calls, w') → (errors w' < errors w)%nat.
Proof.
  unfold correct_one_bit. destruct (odd_errors b w) as [[]|] eqn:Hodd; [|done|done].
  simpl. by apply bisect_corrects.
Qed.

(** A bisection that ends has flipped a bit. *)
Lemma bisect_Some (s : session) (fuel : nat) :
  ∀ (b : block) (w : world) calls r calls' w',
    bisect fuel b s w calls = Ok (r, calls', w') → ∃ i, r = Some i.
Proof.
  induction fuel as [|fuel IH]; intros b w calls r calls' w'; [done|].
  cbn [bisect]. destruct (decide (size b = 1)) as [Hsz|Hsz].
  - destruct (key_indexes b) as [|key_index [|]]; [done| |done].
    destruct (Key.flip_bit (bob w) key_index) as [flipped|]; [|done]. simpl.
    destruct (notify_bit_flip _ _ _); [|done]. simpl. intros [= <- _ _]. eauto.
  - destruct (split b w) as [registered w1].
    destruct (odd_errors (left_child b) w1) as [odd_left|]; [|done]. simpl.
    apply IH.
Qed.

(** No collaborator of the mock world adds errors to Bob's key. *)
Lemma harmless_errors : @harmless collaborators errors.
Proof.
  split.
  - intros ch w w'. simpl. by intros [= <-].
  - intros ch w w'. simpl. by intros [= <-].
  - intros shuffle_size algorithm w sh w'. simpl. unfold Shuffle_new.
    destruct (match algorithm with
              | Shuffle.SHUFFLE_KEEP_SAME => _
              | Shuffle.SHUFFLE_RANDOM => _
              end) as [[permutation g]|]; [|done].
    simpl. intros [= _ <-]. by rewrite (errors_keys _ w).
  - intros s k sh block_size w blocks calls w'. simpl. unfold create_covering_blocks.
    unfold assert. case_bool_decide; [|done]. simpl. by intros [= _ _ <-].
  - intros b s w r calls w' Hcor.
    assert (∃ i, r = Some i ∨ w' = w) as [i [->| ->]]; [| |done].
    + simpl in Hcor. unfold correct_one_bit in Hcor.
      destruct (odd_errors b w) as [[]|]; [| |done]; simpl in Hcor.
      * apply bisect_Some in Hcor as [i ->]. eauto.
      * injection Hcor as _ _ <-. exists 0. by right.
    + apply correct_one_bit_corrects in Hcor. lia.
Qed.
End MockFacts.

(** * The mock session helper *)

Section MockSessionClaims.
Context `{Collaborators} {G : Type} `{RandomGen G}.

(** C10.  [create_mock_session_and_key] with an integer [key_seed] fails
    for every [key_size >= 1]: it looks up [set_random_seed] on class
    [Key], which binds no such name, so the call raises
    [AttributeError] before any key is made.  Without a seed the key
    side succeeds: [Key.create_random_key(key_size)] returns a key. *)
Theorem create_mock_session_and_key_seeded_fails
    (key_size key_seed : Z) (shuffle_seed : option Z) (parameters : Parameters rate)
    (rw : RandomWorld G) (w : world) :
  key_size >= 1 →
  create_mock_session_and_key key_size (Some key_seed) shuffle_seed parameters rw w
    = Raise (AttributeError "Key" "set_random_seed") ∧
  ∃ alice_key rw', Key.create_random_key key_size None rw = Ok (alice_key, rw').
Proof.
  intros Hsz. split.
  - unfold create_mock_session_and_key.
    by rewrite assert_true by (by apply bool_decide_eq_true).
  - unfold Key.create_random_key.
    rewrite assert_true by (apply bool_decide_eq_true; lia). simpl.
    destruct (KeyClaims.fill_random_total (seqZ 0 key_size) ∅
                (Random_seed (os_entropy rw (entropy_used rw)))) as (bits & g & ->).
    simpl. eauto.
Qed.
End MockSessionClaims.

(** * The claims at concrete sessions *)

Module SessionWitnesses.
Import Mock Inputs.

Lemma register_block_once_witness :
  NoDup (Block_key_indexes pair_block) ∧
  ((∀ k, k ∈ Block_key_indexes pair_block → pair_block ∉ bucket empty_session k) →
   ∃ self', register_block empty_session pair_block = Ok self' ∧
     (∀ k, k ∈ Block_key_indexes pair_block →
           bucket self' k = bucket empty_session k ++ [pair_block] ∧
           length (filter (λ x, x = pair_block) (bucket self' k)) = 1%nat) ∧
     (∀ k, k ∉ Block_key_indexes pair_block →
           _key_index_to_blocks self' !! k = _key_index_to_blocks empty_session !! k) ∧
     _error_blocks self' = _error_blocks empty_session ∧
     _parameters self' = _parameters empty_session ∧
     _classical_channel self' = _classical_channel empty_session) ∧
  (∀ k, k ∈ Block_key_indexes pair_block → pair_block ∈ bucket empty_session k →
        register_block empty_session pair_block = Raise AssertionError).
Proof.
  assert (NoDup (Block_key_indexes pair_block)) as Hnd
    by (apply (bool_decide_unpack _); vm_compute; reflexivity).
  split; [exact Hnd|].
  apply (@register_block_once collaborators empty_session pair_block Hnd).
Defined.

(** Registering a block twice is refused. *)
Example register_block_twice :
  (register_block empty_session pair_block ≫= λ s, register_block s pair_block)
  = Raise AssertionError.
Proof. vm_compute. reflexivity. Qed.

Lemma register_error_block_eligible_witness :
  (sub_block_reuse (_parameters empty_session) = false →
   Block_is_top_block (left_child pair_block) = false →
   register_error_block empty_session (left_child pair_block) = empty_session) ∧
  (sub_block_reuse (_parameters empty_session) = true
   ∨ Block_is_top_block (left_child pair_block) = true →
   register_error_block empty_session (left_child pair_block)
     = set_error_blocks empty_session
         (heappush (_error_blocks empty_session)
            (Block_size (left_child pair_block), left_child pair_block)) ∧
   _error_blocks (register_error_block
                    (register_error_block empty_session (left_child pair_block))
                    (left_child pair_block))
     = _error_blocks empty_session
       ++ [(Block_size (left_child pair_block), left_child pair_block);
           (Block_size (left_child pair_block), left_child pair_block)]).
Proof.
  apply (@register_error_block_eligible collaborators empty_session (left_child pair_block)).
Defined.

Example register_error_block_twice :
  _error_blocks (register_error_block (register_error_block empty_session pair_block)
                   pair_block)
  = [(2, pair_block); (2, pair_block)].
Proof. vm_compute. reflexivity. Qed.

(** [correct_key] calls [correct_one_bit] on a top-level block whose
    error parity is even, and nothing checks the parity before. *)
Lemma correct_key_calls_unchecked :
  Block_error_parity agreeing_block (sess agreeing) (ext agreeing)
    = Ok (Block.ERRORS_EVEN, ext agreeing) ∧
  returns (correct_key 1 Bob_key 0 agreeing) = true ∧
  correct_one_bit_calls (events (correct_key 1 Bob_key 0 agreeing)) = [agreeing_block] ∧
  unchecked_calls None (events (correct_key 1 Bob_key 0 agreeing)) ≠ [].
Proof.
  split; [vm_compute; reflexivity|].
  split; [vm_compute; reflexivity|].
  split; [vm_compute; reflexivity|].
  assert (unchecked_calls None (events (correct_key 1 Bob_key 0 agreeing))
          = [agreeing_block]) as -> by (vm_compute; reflexivity).
  discriminate.
Qed.

Lemma correct_one_bit_checked_in_queue_only_witness :
  (∀ checked,
     unchecked_calls checked (events (correct_registered_error_blocks 4 cascading)) = []) ∧
  ∃ log c',
    correct_key 4 Bob_key 0 cascading = Return log Bob_key c' ∧
    unchecked_calls None log = top_level_blocks log.
Proof.
  split; [apply (@correct_one_bit_checked_in_queue_only collaborators 4 cascading)|].
  assert (returns (correct_key 4 Bob_key 0 cascading) = true) as Hret
    by (vm_compute; reflexivity).
  destruct (@correct_key collaborators 4 Bob_key 0 cascading) as [log [] c'| |] eqn:Hrun;
    [|discriminate Hret|discriminate Hret].
  exists log, c'. split; [reflexivity|].
  destruct (@correct_one_bit_checked_in_queue_only collaborators 4 cascading)
    as [_ Hkey].
  exact (Hkey Bob_key 0 log Bob_key c' Hrun).
Defined.

Lemma correct_registered_error_blocks_drains_queue_witness :
  ∃ log c',
    correct_registered_error_blocks 1 queued = Return log tt c' ∧
    (∀ fuel, correct_registered_error_blocks (1 + fuel) queued = Return log tt c') ∧
    (∃ item rest log',
       pops_smallest (_error_blocks (sess queued)) item rest ∧
       log = Ev_heappop (_error_blocks (sess queued)) item :: log') ∧
    drains queued log c' ∧ _error_blocks (sess c') = [] ∧
    (errors (ext c') + length (correct_one_bit_calls log) ≤ errors (ext queued))%nat ∧
    errors (ext queued) = 1%nat ∧ errors (ext c') = 0%nat.
Proof.
  destruct (@correct_registered_error_blocks_drains_queue collaborators errors
              MockFacts.error_parity_keeps MockFacts.correct_one_bit_corrects queued)
    as (_ & Hstable & Hpops & Hreturn & _).
  specialize (Hstable 1%nat). specialize (Hpops 1%nat). specialize (Hreturn 1%nat).
  assert (returns (correct_registered_error_blocks 1 queued) = true) as Hret
    by (vm_compute; reflexivity).
  assert (match correct_registered_error_blocks 1 queued with
          | Return _ _ c' => errors (ext queued) = 1%nat ∧ errors (ext c') = 0%nat
          | _ => True
          end) as Herrors by (vm_compute; split; reflexivity).
  destruct (@correct_registered_error_blocks collaborators 1 queued)
    as [log [] c'| |] eqn:Hrun; [|discriminate Hret|discriminate Hret].
  exists log, c'. split; [reflexivity|].
  split; [intros fuel; apply Hstable; [exact I|lia]|].
  split; [apply Hpops; [|exact I]; intros Hnil; discriminate Hnil|].
  destruct (Hreturn log c' eq_refl) as (Hdrains & Hempty & Hpaid).
  split; [exact Hdrains|]. split; [exact Hempty|]. split; [exact Hpaid|exact Herrors].
Defined.

(** The queued block is popped, found odd and corrected: Bob's key
    becomes Alice's. *)
Example drain_queued :
  match correct_registered_error_blocks 1 queued with
  | Return log _ c' =>
      correct_one_bit_calls log = [pair_block] ∧
      unchecked_calls None log = [] ∧
      bob (ext c') = key_of_bits [0; 0] ∧ _error_blocks (sess c') = []
  | _ => False
  end.
Proof. vm_compute. repeat split; reflexivity. Qed.

Lemma correct_key_passes_witness :
  ∃ log c',
    correct_key 4 Bob_key 0 cascading = Return log Bob_key c' ∧
    (∀ fuel, correct_key (4 + fuel) Bob_key 0 cascading = Return log Bob_key c') ∧
    reconciles Bob_key 0 cascading (Return log Bob_key c') ∧
    passes log = 2%nat ∧
    shuffles log = [Shuffle.SHUFFLE_KEEP_SAME; Shuffle.SHUFFLE_RANDOM] ∧
    unchecked_calls None log = top_level_blocks log ∧
    (errors (ext c') + length (correct_one_bit_calls log)
     ≤ errors (ext cascading) + length (top_level_blocks log))%nat ∧
    errors (ext cascading) = 2%nat ∧ errors (ext c') = 0%nat ∧
    bob (ext c') = alice (ext cascading).
Proof.
  destruct (@correct_key_passes collaborators errors
              MockFacts.error_parity_keeps MockFacts.correct_one_bit_corrects
              Bob_key 0 cascading)
    as (_ & Hstable & Hreconciles & Hreturn).
  specialize (Hstable 4%nat). specialize (Hreconciles 4%nat). specialize (Hreturn 4%nat).
  assert (returns (correct_key 4 Bob_key 0 cascading) = true) as Hret
    by (vm_compute; reflexivity).
  assert (match correct_key 4 Bob_key 0 cascading with
          | Return _ _ c' =>
              errors (ext cascading) = 2%nat ∧ errors (ext c') = 0%nat ∧
              bob (ext c') = alice (ext cascading)
          | _ => True
          end) as Herrors by (vm_compute; repeat split; reflexivity).
  destruct (@correct_key collaborators 4 Bob_key 0 cascading) as [log [] c'| |] eqn:Hrun;
    [|discriminate Hret|discriminate Hret].
  exists log, c'. split; [reflexivity|].
  split; [intros fuel; apply Hstable; [exact I|lia]|].
  split; [exact (Hreconciles I)|].
  destruct (Hreturn log Bob_key c' eq_refl) as (_ & Hpasses & Hshuffles & Hcalls & Hpaid).
  split; [exact Hpasses|]. split; [exact Hshuffles|]. split; [exact Hcalls|].
  split; [exact (Hpaid MockFacts.harmless_errors)|exact Herrors].
Defined.

(** The two passes of the cascading session: the second pass finds one
    of the two errors, the first-pass block that hid them is queued,
    popped and corrected, and the keys agree at the end. *)
Example cascade_two_passes :
  match correct_key 1 Bob_key 0 cascading with
  | Return log _ c' =>
      passes log = 2%nat ∧
      shuffles log = [Shuffle.SHUFFLE_KEEP_SAME; Shuffle.SHUFFLE_RANDOM] ∧
      length (correct_one_bit_calls log) = 7%nat ∧
      length (unchecked_calls None log) = 6%nat ∧
      errors (ext cascading) = 2%nat ∧ errors (ext c') = 0%nat
  | _ => False
  end.
Proof. vm_compute. repeat split; reflexivity. Qed.

Lemma create_mock_session_and_key_seeded_fails_witness :
  8 >= 1 ∧
  create_mock_session_and_key 8 (Some 42) None (parameters 4 2 false)
    (idle_world 1) (ext agreeing)
    = Raise (AttributeError "Key" "set_random_seed") ∧
  ∃ alice_key rw', Key.create_random_key 8 None (idle_world 1) = Ok (alice_key, rw').
Proof.
  split; [lia|].
  apply (@create_mock_session_and_key_seeded_fails collaborators Z Lcg
           8 42 None (parameters 4 2 false)
           (idle_world 1) (ext agreeing)).
  lia.
Defined.

(** Without seeds the helper returns a session and Alice's key. *)
Example create_mock_session_and_key_unseeded :
  match create_mock_session_and_key 8 None None (parameters 4 2 false)
          (idle_world 1) (ext agreeing) with
  | Ok (mock_session, alice_key, rw', w') =>
      Key.size alice_key = 8 ∧ alice w' = alice_key ∧
      _error_blocks mock_session = [] ∧ entropy_used rw' = 1%nat
  | Raise _ => False
  end.
Proof. vm_compute. repeat split; reflexivity. Qed.
End SessionWitnesses.

(** * More on key.py *)

Module KeyExtras.
Import Key KeyFacts CopyFacts.

(** X1.  Writing a bit and reading it back: for an index in range and a
    value 0 or 1, [set_bit] succeeds, keeps the size, [get_bit] at that
    index then returns the value written, and [get_bit] at every other
    index answers as before. *)
Theorem set_bit_get_bit (self : Key) (index value : Z) :
  0 ≤ index < _size self → value = 0 ∨ value = 1 →
  ∃ k', set_bit self index value = Ok k' ∧
        _size k' = _size self ∧
        get_bit k' index = Ok value ∧
        ∀ j, j ≠ index → get_bit k' j = get_bit self j.
Proof.
  intros Hrange Hvalue. unfold set_bit.
  rewrite (assert_true (bool_decide (0 ≤ index < _size self)))
    by (by apply bool_decide_eq_true).
  rewrite (assert_true (bool_decide (value ∈ [0; 1])))
    by (apply bool_decide_eq_true; destruct Hvalue as [-> | ->];
        [apply list_elem_of_here | apply list_elem_of_further, list_elem_of_here]).
  simpl. eexists. split; [done|]. split; [done|]. split.
  - unfold get_bit, getitem. simpl.
    rewrite assert_true by (by apply bool_decide_eq_true). simpl.
    by rewrite lookup_insert_eq.
  - intros j Hj. unfold get_bit, getitem. simpl. by rewrite lookup_insert_ne.
Qed.

(** X2.  The bounds checks: with an index outside [0, size), [get_bit],
    [set_bit] and [flip_bit] all fail their assertion, whatever the key
    holds; and [set_bit] fails it for a value other than 0 and 1. *)
Theorem bit_access_out_of_bounds (self : Key) (index value : Z) :
  (¬ 0 ≤ index < _size self →
   get_bit self index = Raise AssertionError ∧
   set_bit self index value = Raise AssertionError ∧
   flip_bit self index = Raise AssertionError) ∧
  (value ≠ 0 → value ≠ 1 → set_bit self index value = Raise AssertionError).
Proof.
  split.
  - intros Hout. unfold get_bit, set_bit, flip_bit.
    by rewrite bool_decide_eq_false_2.
  - intros H0 H1. unfold set_bit.
    assert (bool_decide (value ∈ [0; 1]) = false) as ->.
    { apply bool_decide_eq_false.
      intros [?|[?|?%elem_of_nil]%elem_of_cons]%elem_of_cons; done. }
    by case_bool_decide.
Qed.

(** X3.  [flip_bit] is its own inverse: on a well-formed key and an index
    in range it succeeds, replaces the bit [v] by [1 - v] and nothing
    else, and flipping the same index again gives the original key. *)
Theorem flip_bit_twice (self : Key) (index : Z) :
  well_formed self → 0 ≤ index < _size self →
  ∃ v k', get_bit self index = Ok v ∧
          flip_bit self index = Ok k' ∧
          well_formed k' ∧
          get_bit k' index = Ok (1 - v) ∧
          (∀ j, j ≠ index → get_bit k' j = get_bit self j) ∧
          flip_bit k' index = Ok self.
Proof.
  intros Hwf Hrange. destruct (proj2 (Hwf index) Hrange) as [v Hv].
  exists v. unfold flip_bit, flip_in, get_bit, getitem.
  rewrite assert_true by (by apply bool_decide_eq_true). simpl. rewrite Hv. simpl.
  eexists. split; [done|]. split; [done|]. simpl.
  rewrite assert_true by (by apply bool_decide_eq_true). simpl.
  rewrite lookup_insert_eq. simpl. split; [|split; [done|split]].
  - intros i. simpl. rewrite <- (Hwf i).
    destruct (decide (i = index)) as [->|Hne].
    + rewrite lookup_insert_eq, Hv. by split; eauto.
    + by rewrite lookup_insert_ne.
  - intros j Hj. by rewrite lookup_insert_ne.
  - rewrite insert_insert_eq. replace (1 - (1 - v)) with v by lia.
    rewrite insert_id by done. by destruct self.
Qed.


Lemma filter_agree (P P' : Z → Prop) `{!∀ x, Decision (P x), !∀ x, Decision (P' x)}
    (l : list Z) :
  (∀ x, x ∈ l → P x ↔ P' x) → filter P' l = filter P l.
Proof.
  induction l as [|x l IH]; intros Hsame; [done|]. rewrite !filter_cons.
  rewrite IH by (intros y Hy; by apply Hsame, list_elem_of_further).
  pose proof (Hsame x (list_elem_of_here _ _)).
  destruct (decide (P x)), (decide (P' x)); done || tauto.
Qed.

Lemma length_filter_toggle (P P' : Z → Prop) `{!∀ x, Decision (P x), !∀ x, Decision (P' x)}
    (l : list Z) (i : Z) :
  NoDup l → i ∈ l → (∀ x, x ≠ i → P x ↔ P' x) →
  (length (filter P' l) + (if decide (P i) then 1 else 0)
   = length (filter P l) + (if decide (P' i) then 1 else 0))%nat.
Proof.
  intros Hnd Hi Hsame. induction l as [|x l IH]; [by apply elem_of_nil in Hi|].
  apply NoDup_cons in Hnd as [Hx Hnd]. rewrite !filter_cons.
  destruct (decide (x = i)) as [->|Hne].
  - assert (filter P' l = filter P l) as ->.
    { apply filter_agree. intros y Hy. apply Hsame. by intros ->. }
    destruct (decide (P i)), (decide (P' i)); simpl; lia.
  - apply elem_of_cons in Hi as [?|Hi]; [done|]. specialize (IH Hnd Hi).
    pose proof (Hsame x Hne) as Hiff.
    destruct (decide (P x)) as [HP|HP], (decide (P' x)) as [HP'|HP'];
      simpl; try lia; tauto.
Qed.

Lemma flip_in_lookup (bits : gmap Z Z) (index v : Z) :
  bits !! index = Some v →
  flip_in bits index = Ok (<[index := 1 - v]> bits).
Proof. intros Hv. unfold flip_in, getitem. by rewrite Hv. Qed.

(** X4.  Flipping one bit moves the Hamming distance by exactly one: for
    well-formed keys of equal size that hold only 0 and 1, [flip_bit] at
    an index in range gives a key at distance 1 from the original, and
    its distance to any other key goes up by one when the two keys agreed
    at that index and down by one when they differed. *)
Theorem flip_bit_moves_distance (a b : Key) (index : Z) :
  well_formed a → well_formed b → binary a → binary b →
  _size a = _size b → 0 ≤ index < _size a →
  ∃ a' d d', flip_bit a index = Ok a' ∧
             difference a a' = Ok 1 ∧
             difference a b = Ok d ∧
             difference a' b = Ok d' ∧
             d' = if decide (_bits a !! index = _bits b !! index) then d + 1 else d - 1.
Proof.
  intros Ha Hb Hba Hbb Hsz Hrange.
  destruct (proj2 (Ha index) Hrange) as [v Hv].
  destruct (proj2 (Hb index) ltac:(lia)) as [u Hu].
  set (a' := {| _size := _size a; _bits := <[index := 1 - v]> (_bits a) |}).
  assert (well_formed a') as Ha'.
  { intros i. simpl. rewrite <- (Ha i). destruct (decide (i = index)) as [->|Hne].
    - rewrite lookup_insert_eq, Hv. by split; eauto.
    - by rewrite lookup_insert_ne. }
  exists a'. eexists _, _. split.
  { unfold flip_bit. rewrite assert_true by (by apply bool_decide_eq_true). simpl.
    by rewrite (flip_in_lookup _ _ v). }
  rewrite !difference_defined by done. simpl. split; [|split; [done|split; [done|]]].
  - f_equal.
    rewrite (differing_after_noise (_bits a) (<[index := 1 - v]> (_bits a)) [index]); try done.
    + apply NoDup_singleton.
    + apply NoDup_seqZ.
    + intros i ->%list_elem_of_singleton. apply elem_of_seqZ. lia.
    + intros i ->%list_elem_of_singleton. eauto.
    + intros i. destruct (decide (i = index)) as [->|Hne].
      * rewrite decide_True by apply list_elem_of_here. by rewrite lookup_insert_eq, Hv.
      * rewrite decide_False by (by intros ?%list_elem_of_singleton).
        by rewrite lookup_insert_ne.
  - pose proof (length_filter_toggle
                  (λ i, _bits a !! i ≠ _bits b !! i)
                  (λ i, <[index := 1 - v]> (_bits a) !! i ≠ _bits b !! i)
                  (seqZ 0 (_size a)) index (NoDup_seqZ _ _)) as Hcount.
    unfold differing.
    destruct (Hba _ _ Hv) as [-> | ->], (Hbb _ _ Hu) as [-> | ->];
      rewrite Hv, Hu in *; rewrite lookup_insert_eq in Hcount; simpl in Hcount;
      (destruct (decide (Some _ = Some _)) as [Heq|Hneq]; [try discriminate Heq|try done]);
      (lapply Hcount; [clear Hcount; intros Hcount | apply elem_of_seqZ; lia]);
      (lapply Hcount; [clear Hcount; intros Hcount
                      | intros x Hx; by rewrite lookup_insert_ne]);
      repeat (destruct (decide _) as [?|?] in Hcount; try done); lia.
Qed.

Section CreateRandom.
Context {G : Type} `{RandomGenLaws G}.

Lemma randint_bit (g : G) :
  ∃ v g', randint 0 1 g = Ok (v, g') ∧ (v = 0 ∨ v = 1).
Proof.
  unfold randint. rewrite decide_False by lia.
  pose proof (randbelow_lt (Z.to_nat (1 - 0 + 1)) g ltac:(lia)) as Hlt.
  destruct (randbelow _ g) as [r g']. simpl in Hlt.
  eexists _, _. split; [done|]. lia.
Qed.

Lemma fill_random_spec (indexes : list Z) :
  ∀ (bits : gmap Z Z) (g : G),
    ∃ bits' g', fill_random indexes bits g = Ok (bits', g') ∧
                (∀ i, i ∈ indexes → ∃ v, bits' !! i = Some v ∧ (v = 0 ∨ v = 1)) ∧
                (∀ i, i ∉ indexes → bits' !! i = bits !! i).
Proof.
  induction indexes as [|j rest IH]; intros bits g; cbn [fill_random].
  - exists bits, g. split; [done|]. split; [|done]. by intros i ?%elem_of_nil.
  - destruct (randint_bit g) as (v & g1 & -> & Hv). simpl.
    destruct (IH (<[j := v]> bits) g1) as (bits' & g' & -> & Hin & Hout).
    exists bits', g'. split; [done|]. split.
    + intros i Hi. destruct (decide (i ∈ rest)) as [?|Hrest]; [by apply Hin|].
      apply elem_of_cons in Hi as [->|?]; [|done].
      rewrite (Hout j Hrest), lookup_insert_eq. eauto.
    + intros i Hi. apply not_elem_of_cons in Hi as [Hne Hi].
      by rewrite (Hout i Hi), lookup_insert_ne.
Qed.

Lemma create_random_key_spec (size : Z) (seed : option Z) (w : RandomWorld G) :
  0 ≤ size →
  ∃ k w', create_random_key size seed w = Ok (k, w') ∧
          _size k = size ∧ well_formed k ∧ binary k ∧
          global_inst w' = global_inst w.
Proof.
  unfold create_random_key.
  intros Hsz. rewrite assert_true by (apply bool_decide_eq_true; lia). simpl.
  destruct (Random seed w) as [local_random w'] eqn:Hseed.
  destruct (fill_random_spec (seqZ 0 size) ∅ local_random)
    as (bits & g & -> & Hin & Hout). simpl.
  eexists _, _. split; [done|]. simpl. split; [done|]. split; [|split].
  + intros i. simpl. destruct (decide (i ∈ seqZ 0 size)) as [Hi|Hi].
    * destruct (Hin i Hi) as (v & -> & _). apply elem_of_seqZ in Hi.
      split; [lia | eauto].
    * rewrite (Hout i Hi), lookup_empty. rewrite elem_of_seqZ in Hi.
      split; [by intros [? ?] | lia].
  + intros i v Hv. simpl in Hv. destruct (decide (i ∈ seqZ 0 size)) as [Hi|Hi].
    * destruct (Hin i Hi) as (v' & Hv' & ?). congruence.
    * by rewrite (Hout i Hi), lookup_empty in Hv.
  + destruct seed; simpl in Hseed; by injection Hseed as <- <-.
Qed.

(** X5.  [create_random_key] with a non-negative size returns a key of
    that size that has a bit, 0 or 1, at every position of [0, size) and
    nowhere else, and it leaves the module-level generator alone; with a
    negative size it fails its assertion. *)
Theorem create_random_key_well_formed (size : Z) (seed : option Z) (w : RandomWorld G) :
  (0 ≤ size →
   ∃ k w', create_random_key size seed w = Ok (k, w') ∧
           _size k = size ∧ well_formed k ∧ binary k ∧
           global_inst w' = global_inst w) ∧
  (size < 0 → create_random_key size seed w = Raise AssertionError).
Proof.
  split; [apply create_random_key_spec|].
  intros Hsz. unfold create_random_key. by rewrite bool_decide_eq_false_2 by lia.
Qed.

(** X6.  [copy()] with the default [error_count = 0] returns a key equal
    to the receiver, leaves the receiver as it was and draws nothing from
    the generator; an [error_count] below 0 or above the size fails the
    assertion. *)
Theorem copy_without_noise (self : Key) (error_count : Z) (w : RandomWorld G) :
  (0 ≤ _size self →
   copy self 0 w = Ok ({| returned := self; receiver := self |}, w)) ∧
  (¬ 0 ≤ error_count ≤ _size self →
   copy self error_count w = Raise AssertionError).
Proof.
  unfold copy. split.
  - intros Hsz. rewrite assert_true by (apply bool_decide_eq_true; lia). simpl.
    unfold sample, sample_with. rewrite decide_True by lia. simpl.
    by destruct self, w.
  - intros Hout. by rewrite bool_decide_eq_false_2.
Qed.
End CreateRandom.

Lemma length_filter_cover (P Q R : Z → Prop)
    `{!∀ x, Decision (P x), !∀ x, Decision (Q x), !∀ x, Decision (R x)} (l : list Z) :
  (∀ x, R x → P x ∨ Q x) →
  (length (filter R l) ≤ length (filter P l) + length (filter Q l))%nat.
Proof.
  intros Hcover. induction l as [|x l IH]; [done|]. rewrite !filter_cons.
  pose proof (Hcover x).
  destruct (decide (R x)), (decide (P x)), (decide (Q x)); simpl; try lia; tauto.
Qed.

(** X7.  [difference] is a distance: on well-formed keys of one size it
    lies between 0 and the size, and it obeys the triangle inequality. *)
Theorem difference_triangle (a b c : Key) :
  well_formed a → well_formed b → well_formed c →
  _size a = _size b → _size b = _size c → 0 ≤ _size a →
  ∃ dab dbc dac, difference a b = Ok dab ∧ difference b c = Ok dbc ∧
                 difference a c = Ok dac ∧
                 0 ≤ dab ≤ _size a ∧ dac ≤ dab + dbc.
Proof.
  intros Ha Hb Hc Hab Hbc Hsz.
  eexists _, _, _. rewrite !difference_defined by (done || congruence).
  split; [done|]. split; [done|]. split; [done|]. split.
  - split; [lia|]. unfold differing.
    pose proof (length_filter (λ i, _bits a !! i ≠ _bits b !! i) (seqZ 0 (_size a))) as Hle.
    rewrite length_seqZ in Hle. lia.
  - rewrite <- Hab. unfold differing.
    pose proof (length_filter_cover
                  (λ i, _bits a !! i ≠ _bits b !! i) (λ i, _bits b !! i ≠ _bits c !! i)
                  (λ i, _bits a !! i ≠ _bits c !! i) (seqZ 0 (_size a))) as Hle.
    lapply Hle; [lia|]. intros x Hac.
    destruct (decide (_bits a !! x = _bits b !! x)) as [Heq|?]; [|by left].
    right. by rewrite <- Heq.
Qed.

Lemma append_assoc (s1 s2 s3 : string) : (s1 +:+ s2) +:+ s3 = s1 +:+ (s2 +:+ s3).
Proof.
  induction s1 as [|c s1 IH]; [done|].
  change (String c ((s1 +:+ s2) +:+ s3) = String c (s1 +:+ (s2 +:+ s3))).
  by rewrite IH.
Qed.

Lemma str_bit (v : Z) : v = 0 ∨ v = 1 → ∃ c, str v = String c "".
Proof. intros [-> | ->]; eexists; vm_compute; reflexivity. Qed.

Lemma str_loop_spec (bits : gmap Z Z) (indexes : list Z) :
  ∀ acc : string,
    (∀ i, i ∈ indexes → ∃ v, bits !! i = Some v ∧ (v = 0 ∨ v = 1)) →
    ∃ s, str_loop indexes bits acc = Ok (acc +:+ s) ∧
         String.length s = length indexes ∧
         ∀ n i v, indexes !! n = Some i → bits !! i = Some v →
                  String.get n s = String.get 0 (str v).
Proof.
  induction indexes as [|j rest IH]; intros acc Hbits; cbn [str_loop].
  - exists ""%string. split; [|split; [done|by intros [] ?]].
    apply (f_equal Ok). induction acc as [|c acc IHacc]; [done|].
    change (String c acc = String c (acc +:+ "")). by rewrite <- IHacc.
  - destruct (Hbits j (list_elem_of_here _ _)) as (v & Hv & Hbin).
    unfold getitem. rewrite Hv. simpl.
    destruct (IH (acc +:+ str v)) as (s & -> & Hlen & Hget).
    { intros i Hi. by apply Hbits, list_elem_of_further. }
    exists (str v +:+ s). split; [|split].
    + by rewrite append_assoc.
    + destruct (str_bit v Hbin) as [c ->].
      change (String c "" +:+ s) with (String c s). simpl. by rewrite Hlen.
    + destruct (str_bit v Hbin) as [c Hc].
      intros [|n] i v' Hn Hv'; simpl in Hn.
      * injection Hn as <-. assert (v' = v) as -> by congruence. by rewrite Hc.
      * rewrite Hc. change (String c "" +:+ s) with (String c s). simpl. by eapply Hget.
Qed.

(** X8.  [__str__] of a well-formed key of bits 0 and 1 is a string with
    one character for each position, the character at position [i] being
    the digit of bit [i]; [__repr__] is the same string behind ["Key: "]. *)
Theorem str_shows_bits (self : Key) :
  well_formed self → binary self →
  ∃ s, __str__ self = Ok s ∧
       __repr__ self = Ok ("Key: " +:+ s) ∧
       Z.of_nat (String.length s) = Z.max 0 (_size self) ∧
       ∀ i v, get_bit self i = Ok v →
              (v = 0 ∨ v = 1) ∧ String.get (Z.to_nat i) s = String.get 0 (str v).
Proof.
  intros Hwf Hbin. unfold __repr__, __str__.
  destruct (str_loop_spec (_bits self) (seqZ 0 (_size self)) "") as (s & -> & Hlen & Hget).
  { intros i Hi%elem_of_seqZ. destruct (proj2 (Hwf i)) as [v Hv]; [lia|]. eauto. }
  exists s. split; [done|]. split; [done|]. split.
  - rewrite Hlen, length_seqZ. lia.
  - intros i v. unfold get_bit, getitem. case_bool_decide as Hrange; [|done]. simpl.
    destruct (_bits self !! i) as [v'|] eqn:Hv; [|done]. intros [= ->].
    split; [by eapply Hbin|].
    apply (Hget _ i); [|done]. apply lookup_seqZ. lia.
Qed.
End KeyExtras.

(** * More on session.py *)

Section RegistryExtras.
Context `{Collaborators}.

Lemma register_block_Ok_inv (self self' : Session rate channel block) (b : block) :
  register_block self b = Ok self' →
  NoDup (Block_key_indexes b) ∧
  (∀ k, k ∈ Block_key_indexes b → b ∉ bucket self k) ∧
  (∀ k, bucket self' k = if decide (k ∈ Block_key_indexes b)
                         then bucket self k ++ [b] else bucket self k) ∧
  _error_blocks self' = _error_blocks self ∧
  _parameters self' = _parameters self ∧
  _classical_channel self' = _classical_channel self.
Proof.
  intros Hrun. unfold register_block in Hrun.
  assert (NoDup (Block_key_indexes b)) as Hnd.
  { destruct (decide (NoDup (Block_key_indexes b))) as [?|Hdup]; [done|].
    by rewrite (register_block_loop_repeated b _ _ Hdup) in Hrun. }
  assert (∀ k, k ∈ Block_key_indexes b → b ∉ bucket self k) as Hfresh.
  { intros k Hk Hb. by rewrite (register_block_loop_present b _ _ k Hk Hb) in Hrun. }
  destruct (register_block_loop_Ok b _ (_key_index_to_blocks self) Hnd Hfresh)
    as (m' & Hloop & Hlook).
  rewrite Hloop in Hrun. simpl in Hrun. injection Hrun as <-.
  split; [done|]. split; [done|]. split; [|done].
  intros k. unfold bucket. simpl. rewrite Hlook. by destruct (decide _).
Qed.

(** X9.  After a successful [register_block(b)],
    [get_blocks_containing_key_index(k)] for [k >= 0] returns the blocks
    it returned before, followed by [b] when [b] covers [k], and still
    the empty list for an index no block covers; for a negative index it
    fails its assertion. *)
Theorem register_block_then_lookup (self self' : Session rate channel block) (b : block) :
  register_block self b = Ok self' →
  (∀ k, 0 ≤ k →
        get_blocks_containing_key_index self' k
        = Ok (if decide (k ∈ Block_key_indexes b)
              then bucket self k ++ [b] else bucket self k)) ∧
  (∀ k, k < 0 → get_blocks_containing_key_index self' k = Raise AssertionError).
Proof.
  intros (_ & _ & Hlook & _)%register_block_Ok_inv. split.
  - intros k Hk. unfold get_blocks_containing_key_index.
    rewrite assert_true by (apply bool_decide_eq_true; lia). simpl.
    f_equal. apply Hlook.
  - intros k Hk. unfold get_blocks_containing_key_index.
    by rewrite bool_decide_eq_false_2 by lia.
Qed.

(** X10.  [register_block] refuses a block whose [key_indexes] name an
    index twice: the second visit of the index finds the block in the
    bucket and the assertion fails. *)
Theorem register_block_repeated_index (self : Session rate channel block) (b : block) :
  ¬ NoDup (Block_key_indexes b) → register_block self b = Raise AssertionError.
Proof.
  intros Hdup. unfold register_block.
  by rewrite (register_block_loop_repeated b _ _ Hdup).
Qed.

Lemma run_callback_registry_ok (s s' : Session rate channel block) (c : callback block) :
  registry_ok s → run_callback s c = Ok s' → registry_ok s'.
Proof.
  intros Hok. destruct c as [b|b]; simpl.
  - intros (Hnd & Hfresh & Hlook & _)%register_block_Ok_inv k.
    rewrite Hlook. destruct (Hok k) as [Hndk Hcov].
    destruct (decide (k ∈ Block_key_indexes b)) as [Hk|Hk]; [|done]. split.
    + apply NoDup_app. split; [done|]. split; [|apply NoDup_singleton].
      intros x Hx ->%list_elem_of_singleton. by apply (Hfresh k).
    + intros x [?| ->%list_elem_of_singleton]%elem_of_app; [by apply Hcov|done].
  - intros [= <-]. unfold register_error_block. by destruct (_ && _).
Qed.
End RegistryExtras.

(** Invariants of the session that every callback and every queue update
    keeps are kept by the whole engine. *)
Section SessionInvariants.
Context `{Collaborators}.
Variable I : Session rate channel block → Prop.
Hypothesis I_queue : ∀ s heap, I s → I (set_error_blocks s heap).
Hypothesis I_callback : ∀ s c s', I s → run_callback s c = Ok s' → I s'.

Lemma run_callbacks_keeps calls :
  ∀ s s', I s → run_callbacks s calls = Ok s' → I s'.
Proof.
  induction calls as [|c calls IH]; intros s s' Hs; simpl.
  - by intros [= <-].
  - destruct (run_callback s c) as [s1|] eqn:Hc; [|done]. simpl.
    apply IH. by eapply I_callback.
Qed.

Lemma on_world_keeps {A} (f : world → result (A * world)) log (c : config) l a c' :
  on_world f log c = Return l a c' → I (sess c) → I (sess c').
Proof. unfold on_world. destruct (f _) as [[]|]; [|done]. by intros [= _ _ <-]. Qed.

Lemma on_block_keeps {A}
    (f : Session rate channel block → world → result (A * list (callback block) * world))
    called returned (c : config) l a c' :
  on_block f called returned c = Return l a c' → I (sess c) → I (sess c').
Proof.
  unfold on_block. destruct (f _ _) as [[[] ?]|]; [|done].
  destruct (run_callbacks _ _) eqn:Hcalls; [|done]. intros [= _ _ <-] Hs.
  by eapply run_callbacks_keeps.
Qed.

Lemma drains_keeps (c : config) log c' :
  drains c log c' → I (sess c) → I (sess c').
Proof.
  induction 1 as [| c item rest w log c' _ _ _ IH
                  | c item rest w i calls w' s log c' _ _ _ Hcalls _ IH]; [done|..];
    intros Hs; apply IH; simpl.
  - by apply I_queue.
  - eapply run_callbacks_keeps; [|exact Hcalls]. by apply I_queue.
Qed.

Lemma visit_blocks_keeps fuel (blocks : list block) :
  ∀ (c : config) log c',
    visit_blocks fuel blocks c = Return log tt c' → I (sess c) → I (sess c').
Proof.
  induction blocks as [|b rest IH]; intros c log c' Hrun Hs; cbn [visit_blocks] in Hrun.
  - by injection Hrun as _ <-.
  - apply bind_Return in Hrun as (l1 & r & c1 & l23 & Hcall & Hrun & ->).
    apply bind_Return in Hrun as (l2 & [] & c2 & l3 & Hdrain & Hrest & ->).
    apply (IH _ _ _ Hrest).
    apply (drains_keeps c1 l2); [by apply (correct_registered_error_blocks_drains fuel)|].
    by eapply on_block_keeps.
Qed.

Lemma cascade_iteration_keeps fuel k rate iteration (c : config) log c' :
  cascade_iteration fuel k rate iteration c = Return log tt c' → I (sess c) → I (sess c').
Proof.
  unfold cascade_iteration. cbv zeta. intros Hrun Hs.
  apply bind_Return in Hrun as (l1 & shuffle & c1 & l23 & Hshuffle & Hrun & ->).
  apply bind_Return in Hrun as (l2 & blocks & c2 & l3 & Hcover & Hvisit & ->).
  apply (visit_blocks_keeps _ _ _ _ _ Hvisit).
  eapply on_block_keeps; [exact Hcover|]. by eapply on_world_keeps.
Qed.

Lemma cascade_iterations_keeps fuel k rate (iterations : list Z) :
  ∀ (c : config) log c',
    cascade_iterations fuel k rate iterations c = Return log tt c' →
    I (sess c) → I (sess c').
Proof.
  induction iterations as [|iteration rest IH]; intros c log c' Hrun Hs;
    cbn [cascade_iterations] in Hrun.
  - by injection Hrun as _ <-.
  - apply bind_Return in Hrun as (l1 & [] & c1 & l2 & Hfirst & Hrest & ->).
    apply (IH _ _ _ Hrest). by eapply cascade_iteration_keeps.
Qed.

Lemma correct_key_keeps fuel k rate (c : config) log k' c' :
  correct_key fuel k rate c = Return log k' c' → I (sess c) → I (sess c').
Proof.
  unfold correct_key. cbv zeta. intros Hrun Hs.
  apply bind_Return in Hrun as (l1 & [] & c1 & l234 & Hstart & Hrun & ->).
  apply bind_Return in Hrun as (l2 & [] & c2 & l34 & Hpasses & Hrun & ->).
  apply bind_Return in Hrun as (l3 & [] & c3 & l4 & Hend & Hret & ->).
  injection Hret as _ _ <-.
  eapply on_world_keeps; [exact Hend|].
  eapply cascade_iterations_keeps; [exact Hpasses|].
  by eapply on_world_keeps.
Qed.
End SessionInvariants.


Section EngineExtras.
Context `{Collaborators}.

Lemma registry_ok_init (parameters : Parameters rate) (classical_channel : channel) :
  registry_ok (Session__init__ parameters classical_channel).
Proof.
  intros k. unfold bucket. simpl. rewrite lookup_empty. simpl.
  split; [constructor|]. by intros b ?%elem_of_nil.
Qed.

(** X11.  The registry stays consistent over a whole reconciliation: if
    at the start no bucket lists a block twice and every bucket lists only
    blocks that cover its index, the same holds when [correct_key]
    returns. *)
Theorem correct_key_keeps_registry fuel k rate (c : config) log k' c' :
  correct_key fuel k rate c = Return log k' c' →
  registry_ok (sess c) → registry_ok (sess c').
Proof.
  apply (correct_key_keeps registry_ok).
  - intros s heap Hs. exact Hs.
  - intros s cb s'. apply run_callback_registry_ok.
Qed.

(** X12.  [correct_key] never forgets a block and never touches its
    configuration: when it returns, the parameters and the channel of the
    session are the ones it started with, and every bucket of the registry
    starts with the blocks it held before. *)
Theorem correct_key_keeps_blocks fuel k rate (c : config) log k' c' :
  correct_key fuel k rate c = Return log k' c' →
  _parameters (sess c') = _parameters (sess c) ∧
  _classical_channel (sess c') = _classical_channel (sess c) ∧
  ∀ key_index, bucket (sess c) key_index `prefix_of` bucket (sess c') key_index.
Proof.
  intros Hrun.
  refine (correct_key_keeps
            (λ s, _parameters s = _parameters (sess c) ∧
                  _classical_channel s = _classical_channel (sess c) ∧
                  ∀ key_index, bucket (sess c) key_index `prefix_of` bucket s key_index)
            _ _ fuel k rate c log k' c' Hrun _).
  - intros s heap Hs. exact Hs.
  - intros s [b|b] s' (Hp & Hch & Hgrow); simpl.
    + intros (_ & _ & Hlook & _ & Hp' & Hch')%register_block_Ok_inv.
      split; [congruence|]. split; [congruence|]. intros key_index.
      rewrite Hlook. destruct (decide _); [|done]. by apply prefix_app_r.
    + intros [= <-]. unfold register_error_block. by destruct (_ && _).
  - done.
Qed.

Lemma block_sizes_app (l1 l2 : list event) :
  block_sizes (l1 ++ l2) = block_sizes l1 ++ block_sizes l2.
Proof. induction l1 as [|e l1 IH]; [done|]. destruct e; simpl; by rewrite ?IH. Qed.

Lemma block_events_sizes (log : list event) :
  Forall block_event log → block_sizes log = [].
Proof. induction 1 as [|e log He _ IH]; [done|]. by destruct e. Qed.

Lemma block_events_not_channel (log : list event) :
  Forall block_event log → Forall (λ e, ¬ channel_event e) log.
Proof. intros Hlog. eapply Forall_impl; [exact Hlog|]. intros e He Hc. by destruct e. Qed.

Lemma block_events_last_pass (log : list event) :
  Forall block_event log → ∀ latest, last_pass_blocks latest log = latest.
Proof.
  induction 1 as [|e log He _ IH]; intros latest; [done|].
  destruct e; try done; simpl; apply IH.
Qed.

Lemma drains_block_events (c : config) log c' :
  drains c log c' → Forall block_event log.
Proof. induction 1; repeat constructor; done. Qed.

Lemma visit_blocks_block_events fuel (blocks : list block) :
  ∀ (c : config) log c',
    visit_blocks fuel blocks c = Return log tt c' → Forall block_event log.
Proof.
  induction blocks as [|b rest IH]; intros c log c' Hrun; cbn [visit_blocks] in Hrun.
  - injection Hrun as <- _. constructor.
  - apply bind_Return in Hrun as (l1 & r & c1 & l23 & Hcall & Hrun & ->).
    apply on_block_Return in Hcall as ->.
    apply bind_Return in Hrun as (l2 & [] & c2 & l3 & Hdrain & Hrest & ->).
    apply correct_registered_error_blocks_drains, drains_block_events in Hdrain.
    apply IH in Hrest. simpl. constructor; [done|]. by apply Forall_app.
Qed.

Lemma visit_blocks_queue_empty fuel (rest : list block) :
  ∀ (b : block) (c : config) log c',
    visit_blocks fuel (b :: rest) c = Return log tt c' → _error_blocks (sess c') = [].
Proof.
  induction rest as [|b' rest IH]; intros b c log c' Hrun; cbn [visit_blocks] in Hrun.
  - apply bind_Return in Hrun as (l1 & r & c1 & l23 & Hcall & Hrun & ->).
    apply bind_Return in Hrun as (l2 & [] & c2 & l3 & Hdrain & Hrest & ->).
    injection Hrest as _ <-.
    by eapply drains_queue_empty, correct_registered_error_blocks_drains.
  - apply bind_Return in Hrun as (l1 & r & c1 & l23 & Hcall & Hrun & ->).
    apply bind_Return in Hrun as (l2 & [] & c2 & l3 & Hdrain & Hrest & ->).
    by eapply IH.
Qed.

Lemma cascade_iteration_log fuel k rate iteration (c : config) log c' :
  cascade_iteration fuel k rate iteration c = Return log tt c' →
  ∃ blocks rest,
    log = Ev_Shuffle (Key_size k (ext c)) (algorithm_of iteration)
          :: Ev_create_covering_blocks
               (block_size_function (_parameters (sess c)) rate iteration) blocks
          :: rest ∧
    Forall block_event rest ∧
    (blocks ≠ [] → _error_blocks (sess c') = []).
Proof.
  unfold cascade_iteration. cbv zeta. intros Hrun.
  apply bind_Return in Hrun as (l1 & shuffle & c1 & l23 & Hshuffle & Hrun & ->).
  apply on_world_Return in Hshuffle as ->.
  apply bind_Return in Hrun as (l2 & blocks & c2 & l3 & Hcover & Hvisit & ->).
  apply on_block_Return in Hcover as ->.
  exists blocks, l3. split; [done|]. split; [by eapply visit_blocks_block_events|].
  intros Hne. destruct blocks as [|b rest]; [done|]. by eapply visit_blocks_queue_empty.
Qed.

Lemma cascade_iterations_log fuel k rate (iterations : list Z) :
  ∀ (c : config) log c',
    cascade_iterations fuel k rate iterations c = Return log tt c' →
    block_sizes log = block_size_function (_parameters (sess c)) rate <$> iterations ∧
    Forall (λ e, ¬ channel_event e) log ∧
    (iterations = [] → log = []) ∧
    (iterations ≠ [] → ∀ latest, last_pass_blocks latest log ≠ [] →
                                 _error_blocks (sess c') = []).
Proof.
  induction iterations as [|iteration rest IH]; intros c log c' Hrun;
    cbn [cascade_iterations] in Hrun.
  - injection Hrun as <- _. by repeat split.
  - apply bind_Return in Hrun as (l1 & [] & c1 & l2 & Hfirst & Hrest & ->).
    assert (_parameters (sess c1) = _parameters (sess c)) as Hp.
    { refine (cascade_iteration_keeps (λ s, _parameters s = _parameters (sess c))
                _ _ fuel k rate iteration c l1 c1 Hfirst eq_refl); [done|].
      intros s [b|b] s' Hs; simpl.
      - by intros (_ & _ & _ & _ & -> & _)%register_block_Ok_inv.
      - intros [= <-]. unfold register_error_block. by destruct (_ && _). }
    apply cascade_iteration_log in Hfirst as (blocks & vlog & -> & Hvlog & Hempty).
    pose proof (IH _ _ _ Hrest) as (Hsizes & Hchan & Hnil & Hlast).
    split; [|split; [|split; [done|]]].
    + simpl. rewrite block_sizes_app, (block_events_sizes _ Hvlog), Hsizes, Hp. done.
    + simpl. do 2 (constructor; [by intros []|]).
      apply Forall_app. split; [by apply block_events_not_channel|done].
    + intros _ latest. simpl.
      change (Ev_Shuffle ?a ?b :: Ev_create_covering_blocks ?x ?y :: vlog ++ l2)
        with ([Ev_Shuffle a b; Ev_create_covering_blocks x y] ++ vlog ++ l2).
      destruct rest as [|iteration' rest].
      * rewrite (Hnil eq_refl), app_nil_r. simpl.
        rewrite (block_events_last_pass _ Hvlog).
        cbn [cascade_iterations] in Hrest. injection Hrest as _ <-. exact Hempty.
      * assert (∀ l latest', last_pass_blocks latest' (vlog ++ l)
                             = last_pass_blocks latest' l) as Hskip.
        { intros l. induction Hvlog as [|e vlog' He _ IHv]; intros latest'; [done|].
          destruct e; try done; simpl; apply IHv. }
        simpl. rewrite Hskip. by apply Hlast.
Qed.

(** X13.  The block sizes of a returning run of [correct_key] are
    [block_size_function(estimated_quantum_bit_error_rate, iteration)] for
    [iteration = 1 .. nr_iterations], in this order. *)
Theorem correct_key_block_sizes fuel k rate (c : config) log k' c' :
  correct_key fuel k rate c = Return log k' c' →
  block_sizes log
  = block_size_function (_parameters (sess c)) rate
    <$> seqZ 1 (nr_iterations (_parameters (sess c))).
Proof.
  unfold correct_key. cbv zeta. intros Hrun.
  apply bind_Return in Hrun as (l1 & [] & c1 & l234 & Hstart & Hrun & ->).
  pose proof (on_world_keeps (λ s, s = sess c) _ _ _ _ _ _ Hstart eq_refl) as Hs.
  apply on_world_Return in Hstart as ->.
  apply bind_Return in Hrun as (l2 & [] & c2 & l34 & Hpasses & Hrun & ->).
  apply bind_Return in Hrun as (l3 & [] & c3 & l4 & Hend & Hret & ->).
  apply on_world_Return in Hend as ->. injection Hret as <- _ _.
  apply cascade_iterations_log in Hpasses as (Hsizes & _).
  simpl. rewrite block_sizes_app, Hsizes, Hs. simpl. by rewrite app_nil_r.
Qed.

(** X14.  A returning run of [correct_key] calls [start_reconciliation]
    first and [end_reconciliation] last, and neither in between. *)
Theorem correct_key_brackets fuel k rate (c : config) log k' c' :
  correct_key fuel k rate c = Return log k' c' →
  ∃ passes_log,
    log = Ev_start_reconciliation :: passes_log ++ [Ev_end_reconciliation] ∧
    Forall (λ e, ¬ channel_event e) passes_log.
Proof.
  unfold correct_key. cbv zeta. intros Hrun.
  apply bind_Return in Hrun as (l1 & [] & c1 & l234 & Hstart & Hrun & ->).
  apply on_world_Return in Hstart as ->.
  apply bind_Return in Hrun as (l2 & [] & c2 & l34 & Hpasses & Hrun & ->).
  apply bind_Return in Hrun as (l3 & [] & c3 & l4 & Hend & Hret & ->).
  apply on_world_Return in Hend as ->. injection Hret as <- _ _.
  apply cascade_iterations_log in Hpasses as (_ & Hchan & _).
  exists l2. split; [|done]. simpl. by rewrite ?app_nil_r.
Qed.

(** X15.  When [correct_key] returns and its last pass had at least one
    top-level block, no error block is left pending. *)
Theorem correct_key_leaves_queue_empty fuel k rate (c : config) log k' c' :
  correct_key fuel k rate c = Return log k' c' →
  last_pass_blocks [] log ≠ [] →
  _error_blocks (sess c') = [].
Proof.
  unfold correct_key. cbv zeta. intros Hrun.
  apply bind_Return in Hrun as (l1 & [] & c1 & l234 & Hstart & Hrun & ->).
  apply on_world_Return in Hstart as ->.
  apply bind_Return in Hrun as (l2 & [] & c2 & l34 & Hpasses & Hrun & ->).
  apply bind_Return in Hrun as (l3 & [] & c3 & l4 & Hend & Hret & ->).
  pose proof (on_world_keeps (λ s, s = sess c2) _ _ _ _ _ _ Hend eq_refl) as Hs.
  apply on_world_Return in Hend as ->. injection Hret as <- _ <-.
  apply cascade_iterations_log in Hpasses as (_ & _ & Hnil & Hlast).
  rewrite Hs. simpl.
  assert (∀ l latest, last_pass_blocks latest (l ++ [Ev_end_reconciliation] ++ [])
                      = last_pass_blocks latest l) as Hend'.
  { induction l as [|e l IHl]; intros latest; [done|]. destruct e; simpl; apply IHl. }
  rewrite Hend'. intros Hne.
  destruct (seqZ 1 (nr_iterations (_parameters (sess c)))) as [|i rest] eqn:Hseq.
  - by rewrite (Hnil eq_refl) in Hne.
  - by apply (Hlast ltac:(done) []).
Qed.

(** X16.  With [nr_iterations <= 0] the loop of [correct_key] is empty:
    the call only starts and ends the reconciliation on the channel and
    returns the key, with the session as it was. *)
Theorem correct_key_no_iterations fuel k rate (c : config) w1 w2 :
  nr_iterations (_parameters (sess c)) ≤ 0 →
  start_reconciliation (_classical_channel (sess c)) (ext c) = Ok w1 →
  end_reconciliation (_classical_channel (sess c)) w1 = Ok w2 →
  correct_key fuel k rate c
  = Return [Ev_start_reconciliation; Ev_end_reconciliation] k
      {| sess := sess c; ext := w2 |}.
Proof.
  intros Hn Hstart Hend. unfold correct_key. cbv zeta.
  rewrite seqZ_nil by done. unfold M_bind, on_world. cbn [cascade_iterations M_ret].
  rewrite Hstart. simpl. by rewrite Hend.
Qed.

(** X17.  [correct_registered_error_blocks] asserts that a correction
    happened: when the popped block reads [ERRORS_ODD] but its
    [correct_one_bit] returns [None], the loop stops with an assertion
    error right after that call. *)
Theorem correct_registered_error_blocks_asserts fuel (c : config) item rest w calls w' s :
  heappop (_error_blocks (sess c)) = Some (item, rest) →
  Block_error_parity item.2 (set_error_blocks (sess c) rest) (ext c)
    = Ok (Block.ERRORS_ODD, w) →
  Block_correct_one_bit item.2 (set_error_blocks (sess c) rest) w = Ok (None, calls, w') →
  run_callbacks (set_error_blocks (sess c) rest) calls = Ok s →
  correct_registered_error_blocks (S fuel) c
  = Throw [Ev_heappop (_error_blocks (sess c)) item;
           Ev_error_parity item.2 Block.ERRORS_ODD;
           Ev_correct_one_bit item.2] AssertionError.
Proof.
  intros Hpop Hpar Hcor Hcalls.
  rewrite correct_registered_error_blocks_unfold, Hpop. unfold M_bind.
  rewrite correct_popped_unfold. cbv zeta. by rewrite Hpar, Hcor, Hcalls.
Qed.

Section Bounded.
Variable errors : world → nat.
Hypothesis error_parity_keeps :
  ∀ b s w parity w',
    Block_error_parity b s w = Ok (parity, w') → (errors w' ≤ errors w)%nat.
Hypothesis correct_one_bit_corrects :
  ∀ b s w i calls w',
    Block_correct_one_bit b s w = Ok (Some i, calls, w') →
    (errors w' < errors w)%nat.

Lemma drains_corrections_bounded (c : config) log c' :
  drains c log c' →
  (errors (ext c') + length (correct_one_bit_calls log) ≤ errors (ext c))%nat.
Proof.
  induction 1 as [| c item rest w log c' _ Hpar _ IH
                  | c item rest w i calls w' s log c' _ Hpar Hcor _ _ IH]; simpl in *.
  - lia.
  - apply error_parity_keeps in Hpar. lia.
  - apply error_parity_keeps in Hpar. apply correct_one_bit_corrects in Hcor. lia.
Qed.

(** X18.  With collaborators that make progress, a returning run of
    [correct_registered_error_blocks] makes at most as many corrections
    as there were errors, and each one is paid for: the errors left plus
    the calls of [correct_one_bit] do not exceed the errors at the start. *)
Theorem cascade_corrections_bounded fuel (c : config) log c' :
  correct_registered_error_blocks fuel c = Return log tt c' →
  (errors (ext c') + length (correct_one_bit_calls log) ≤ errors (ext c))%nat.
Proof.
  intros Hrun. by apply drains_corrections_bounded, (correct_registered_error_blocks_drains fuel).
Qed.
End Bounded.
End EngineExtras.

Section MockSessionExtras.
Context `{Collaborators} {G : Type} `{RandomGenLaws G}.

(** X19.  [create_mock_session_and_key] rejects a [key_size] below 1 with
    an assertion error, whatever the seeds; called without seeds on a
    [key_size >= 1] it draws a well-formed key of that size for Alice,
    hands it to the mock channel and returns a fresh session on that
    channel together with the key. *)
Theorem create_mock_session_and_key_without_seeds
    (key_size : Z) (key_seed shuffle_seed : option Z) (parameters : Parameters rate)
    (rw : RandomWorld G) (w : world) :
  (key_size < 1 →
   create_mock_session_and_key key_size key_seed shuffle_seed parameters rw w
     = Raise AssertionError) ∧
  (1 ≤ key_size →
   ∃ alice_key rw',
     Key.create_random_key key_size None rw = Ok (alice_key, rw') ∧
     Key.well_formed alice_key ∧ Key._size alice_key = key_size ∧
     ∀ mock_classical_channel w',
       MockClassicalChannel alice_key w = Ok (mock_classical_channel, w') →
       create_mock_session_and_key key_size None None parameters rw w
         = Ok (Session__init__ parameters mock_classical_channel, alice_key, rw', w')).
Proof.
  split.
  - intros Hsz. unfold create_mock_session_and_key.
    by rewrite bool_decide_eq_false_2 by lia.
  - intros Hsz.
    destruct (KeyExtras.create_random_key_spec key_size None rw ltac:(lia))
      as (alice_key & rw' & Hkey & Hsize & Hwf & _).
    exists alice_key, rw'. split; [done|]. split; [done|]. split; [done|].
    intros mock_classical_channel w' Hchannel. unfold create_mock_session_and_key.
    rewrite assert_true by (apply bool_decide_eq_true; lia). simpl.
    rewrite Hkey. simpl. by rewrite Hchannel.
Qed.
End MockSessionExtras.

(** * The extra properties at concrete inputs *)

Lemma key_of_bits_binary (bits : list Z) :
  Forall (λ v, v = 0 ∨ v = 1) bits → Key.binary (key_of_bits bits).
Proof.
  intros Hbits i v Hv. simpl in Hv.
  apply lookup_map_seqZ_Some in Hv as [_ Hv].
  by apply (Forall_lookup_1 _ _ _ _ Hbits Hv).
Qed.

Module KeyExtraWitnesses.
Import Key KeyExtras.

Lemma set_bit_get_bit_witness :
  0 ≤ 1 < _size (key_of_bits [0; 1; 1]) ∧ (0 = 0 ∨ 0 = 1) ∧
  ∃ k', set_bit (key_of_bits [0; 1; 1]) 1 0 = Ok k' ∧
        _size k' = _size (key_of_bits [0; 1; 1]) ∧
        get_bit k' 1 = Ok 0 ∧
        ∀ j, j ≠ 1 → get_bit k' j = get_bit (key_of_bits [0; 1; 1]) j.
Proof.
  split; [simpl; lia|]. split; [by left|].
  apply (set_bit_get_bit (key_of_bits [0; 1; 1]) 1 0); [simpl; lia | by left].
Defined.

Example set_bit_then_str :
  (set_bit (key_of_bits [0; 1; 1]) 1 0 ≫= __str__) = Ok "001"%string.
Proof. vm_compute. reflexivity. Qed.

Lemma bit_access_out_of_bounds_witness :
  (¬ 0 ≤ 2 < _size (key_of_bits [0; 1]) →
   get_bit (key_of_bits [0; 1]) 2 = Raise AssertionError ∧
   set_bit (key_of_bits [0; 1]) 2 5 = Raise AssertionError ∧
   flip_bit (key_of_bits [0; 1]) 2 = Raise AssertionError) ∧
  (5 ≠ 0 → 5 ≠ 1 → set_bit (key_of_bits [0; 1]) 2 5 = Raise AssertionError).
Proof. apply (bit_access_out_of_bounds (key_of_bits [0; 1]) 2 5). Defined.

Lemma flip_bit_twice_witness :
  well_formed (key_of_bits [0; 1; 1]) ∧ 0 ≤ 2 < _size (key_of_bits [0; 1; 1]) ∧
  ∃ v k', get_bit (key_of_bits [0; 1; 1]) 2 = Ok v ∧
          flip_bit (key_of_bits [0; 1; 1]) 2 = Ok k' ∧
          well_formed k' ∧
          get_bit k' 2 = Ok (1 - v) ∧
          (∀ j, j ≠ 2 → get_bit k' j = get_bit (key_of_bits [0; 1; 1]) j) ∧
          flip_bit k' 2 = Ok (key_of_bits [0; 1; 1]).
Proof.
  split; [apply key_of_bits_well_formed|]. split; [simpl; lia|].
  apply (flip_bit_twice (key_of_bits [0; 1; 1]) 2);
    [apply key_of_bits_well_formed | simpl; lia].
Defined.

Lemma flip_bit_moves_distance_witness :
  well_formed (key_of_bits [0; 1; 1]) ∧ well_formed (key_of_bits [0; 0; 1]) ∧
  binary (key_of_bits [0; 1; 1]) ∧ binary (key_of_bits [0; 0; 1]) ∧
  _size (key_of_bits [0; 1; 1]) = _size (key_of_bits [0; 0; 1]) ∧
  0 ≤ 1 < _size (key_of_bits [0; 1; 1]) ∧
  ∃ a' d d', flip_bit (key_of_bits [0; 1; 1]) 1 = Ok a' ∧
             difference (key_of_bits [0; 1; 1]) a' = Ok 1 ∧
             difference (key_of_bits [0; 1; 1]) (key_of_bits [0; 0; 1]) = Ok d ∧
             difference a' (key_of_bits [0; 0; 1]) = Ok d' ∧
             d' = if decide (_bits (key_of_bits [0; 1; 1]) !! 1
                             = _bits (key_of_bits [0; 0; 1]) !! 1)
                  then d + 1 else d - 1.
Proof.
  assert (binary (key_of_bits [0; 1; 1])) as Ha
    by (apply key_of_bits_binary; repeat constructor; lia).
  assert (binary (key_of_bits [0; 0; 1])) as Hb
    by (apply key_of_bits_binary; repeat constructor; lia).
  split; [apply key_of_bits_well_formed|]. split; [apply key_of_bits_well_formed|].
  split; [exact Ha|]. split; [exact Hb|]. split; [reflexivity|]. split; [simpl; lia|].
  apply (flip_bit_moves_distance (key_of_bits [0; 1; 1]) (key_of_bits [0; 0; 1]) 1);
    [apply key_of_bits_well_formed | apply key_of_bits_well_formed
     | exact Ha | exact Hb | reflexivity | simpl; lia].
Defined.

(** Correcting the one differing bit brings the distance from 1 to 0. *)
Example flip_corrects_the_error :
  difference (key_of_bits [0; 1; 1]) (key_of_bits [0; 0; 1]) = Ok 1 ∧
  (flip_bit (key_of_bits [0; 1; 1]) 1 ≫= λ a', difference a' (key_of_bits [0; 0; 1]))
  = Ok 0.
Proof. split; vm_compute; reflexivity. Qed.

Lemma create_random_key_well_formed_witness :
  (0 ≤ 8 →
   ∃ k w', create_random_key 8 (Some 42) (idle_world 1) = Ok (k, w') ∧
           _size k = 8 ∧ well_formed k ∧ binary k ∧
           global_inst w' = global_inst (idle_world 1)) ∧
  (-1 < 0 → create_random_key (-1) (Some 42) (idle_world 1) = Raise AssertionError).
Proof.
  split.
  - apply (create_random_key_well_formed 8 (Some 42) (idle_world 1)).
  - apply (create_random_key_well_formed (-1) (Some 42) (idle_world 1)).
Defined.

Lemma copy_without_noise_witness :
  (0 ≤ _size (key_of_bits [0; 1; 1]) →
   copy (key_of_bits [0; 1; 1]) 0 (idle_world 7)
   = Ok ({| returned := key_of_bits [0; 1; 1]; receiver := key_of_bits [0; 1; 1] |},
         idle_world 7)) ∧
  (¬ 0 ≤ 4 ≤ _size (key_of_bits [0; 1; 1]) →
   copy (key_of_bits [0; 1; 1]) 4 (idle_world 7) = Raise AssertionError).
Proof.
  split.
  - apply (copy_without_noise (key_of_bits [0; 1; 1]) 0 (idle_world 7)).
  - apply (copy_without_noise (key_of_bits [0; 1; 1]) 4 (idle_world 7)).
Defined.

Lemma difference_triangle_witness :
  well_formed (key_of_bits [0; 1; 1]) ∧ well_formed (key_of_bits [0; 0; 1]) ∧
  well_formed (key_of_bits [1; 0; 0]) ∧
  _size (key_of_bits [0; 1; 1]) = _size (key_of_bits [0; 0; 1]) ∧
  _size (key_of_bits [0; 0; 1]) = _size (key_of_bits [1; 0; 0]) ∧
  0 ≤ _size (key_of_bits [0; 1; 1]) ∧
  ∃ dab dbc dac,
    difference (key_of_bits [0; 1; 1]) (key_of_bits [0; 0; 1]) = Ok dab ∧
    difference (key_of_bits [0; 0; 1]) (key_of_bits [1; 0; 0]) = Ok dbc ∧
    difference (key_of_bits [0; 1; 1]) (key_of_bits [1; 0; 0]) = Ok dac ∧
    0 ≤ dab ≤ _size (key_of_bits [0; 1; 1]) ∧ dac ≤ dab + dbc.
Proof.
  split; [apply key_of_bits_well_formed|]. split; [apply key_of_bits_well_formed|].
  split; [apply key_of_bits_well_formed|]. split; [reflexivity|].
  split; [reflexivity|]. split; [simpl; lia|].
  apply (difference_triangle (key_of_bits [0; 1; 1]) (key_of_bits [0; 0; 1])
           (key_of_bits [1; 0; 0]));
    try apply key_of_bits_well_formed; try reflexivity; simpl; lia.
Defined.

Lemma str_shows_bits_witness :
  well_formed (key_of_bits [0; 1; 1]) ∧ binary (key_of_bits [0; 1; 1]) ∧
  ∃ s, __str__ (key_of_bits [0; 1; 1]) = Ok s ∧
       __repr__ (key_of_bits [0; 1; 1]) = Ok ("Key: " +:+ s) ∧
       Z.of_nat (String.length s) = Z.max 0 (_size (key_of_bits [0; 1; 1])) ∧
       ∀ i v, get_bit (key_of_bits [0; 1; 1]) i = Ok v →
              (v = 0 ∨ v = 1) ∧ String.get (Z.to_nat i) s = String.get 0 (str v).
Proof.
  assert (binary (key_of_bits [0; 1; 1])) as Ha
    by (apply key_of_bits_binary; repeat constructor; lia).
  split; [apply key_of_bits_well_formed|]. split; [exact Ha|].
  apply (str_shows_bits (key_of_bits [0; 1; 1]));
    [apply key_of_bits_well_formed | exact Ha].
Defined.

Example repr_of_key : __repr__ (key_of_bits [0; 1; 1]) = Ok "Key: 011"%string.
Proof. vm_compute. reflexivity. Qed.

(** A key that misses a bit cannot be printed. *)
Example str_of_gap :
  __str__ {| _size := 2; _bits := {[0 := 1]} |} = Raise (KeyError 1).
Proof. vm_compute. reflexivity. Qed.
End KeyExtraWitnesses.

Module SessionExtraWitnesses.
Import Mock Inputs MoreInputs.

Lemma register_block_then_lookup_witness :
  ∃ self',
    register_block empty_session pair_block = Ok self' ∧
    (∀ k, 0 ≤ k →
          get_blocks_containing_key_index self' k
          = Ok (if decide (k ∈ Block_key_indexes pair_block)
                then bucket empty_session k ++ [pair_block]
                else bucket empty_session k)) ∧
    (∀ k, k < 0 → get_blocks_containing_key_index self' k = Raise AssertionError).
Proof.
  assert (match register_block empty_session pair_block with
          | Ok _ => true
          | Raise _ => false
          end = true) as Hok by (vm_compute; reflexivity).
  destruct (@register_block collaborators empty_session pair_block) as [self'|] eqn:Hrun;
    [|discriminate Hok].
  exists self'. split; [reflexivity|].
  exact (@register_block_then_lookup collaborators empty_session self' pair_block Hrun).
Defined.

(** The block is listed under the two indexes it covers and nowhere else. *)
Example lookup_after_register :
  (register_block empty_session pair_block ≫= λ s,
     get_blocks_containing_key_index s 0) = Ok [pair_block] ∧
  (register_block empty_session pair_block ≫= λ s,
     get_blocks_containing_key_index s 1) = Ok [pair_block] ∧
  (register_block empty_session pair_block ≫= λ s,
     get_blocks_containing_key_index s 2) = Ok [] ∧
  (register_block empty_session pair_block ≫= λ s,
     get_blocks_containing_key_index s (-1)) = Raise AssertionError.
Proof. repeat split; vm_compute; reflexivity. Qed.

Lemma register_block_repeated_index_witness :
  ¬ NoDup (Block_key_indexes twisted_block) ∧
  register_block empty_session twisted_block = Raise AssertionError.
Proof.
  assert (¬ NoDup (Block_key_indexes twisted_block)) as Hdup
    by (apply (bool_decide_unpack _); vm_compute; reflexivity).
  split; [exact Hdup|].
  exact (@register_block_repeated_index collaborators empty_session twisted_block Hdup).
Defined.

Lemma correct_key_keeps_registry_witness :
  registry_ok (sess cascading) ∧
  ∃ log c',
    correct_key 4 Bob_key 0 cascading = Return log Bob_key c' ∧
    registry_ok (sess c').
Proof.
  assert (registry_ok (sess cascading)) as Hinit
    by apply (@registry_ok_init collaborators).
  split; [exact Hinit|].
  assert (returns (correct_key 4 Bob_key 0 cascading) = true) as Hret
    by (vm_compute; reflexivity).
  destruct (@correct_key collaborators 4 Bob_key 0 cascading) as [log [] c'| |] eqn:Hrun;
    [|discriminate Hret|discriminate Hret].
  exists log, c'. split; [reflexivity|].
  exact (@correct_key_keeps_registry collaborators 4 Bob_key 0 cascading log Bob_key c'
           Hrun Hinit).
Defined.

Lemma correct_key_keeps_blocks_witness :
  ∃ log c',
    correct_key 4 Bob_key 0 cascading = Return log Bob_key c' ∧
    _parameters (sess c') = _parameters (sess cascading) ∧
    _classical_channel (sess c') = _classical_channel (sess cascading) ∧
    ∀ key_index,
      bucket (sess cascading) key_index `prefix_of` bucket (sess c') key_index.
Proof.
  assert (returns (correct_key 4 Bob_key 0 cascading) = true) as Hret
    by (vm_compute; reflexivity).
  destruct (@correct_key collaborators 4 Bob_key 0 cascading) as [log [] c'| |] eqn:Hrun;
    [|discriminate Hret|discriminate Hret].
  exists log, c'. split; [reflexivity|].
  exact (@correct_key_keeps_blocks collaborators 4 Bob_key 0 cascading log Bob_key c' Hrun).
Defined.

Lemma correct_key_block_sizes_witness :
  ∃ log c',
    correct_key 4 Bob_key 0 cascading = Return log Bob_key c' ∧
    block_sizes log
    = block_size_function (_parameters (sess cascading)) 0
      <$> seqZ 1 (nr_iterations (_parameters (sess cascading))).
Proof.
  assert (returns (correct_key 4 Bob_key 0 cascading) = true) as Hret
    by (vm_compute; reflexivity).
  destruct (@correct_key collaborators 4 Bob_key 0 cascading) as [log [] c'| |] eqn:Hrun;
    [|discriminate Hret|discriminate Hret].
  exists log, c'. split; [reflexivity|].
  exact (@correct_key_block_sizes collaborators 4 Bob_key 0 cascading log Bob_key c' Hrun).
Defined.

(** Blocks of two positions in the first pass, of four in the second. *)
Example block_sizes_of_cascade :
  block_sizes (events (correct_key 4 Bob_key 0 cascading)) = [2; 4].
Proof. vm_compute. reflexivity. Qed.

Lemma correct_key_brackets_witness :
  ∃ log c',
    correct_key 4 Bob_key 0 cascading = Return log Bob_key c' ∧
    ∃ passes_log,
      log = Ev_start_reconciliation :: passes_log ++ [Ev_end_reconciliation] ∧
      Forall (λ e, ¬ channel_event e) passes_log.
Proof.
  assert (returns (correct_key 4 Bob_key 0 cascading) = true) as Hret
    by (vm_compute; reflexivity).
  destruct (@correct_key collaborators 4 Bob_key 0 cascading) as [log [] c'| |] eqn:Hrun;
    [|discriminate Hret|discriminate Hret].
  exists log, c'. split; [reflexivity|].
  exact (@correct_key_brackets collaborators 4 Bob_key 0 cascading log Bob_key c' Hrun).
Defined.

Lemma correct_key_leaves_queue_empty_witness :
  ∃ log c',
    correct_key 4 Bob_key 0 cascading = Return log Bob_key c' ∧
    last_pass_blocks [] log ≠ [] ∧
    _error_blocks (sess c') = [].
Proof.
  assert (match correct_key 4 Bob_key 0 cascading with
          | Return log _ _ => bool_decide (last_pass_blocks [] log ≠ [])
          | _ => false
          end = true) as Hret by (vm_compute; reflexivity).
  destruct (@correct_key collaborators 4 Bob_key 0 cascading) as [log [] c'| |] eqn:Hrun;
    [|discriminate Hret|discriminate Hret].
  apply bool_decide_eq_true in Hret.
  exists log, c'. split; [reflexivity|]. split; [exact Hret|].
  exact (@correct_key_leaves_queue_empty collaborators 4 Bob_key 0 cascading log Bob_key c'
           Hrun Hret).
Defined.

Lemma correct_key_no_iterations_witness :
  nr_iterations (_parameters (sess idle)) ≤ 0 ∧
  start_reconciliation (_classical_channel (sess idle)) (ext idle) = Ok (ext idle) ∧
  end_reconciliation (_classical_channel (sess idle)) (ext idle) = Ok (ext idle) ∧
  correct_key 0 Bob_key 0 idle
  = Return [Ev_start_reconciliation; Ev_end_reconciliation] Bob_key
      {| sess := sess idle; ext := ext idle |}.
Proof.
  split; [simpl; lia|]. split; [reflexivity|]. split; [reflexivity|].
  apply (@correct_key_no_iterations collaborators 0 Bob_key 0 idle (ext idle) (ext idle));
    [simpl; lia | reflexivity | reflexivity].
Defined.

Lemma correct_registered_error_blocks_asserts_witness :
  @correct_registered_error_blocks Faulty.collaborators 1 Faulty.queued
  = Throw [@Ev_heappop Faulty.collaborators [(3, 3)] (3, 3);
           @Ev_error_parity Faulty.collaborators 3 Block.ERRORS_ODD;
           @Ev_correct_one_bit Faulty.collaborators 3] AssertionError.
Proof.
  apply (@correct_registered_error_blocks_asserts Faulty.collaborators 0 Faulty.queued
           (3, 3) [] tt [] tt (@set_error_blocks Faulty.collaborators Faulty.session []));
    reflexivity.
Defined.

Lemma cascade_corrections_bounded_witness :
  ∃ log c',
    correct_registered_error_blocks 2 queued = Return log tt c' ∧
    (errors (ext c') + length (correct_one_bit_calls log) ≤ errors (ext queued))%nat.
Proof.
  assert (returns (correct_registered_error_blocks 2 queued) = true) as Hret
    by (vm_compute; reflexivity).
  destruct (@correct_registered_error_blocks collaborators 2 queued)
    as [log [] c'| |] eqn:Hrun; [|discriminate Hret|discriminate Hret].
  exists log, c'. split; [reflexivity|].
  exact (@cascade_corrections_bounded collaborators errors
           MockFacts.error_parity_keeps MockFacts.correct_one_bit_corrects
           2 queued log c' Hrun).
Defined.

Lemma create_mock_session_and_key_without_seeds_witness :
  (0 < 1 →
   create_mock_session_and_key 0 None None (parameters 4 2 false)
     (idle_world 1) (ext agreeing) = Raise AssertionError) ∧
  (1 ≤ 8 →
   ∃ alice_key rw',
     Key.create_random_key 8 None (idle_world 1) = Ok (alice_key, rw') ∧
     Key.well_formed alice_key ∧ Key._size alice_key = 8 ∧
     ∀ mock_classical_channel w',
       MockClassicalChannel alice_key (ext agreeing) = Ok (mock_classical_channel, w') →
       create_mock_session_and_key 8 None None (parameters 4 2 false)
         (idle_world 1) (ext agreeing)
       = Ok (Session__init__ (parameters 4 2 false) mock_classical_channel,
             alice_key, rw', w')).
Proof.
  split.
  - apply (@create_mock_session_and_key_without_seeds collaborators Z Lcg Lcg_laws
             0 None None (parameters 4 2 false) (idle_world 1) (ext agreeing)).
  - apply (@create_mock_session_and_key_without_seeds collaborators Z Lcg Lcg_laws
             8 None None (parameters 4 2 false) (idle_world 1) (ext agreeing)).
Defined.
End SessionExtraWitnesses.
